(** * vector-db-book: the segment store, the engine facade, the LSH index
      and the distance kernels, embedded from the C++ sources.

    - [src/cpp/db/iceberg_store.hpp]  ->  modules [VectorRecord], [Segment],
      [SealedSegment], [Snapshot], [ParquetFile], [IcebergStore]
    - [src/cpp/db/arrow_batch.hpp]    ->  modules [RecordBatch],
      [RecordBatchBuilder]
    - [src/cpp/hnsw.hpp]              ->  module [HNSWIndex]
    - [src/cpp/db/vector_db.hpp]      ->  module [VectorDB]
    - [src/cpp/lsh.hpp]               ->  modules [RandomHyperplaneLSH],
      [EuclideanLSH]
    - [src/cpp/distances.cpp]         ->  module [Distances]

    The file has three parts: the model, the vocabulary the statements are
    written in ([StoreSpec], [EngineSpec], [LSHSpec], [KernelSpec],
    [Examples]), and the properties: first [StoreFacts], [EngineFacts],
    [LSHFacts] and [Witnesses], then the further laws of the operations in
    [StoreLaws], [EngineLaws], [KernelFacts] and [LSHLaws], with their
    instances in [LawWitnesses].

    Conventions. [size_t] values are integers in [Z]; where the source
    subtracts, doubles or sums them the wrap-around modulo 2^64 is written out
    with [size_wrap].  The [int] segment and snapshot ids are integers in [Z]
    without wrap-around: signed overflow is undefined, and is 2^31 segments
    away.  [float] is IEEE-754 binary32 with round-to-nearest-even, taken from
    the standard library's executable specification [SpecFloat] (precision
    24, emax 128), each operation rounded on its own; the one kernel whose
    build line enables fused multiply-add, [l2_distance_naive], is modelled
    both ways.  [SpecFloat] has a single NaN: the sign and payload of a NaN
    are not modelled, so an equation between two floats says, of a NaN,
    only that both are one.  A C++ exception is a
    [Throw] result that leaves the object in the state reached when it was
    raised.  The store's mutex makes every public operation atomic, so
    operations are state transformers.  The files under the store's
    directory are part of the store's state; nothing else writes them. *)

From Stdlib Require Import ZArith SpecFloat.
From stdpp Require Import gmap strings list pretty.

Local Open Scope Z_scope.

(** ** size_t *)

Definition size_wrap (z : Z) : Z := z mod 2 ^ 64.

(** ** binary32 *)

Module F32.
Definition prec : Z := 24.
Definition emax : Z := 128.
Definition t : Type := spec_float.

Definition zero : t := S754_zero false.
Definition add : t → t → t := SFadd prec emax.
Definition sub : t → t → t := SFsub prec emax.
Definition mul : t → t → t := SFmul prec emax.
Definition div : t → t → t := SFdiv prec emax.
Definition sqrt : t → t := SFsqrt prec emax.
(** [fma(x, y, z)]: [x * y + z] with one rounding, of the exact sum. *)
Definition fma (x y z : t) : t :=
  match x, y with
  | S754_nan, _ | _, S754_nan => S754_nan
  | S754_infinity _, S754_zero _ | S754_zero _, S754_infinity _ => S754_nan
  | S754_infinity sx, S754_infinity sy
  | S754_infinity sx, S754_finite sy _ _
  | S754_finite sx _ _, S754_infinity sy =>
      match z with
      | S754_nan => S754_nan
      | S754_infinity sz => if Bool.eqb (xorb sx sy) sz then z else S754_nan
      | _ => S754_infinity (xorb sx sy)
      end
  | S754_finite sx _ _, S754_zero sy
  | S754_zero sx, S754_finite sy _ _
  | S754_zero sx, S754_zero sy =>
      match z with
      | S754_zero sz => S754_zero (if Bool.eqb (xorb sx sy) sz then sz else false)
      | _ => z
      end
  | S754_finite sx mx ex, S754_finite sy my ey =>
      match z with
      | S754_nan | S754_infinity _ => z
      | S754_zero _ =>
          binary_normalize prec emax (cond_Zopp (xorb sx sy) (Z.pos (mx * my)))
            (ex + ey) false
      | S754_finite sz mz ez =>
          let e := Z.min (ex + ey) ez in
          binary_normalize prec emax
            (cond_Zopp (xorb sx sy) (Z.pos (fst (shl_align (mx * my) (ex + ey) e)))
             + cond_Zopp sz (Z.pos (fst (shl_align mz ez e))))
            e false
      end
  end.
(** [x < y], [x <= y]; both false when an operand is NaN. *)
Definition ltb : t → t → bool := SFltb.
Definition leb : t → t → bool := SFleb.
(** [static_cast<float>(n)] for an unsigned integer [n]. *)
Definition of_size (n : Z) : t := binary_normalize prec emax n 0 false.
(** The literal [1e-10f]. *)
Definition lit_1e_10 : t := S754_finite false 14411519 (-57).
(** [2^e] for an exponent in the normal range. *)
Definition pow2 (e : Z) : t := S754_finite false 8388608 (e - 23).

#[global] Instance eq_dec : EqDecision t.
Proof. solve_decision. Defined.
End F32.

(** ** Exceptions *)

Inductive error : Type :=
  | invalid_argument (what : string)   (* std::invalid_argument *)
  | io_error (path : string)           (* PARQUET_ASSIGN_OR_THROW on a missing file *)
  | out_of_bounds                      (* a read past the end of a buffer: undefined in C++ *)
  | bad_cast.                          (* a static_pointer_cast to the wrong type: undefined in C++ *)

Inductive result (A : Type) : Type :=
  | Ok (a : A)
  | Throw (e : error).
Arguments Ok {A} a.
Arguments Throw {A} e.

#[global] Instance error_eq_dec : EqDecision error.
Proof. solve_decision. Defined.

(** [std::vector<float>(buf + i*dim, buf + (i+1)*dim)]. *)
Definition slice {A} (buf : list A) (i : nat) (dim : Z) : option (list A) :=
  let d := Z.to_nat dim in
  if decide ((S i * d ≤ length buf)%nat) then Some (take d (drop (i * d) buf))
  else None.

(** ** iceberg_store.hpp: records *)

Module VectorRecord.
Record t : Type := mk {
  id : Z;                     (* uint64_t *)
  embedding : list F32.t;
  metadata : string }.

#[global] Instance eq_dec : EqDecision t.
Proof. solve_decision. Defined.
End VectorRecord.

Module Segment.
Record t : Type := mk {
  segment_id : Z;
  records : list VectorRecord.t;
  deleted : gset Z }.

Definition live_count (s : t) : Z :=
  size_wrap (Z.of_nat (length (records s)) - Z.of_nat (size (deleted s))).
End Segment.

Module SealedSegment.
Record t : Type := mk {
  segment_id : Z;
  filepath : string;
  num_records : Z;
  deleted : gset Z }.

Definition live_count (s : t) : Z :=
  size_wrap (num_records s - Z.of_nat (size (deleted s))).

Definition tombstone_ratio (s : t) : F32.t :=
  if num_records s =? 0 then F32.zero
  else F32.div (F32.of_size (Z.of_nat (size (deleted s))))
               (F32.of_size (num_records s)).

(** What [std::move(seg)] leaves behind: the scalar members are copied, the
    string and the set are left empty. *)
Definition moved_from (s : t) : t :=
  mk (segment_id s) "" (num_records s) ∅.

#[global] Instance eq_dec : EqDecision t.
Proof. solve_decision. Defined.
End SealedSegment.

(** The [timestamp_ms] member is a wall-clock reading and is left out. *)
Module Snapshot.
Record t : Type := mk {
  snapshot_id : Z;
  segment_ids : list Z }.
End Snapshot.

(** The columns [write_parquet] hands to the file writer: the ids, the flat
    float buffer with its fixed list size, and the metadata strings. *)
Module ParquetFile.
Record t : Type := mk {
  col_id : list Z;
  col_embedding : list F32.t;
  list_size : Z;
  col_metadata : list string }.
End ParquetFile.

(** ** iceberg_store.hpp: IcebergStore *)

Module IcebergStore.
Record t : Type := mk {
  dim_ : Z;
  segment_capacity_ : Z;
  data_dir_ : string;
  next_segment_id_ : Z;
  active_segment_ : Segment.t;
  sealed_segments_ : list SealedSegment.t;
  snapshots_ : list Snapshot.t;
  (** the files under [data_dir_], by path *)
  disk_ : gmap string ParquetFile.t }.

Definition set_next_segment_id (n : Z) (st : t) : t :=
  mk (dim_ st) (segment_capacity_ st) (data_dir_ st) n (active_segment_ st)
     (sealed_segments_ st) (snapshots_ st) (disk_ st).
Definition set_active_segment (a : Segment.t) (st : t) : t :=
  mk (dim_ st) (segment_capacity_ st) (data_dir_ st) (next_segment_id_ st) a
     (sealed_segments_ st) (snapshots_ st) (disk_ st).
Definition set_sealed_segments (l : list SealedSegment.t) (st : t) : t :=
  mk (dim_ st) (segment_capacity_ st) (data_dir_ st) (next_segment_id_ st)
     (active_segment_ st) l (snapshots_ st) (disk_ st).
Definition set_snapshots (l : list Snapshot.t) (st : t) : t :=
  mk (dim_ st) (segment_capacity_ st) (data_dir_ st) (next_segment_id_ st)
     (active_segment_ st) (sealed_segments_ st) l (disk_ st).
Definition set_disk (d : gmap string ParquetFile.t) (st : t) : t :=
  mk (dim_ st) (segment_capacity_ st) (data_dir_ st) (next_segment_id_ st)
     (active_segment_ st) (sealed_segments_ st) (snapshots_ st) d.

(** A member function: the store after the call and what the call returned
    or threw. *)
Definition M (A : Type) : Type := t → t * result A.
Definition ret {A} (a : A) : M A := λ st, (st, Ok a).
Definition throw {A} (e : error) : M A := λ st, (st, Throw e).
Definition bind {A B} (c : M A) (k : A → M B) : M B := λ st,
  match c st with
  | (st1, Ok a) => k a st1
  | (st1, Throw e) => (st1, Throw e)
  end.
Definition modify (f : t → t) : M unit := λ st, (f st, Ok tt).
Definition get {A} (f : t → A) : M A := λ st, (st, Ok (f st)).
(** A [const] member function. *)
Definition lift {A} (f : t → result A) : M A := λ st, (st, f st).

Notation "'do' x <- c ; k" := (bind c (λ x, k))
  (at level 10, x name, c at level 100, k at level 200).
Notation "c ;; k" := (bind c (λ _, k))
  (at level 100, k at level 200, right associativity).

(** [data_dir_ + "/segment_" + std::to_string(id) + ".parquet"] *)
Definition segment_path (data_dir : string) (segment_id : Z) : string :=
  data_dir +:+ "/segment_" +:+ pretty segment_id +:+ ".parquet".

Definition commit_snapshot : M unit :=
  modify (λ st,
    let snap := Snapshot.mk (Z.of_nat (length (snapshots_ st)))
                  (SealedSegment.segment_id <$> sealed_segments_ st) in
    set_snapshots (snapshots_ st ++ [snap]) st).

(** The constructor; [files] is what [data_dir] holds already. *)
Definition new (dim segment_capacity : Z) (data_dir : string)
    (files : gmap string ParquetFile.t) : t :=
  let st := mk dim segment_capacity data_dir 1 (Segment.mk 0 [] ∅) [] [] files in
  fst (commit_snapshot st).

(** The three column vectors [write_parquet] fills in its loop. *)
Definition columns (records : list VectorRecord.t)
    : list Z * list F32.t * list string :=
  fold_left (λ '(ids, flat_vectors, metas) r,
               (ids ++ [VectorRecord.id r],
                flat_vectors ++ VectorRecord.embedding r,
                metas ++ [VectorRecord.metadata r]))
            records ([], [], []).

(** [add_vector_column] rejects the buffer first; the file is then written
    (or overwritten) at [path].  The Arrow writer's own validation of the
    table is not modelled: it cannot fire when every record has [dim_]
    floats, which [insert] and [bulk_insert] ensure. *)
Definition write_parquet (path : string) (records : list VectorRecord.t) : M unit :=
  λ st,
    let '(ids, flat_vectors, metas) := columns records in
    if (dim_ st =? 0) || negb (Z.of_nat (length flat_vectors) mod dim_ st =? 0)
    then (st, Throw (invalid_argument "flat_vectors.size() must be divisible by dim"))
    else (set_disk (<[path := ParquetFile.mk ids flat_vectors (dim_ st) metas]> (disk_ st)) st,
          Ok tt).

(** The row loop of [read_parquet]: [ids] are the ids from row [i] on. *)
Fixpoint read_rows (dim : Z) (f : ParquetFile.t) (deleted : gset Z)
    (ids : list Z) (i : nat) (res : list VectorRecord.t)
    : result (list VectorRecord.t) :=
  match ids with
  | [] => Ok res
  | id :: ids' =>
      if decide (id ∈ deleted) then read_rows dim f deleted ids' (S i) res
      else
        match slice (ParquetFile.col_embedding f) i dim,
              ParquetFile.col_metadata f !! i with
        | Some vec, Some meta =>
            read_rows dim f deleted ids' (S i) (res ++ [VectorRecord.mk id vec meta])
        | _, _ => Throw out_of_bounds
        end
  end.

Definition read_parquet (path : string) (deleted : gset Z) (st : t)
    : result (list VectorRecord.t) :=
  match disk_ st !! path with
  | None => Throw (io_error path)
  | Some f => read_rows (dim_ st) f deleted (ParquetFile.col_id f) 0 []
  end.

Definition flush_active_segment_locked : M unit := λ st,
  let active := active_segment_ st in
  match Segment.records active with
  | [] => (st, Ok tt)
  | _ :: _ =>
      let path := segment_path (data_dir_ st) (Segment.segment_id active) in
      (write_parquet path (Segment.records active) ;;
       modify (λ st,
         let sealed := SealedSegment.mk (Segment.segment_id active) path
                         (Z.of_nat (length (Segment.records active)))
                         (Segment.deleted active) in
         set_next_segment_id (next_segment_id_ st + 1)
           (set_active_segment (Segment.mk (next_segment_id_ st) [] ∅)
              (set_sealed_segments (sealed_segments_ st ++ [sealed]) st))) ;;
       commit_snapshot) st
  end.

Definition push_back (r : VectorRecord.t) (st : t) : t :=
  let a := active_segment_ st in
  set_active_segment
    (Segment.mk (Segment.segment_id a) (Segment.records a ++ [r]) (Segment.deleted a)) st.

(** [if (records.size() >= segment_capacity_) flush_active_segment_locked()] *)
Definition flush_if_full : M unit := λ st,
  if segment_capacity_ st <=? Z.of_nat (length (Segment.records (active_segment_ st)))
  then flush_active_segment_locked st
  else (st, Ok tt).

Definition insert (id : Z) (embedding : list F32.t) (metadata : string) : M unit :=
  λ st,
    if negb (Z.of_nat (length embedding) =? dim_ st)
    then (st, Throw (invalid_argument "Dimension mismatch"))
    else (modify (push_back (VectorRecord.mk id embedding metadata)) ;;
          flush_if_full) st.

(** The loop of [bulk_insert] with [n] iterations left, at row [i]. *)
Fixpoint bulk_insert_loop (ids : list Z) (vectors : list F32.t) (dim : Z)
    (n i : nat) : M unit :=
  match n with
  | O => ret tt
  | S n' =>
      match slice vectors i dim, ids !! i with
      | Some emb, Some id =>
          modify (push_back (VectorRecord.mk id emb "")) ;;
          flush_if_full ;;
          bulk_insert_loop ids vectors dim n' (S i)
      | _, _ => throw out_of_bounds
      end
  end.

Definition bulk_insert (ids : list Z) (vectors : list F32.t) (count dim : Z)
    : M unit := λ st,
  if negb (dim =? dim_ st)
  then (st, Throw (invalid_argument "Dimension mismatch in bulk insert"))
  else bulk_insert_loop ids vectors dim (Z.to_nat count) 0 st.

(** The first loop of [delete_vector]: is there a record with this id? *)
Fixpoint has_id (id : Z) (records : list VectorRecord.t) : bool :=
  match records with
  | [] => false
  | r :: records' => if VectorRecord.id r =? id then true else has_id id records'
  end.

Definition tombstone (id : Z) (seg : SealedSegment.t) : SealedSegment.t :=
  SealedSegment.mk (SealedSegment.segment_id seg) (SealedSegment.filepath seg)
    (SealedSegment.num_records seg) ({[id]} ∪ SealedSegment.deleted seg).

Definition delete_vector (id : Z) : M unit :=
  modify (λ st,
    let a := active_segment_ st in
    if has_id id (Segment.records a)
    then set_active_segment
           (Segment.mk (Segment.segment_id a) (Segment.records a)
              ({[id]} ∪ Segment.deleted a)) st
    else set_sealed_segments (tombstone id <$> sealed_segments_ st) st).

Definition flush : M unit := flush_active_segment_locked.

(** The first loop of [scan_all]. *)
Fixpoint scan_sealed (segs : list SealedSegment.t) (res : list VectorRecord.t)
    (st : t) : result (list VectorRecord.t) :=
  match segs with
  | [] => Ok res
  | seg :: segs' =>
      match read_parquet (SealedSegment.filepath seg) (SealedSegment.deleted seg) st with
      | Ok records => scan_sealed segs' (res ++ records) st
      | Throw e => Throw e
      end
  end.

(** The second loop of [scan_all]. *)
Fixpoint scan_active (deleted : gset Z) (records : list VectorRecord.t)
    (res : list VectorRecord.t) : list VectorRecord.t :=
  match records with
  | [] => res
  | r :: records' =>
      if decide (VectorRecord.id r ∈ deleted) then scan_active deleted records' res
      else scan_active deleted records' (res ++ [r])
  end.

Definition scan_all (st : t) : result (list VectorRecord.t) :=
  match scan_sealed (sealed_segments_ st) [] st with
  | Ok res =>
      Ok (scan_active (Segment.deleted (active_segment_ st))
            (Segment.records (active_segment_ st)) res)
  | Throw e => Throw e
  end.

(** The locals of [compact]. *)
Record compact_locals : Type := mk_locals {
  clean : list SealedSegment.t;
  to_merge : list VectorRecord.t;
  reclaimed : Z }.

(** The loop of [compact] over [sealed_segments_] from index [j] on.  A
    segment that is kept is moved into [clean], which leaves its slot in
    [sealed_segments_] moved-from. *)
Fixpoint compact_loop (tombstone_threshold : F32.t) (segs : list SealedSegment.t)
    (j : nat) (loc : compact_locals) : M compact_locals :=
  match segs with
  | [] => ret loc
  | seg :: segs' =>
      if F32.leb tombstone_threshold (SealedSegment.tombstone_ratio seg) then
        do records <- lift (read_parquet (SealedSegment.filepath seg)
                              (SealedSegment.deleted seg));
        modify (λ st, set_disk (delete (SealedSegment.filepath seg) (disk_ st)) st) ;;
        compact_loop tombstone_threshold segs' (S j)
          (mk_locals (clean loc) (to_merge loc ++ records)
             (size_wrap (reclaimed loc +
                size_wrap (SealedSegment.num_records seg - Z.of_nat (length records)))))
      else
        modify (λ st, set_sealed_segments
                        (<[j := SealedSegment.moved_from seg]> (sealed_segments_ st)) st) ;;
        compact_loop tombstone_threshold segs' (S j)
          (mk_locals (clean loc ++ [seg]) (to_merge loc) (reclaimed loc))
  end.

Definition compact (tombstone_threshold : F32.t) : M Z :=
  do segs <- get sealed_segments_;
  do loc <- compact_loop tombstone_threshold segs 0 (mk_locals [] [] 0);
  do clean' <-
    match to_merge loc with
    | [] => ret (clean loc)
    | _ :: _ =>
        do new_seg_id <- get next_segment_id_;
        modify (set_next_segment_id (new_seg_id + 1)) ;;
        do data_dir <- get data_dir_;
        let path := segment_path data_dir new_seg_id in
        write_parquet path (to_merge loc) ;;
        ret (clean loc ++
             [SealedSegment.mk new_seg_id path (Z.of_nat (length (to_merge loc))) ∅])
    end;
  modify (set_sealed_segments clean') ;;
  commit_snapshot ;;
  ret (reclaimed loc).

Definition snapshot_count (st : t) : Z := Z.of_nat (length (snapshots_ st)).


Definition total_records (st : t) : Z :=
  fold_left (λ total seg, size_wrap (total + SealedSegment.num_records seg))
    (sealed_segments_ st)
    (Z.of_nat (length (Segment.records (active_segment_ st)))).

Definition total_live_records (st : t) : Z :=
  fold_left (λ total seg, size_wrap (total + SealedSegment.live_count seg))
    (sealed_segments_ st)
    (Segment.live_count (active_segment_ st)).

Definition sealed_segment_count (st : t) : Z :=
  Z.of_nat (length (sealed_segments_ st)).

Definition dimension (st : t) : Z := dim_ st.
End IcebergStore.

(** ** arrow_batch.hpp *)

Module RecordBatch.
Inductive column : Type :=
  | UInt64Array (values : list Z)
  | FixedSizeListArray (list_size : Z) (values : list F32.t)
  | StringArray (values : list string).

Definition length (c : column) : Z :=
  match c with
  | UInt64Array values => Z.of_nat (List.length values)
  | FixedSizeListArray list_size values => Z.of_nat (List.length values) / list_size
  | StringArray values => Z.of_nat (List.length values)
  end.

Record t : Type := mk {
  num_rows : Z;
  columns : list (string * column) }.

(** Arrow's lookup by field name: null when no field, or more than one, has
    the name. *)
Definition GetColumnByName (name : string) (b : t) : option column :=
  match filter (λ p, p.1 = name) (columns b) with
  | [(_, c)] => Some c
  | _ => None
  end.
End RecordBatch.

Module RecordBatchBuilder.
Import RecordBatch.

(** [fields_] and [arrays_], kept side by side. *)
Definition t : Type := list (string * column).

Definition empty : t := [].

Definition add_id_column (name : string) (ids : list Z) (b : t) : result t :=
  Ok (b ++ [(name, UInt64Array ids)]).

Definition add_vector_column (name : string) (flat_vectors : list F32.t) (dim : Z)
    (b : t) : result t :=
  if (dim =? 0) || negb (Z.of_nat (List.length flat_vectors) mod dim =? 0)
  then Throw (invalid_argument "flat_vectors.size() must be divisible by dim")
  else Ok (b ++ [(name, FixedSizeListArray dim flat_vectors)]).

Definition add_string_column (name : string) (strings : list string) (b : t)
    : result t :=
  Ok (b ++ [(name, StringArray strings)]).

Definition build (b : t) : RecordBatch.t :=
  RecordBatch.mk (match b with [] => 0 | (_, c) :: _ => RecordBatch.length c end) b.
End RecordBatchBuilder.

(** ** hnsw.hpp *)

Module HNSWIndex.
Record SearchResult : Type := mk_result {
  distance : F32.t;
  id : Z }.

(** The parameters and the owned vectors are modelled as they are.  The
    link structure ([graph_], [entry_point_], [max_layer_], [rng_]) is kept
    as one component [links_]: how it evolves depends on the draws of
    [std::mt19937], on [std::log] and on how [std::priority_queue] and
    [std::sort] order equal distances, none of which the source fixes. *)
Record t {Links : Type} : Type := mk {
  dim_ : Z;
  M_ : Z;
  M_max0_ : Z;
  ef_construction_ : Z;
  ef_search_ : Z;
  vectors_ : list (list F32.t);
  links_ : Links }.
Arguments t : clear implicits.
Arguments mk {Links}.

(** What the graph code computes, as an interface. *)
Class Graph : Type := {
  Links : Type;
  (** the members after construction: no entry point, no layers, seed 42 *)
  no_links : Links;
  (** the graph part of [insert]: [link h vec] is the link structure after
      [vec] was appended to the vectors of [h] *)
  link : t Links → list F32.t → Links;
  (** what [search(query, k)] returns *)
  neighbours : t Links → list F32.t → Z → list SearchResult }.

(** The loop of [distance_sq] with [n] iterations left, at index [i]. *)
Fixpoint distance_sq_loop (a b : list F32.t) (n i : nat) (sum : F32.t)
    : option F32.t :=
  match n with
  | O => Some sum
  | S n' =>
      match a !! i, b !! i with
      | Some x, Some y =>
          let d := F32.sub x y in
          distance_sq_loop a b n' (S i) (F32.add sum (F32.mul d d))
      | _, _ => None
      end
  end.

Definition distance_sq (dim : Z) (a b : list F32.t) : option F32.t :=
  distance_sq_loop a b (Z.to_nat dim) 0 F32.zero.

Section Index.
Context `{Graph}.

Definition new (dim M ef_construction ef_search : Z) : t Links :=
  mk dim M (size_wrap (2 * M)) ef_construction ef_search [] no_links.

(** [insert] returns the id of the new node. *)
Definition insert (vec : list F32.t) (h : t Links) : t Links * Z :=
  let id := Z.of_nat (length (vectors_ h)) in
  (mk (dim_ h) (M_ h) (M_max0_ h) (ef_construction_ h) (ef_search_ h)
      (vectors_ h ++ [vec]) (link h vec),
   id).

Definition search (query : list F32.t) (k : Z) (h : t Links) : list SearchResult :=
  neighbours h query k.

Definition build (vectors : list (list F32.t)) (h : t Links) : t Links :=
  fold_left (λ h v, fst (insert v h)) vectors h.

Definition size (h : t Links) : Z := Z.of_nat (length (vectors_ h)).

Definition set_ef_search (ef : Z) (h : t Links) : t Links :=
  mk (dim_ h) (M_ h) (M_max0_ h) (ef_construction_ h) ef (vectors_ h) (links_ h).
End Index.
End HNSWIndex.

(** ** vector_db.hpp *)

Module VectorDB.
Record VDBSearchResult : Type := mk_result {
  id : Z;
  distance : F32.t;
  metadata : string }.

Section Engine.
Context `{HNSWIndex.Graph}.

Record t : Type := mk {
  dim_ : Z;
  store_ : IcebergStore.t;
  hnsw_ : HNSWIndex.t HNSWIndex.Links }.

Definition set_store (s : IcebergStore.t) (db : t) : t := mk (dim_ db) s (hnsw_ db).
Definition set_hnsw (h : HNSWIndex.t HNSWIndex.Links) (db : t) : t :=
  mk (dim_ db) (store_ db) h.

(** Run a store operation on [store_]. *)
Definition on_store {A} (c : IcebergStore.M A) (db : t) : t * result A :=
  let '(s, r) := c (store_ db) in (set_store s db, r).

(** The store is opened on the default directory; [files] is what the
    directory holds. *)
Definition new (dim M ef_construct ef_search seg_capacity : Z)
    (files : gmap string ParquetFile.t) : t :=
  mk dim (IcebergStore.new dim seg_capacity "/tmp/vectordb" files)
     (HNSWIndex.new dim M ef_construct ef_search).

(** [static_cast<int32_t>(dim_)] *)
Definition to_int32 (z : Z) : Z := (z + 2 ^ 31) mod 2 ^ 32 - 2 ^ 31.

(** The third step of [ingest_batch]: one index insert per row. *)
Fixpoint index_rows (raw_floats : list F32.t) (dim : Z) (n i : nat)
    (h : HNSWIndex.t HNSWIndex.Links) : result (HNSWIndex.t HNSWIndex.Links) :=
  match n with
  | O => Ok h
  | S n' =>
      match slice raw_floats i dim with
      | Some vec => index_rows raw_floats dim n' (S i) (fst (HNSWIndex.insert vec h))
      | None => Throw out_of_bounds
      end
  end.

(** The two casts are unchecked: a column of another array type under one
    of the two names is undefined behaviour, rendered as [bad_cast]. *)
Definition ingest_batch (batch : RecordBatch.t) (db : t) : t * result Z :=
  match RecordBatch.GetColumnByName "id" batch,
        RecordBatch.GetColumnByName "embedding" batch with
  | None, _ => (db, Throw (invalid_argument "Batch missing 'id' UINT64 column"))
  | Some _, None =>
      (db, Throw (invalid_argument "Batch missing 'embedding' FLOAT32_ARRAY column"))
  | Some (RecordBatch.UInt64Array ids),
    Some (RecordBatch.FixedSizeListArray list_size floats) =>
      if negb (list_size =? to_int32 (dim_ db))
      then (db, Throw (invalid_argument
              ("Embedding dimension mismatch: expected " +:+ pretty (dim_ db)
               +:+ ", got " +:+ pretty list_size)))
      else
        let n := RecordBatch.num_rows batch in
        match on_store (IcebergStore.bulk_insert ids floats n (dim_ db)) db with
        | (db1, Throw e) => (db1, Throw e)
        | (db1, Ok _) =>
            match index_rows floats (dim_ db) (Z.to_nat n) 0 (hnsw_ db1) with
            | Ok h => (set_hnsw h db1, Ok n)
            | Throw e => (db1, Throw e)
            end
        end
  | Some _, Some _ => (db, Throw bad_cast)
  end.

Definition insert (id : Z) (embedding : list F32.t) (metadata : string) (db : t)
    : t * result unit :=
  match on_store (IcebergStore.insert id embedding metadata) db with
  | (db1, Throw e) => (db1, Throw e)
  | (db1, Ok _) => (set_hnsw (fst (HNSWIndex.insert embedding (hnsw_ db1))) db1, Ok tt)
  end.

(** The result loop of [search]. *)
Fixpoint collect (k : Z) (all_records : list VectorRecord.t)
    (hnsw_results : list HNSWIndex.SearchResult) (results : list VDBSearchResult)
    : list VDBSearchResult :=
  match hnsw_results with
  | [] => results
  | hr :: rest =>
      let results' :=
        match all_records !! Z.to_nat (HNSWIndex.id hr) with
        | Some rec =>
            results ++ [mk_result (VectorRecord.id rec) (HNSWIndex.distance hr)
                          (VectorRecord.metadata rec)]
        | None => results
        end in
      if k <=? Z.of_nat (length results') then results'
      else collect k all_records rest results'
  end.

Definition search (query : list F32.t) (k : Z) (db : t)
    : t * result (list VDBSearchResult) :=
  if negb (Z.of_nat (length query) =? dim_ db)
  then (db, Throw (invalid_argument "Query dimension mismatch"))
  else
    let ef := Z.max (size_wrap (k * 2)) 50 in
    let db1 := set_hnsw (HNSWIndex.set_ef_search ef (hnsw_ db)) db in
    let hnsw_results := HNSWIndex.search query ef (hnsw_ db1) in
    match IcebergStore.scan_all (store_ db1) with
    | Throw e => (db1, Throw e)
    | Ok all_records => (db1, Ok (collect k all_records hnsw_results []))
    end.

Definition delete_vector (id : Z) (db : t) : t * result unit :=
  on_store (IcebergStore.delete_vector id) db.

Definition compact_and_rebuild (tombstone_threshold : F32.t) (db : t) : t * result Z :=
  match on_store (IcebergStore.compact tombstone_threshold) db with
  | (db1, Throw e) => (db1, Throw e)
  | (db1, Ok reclaimed) =>
      match IcebergStore.scan_all (store_ db1) with
      | Throw e => (db1, Throw e)
      | Ok live =>
          let h := HNSWIndex.new (dim_ db1) 16 200 50 in
          let vectors := VectorRecord.embedding <$> live in
          (set_hnsw (HNSWIndex.build vectors h) db1, Ok reclaimed)
      end
  end.

Definition flush (db : t) : t * result unit := on_store IcebergStore.flush db.

Definition dimension (db : t) : Z := dim_ db.
Definition total_records (db : t) : Z := IcebergStore.total_records (store_ db).
Definition live_records (db : t) : Z := IcebergStore.total_live_records (store_ db).
Definition index_size (db : t) : Z := HNSWIndex.size (hnsw_ db).
Definition segment_count (db : t) : Z := IcebergStore.sealed_segment_count (store_ db).
Definition snapshot_count (db : t) : Z := IcebergStore.snapshot_count (store_ db).
End Engine.
Arguments t {_}.
End VectorDB.

(** ** lsh.hpp: RandomHyperplaneLSH *)

Module RandomHyperplaneLSH.
(** The loop of [cosine_sim] at index [i]; [a] is what is left of the first
    vector.  [b[i]] past the end of [b] is an out-of-bounds read. *)
Fixpoint cosine_loop (a b : list F32.t) (i : nat) (dot na nb : F32.t)
    : option (F32.t * F32.t * F32.t) :=
  match a with
  | [] => Some (dot, na, nb)
  | ai :: a' =>
      match b !! i with
      | Some bi =>
          cosine_loop a' b (S i) (F32.add dot (F32.mul ai bi))
            (F32.add na (F32.mul ai ai)) (F32.add nb (F32.mul bi bi))
      | None => None
      end
  end.

Definition cosine_sim (a b : list F32.t) : result F32.t :=
  match cosine_loop a b 0 F32.zero F32.zero F32.zero with
  | Some (dot, na, nb) =>
      let denom := F32.mul (F32.sqrt na) (F32.sqrt nb) in
      Ok (if F32.ltb F32.lit_1e_10 denom then F32.div dot denom else F32.zero)
  | None => Throw out_of_bounds
  end.

(** The index.  [tables_[t]] maps a signature (its [bits]) to the indices
    pushed under it.  [HashSignatureHash] only decides where the unordered
    map keeps a key; the keys are compared with [operator==], which
    compares [bits].  In what follows a result [None] is a read past the
    end of a vector, which is undefined in C++. *)
Record t : Type := mk {
  dim_ : Z;
  num_tables_ : Z;
  num_hashes_ : Z;
  hyperplanes_ : list (list F32.t);
  tables_ : list (gmap (list Z) (list Z));
  vectors_ : list (list F32.t) }.

(** The constructor.  [planes] are the values it draws from
    [std::normal_distribution], table by table: the standard does not fix
    them.  Table [t] gets [num_hashes * dim] of them. *)
Definition new (dim num_tables num_hashes : Z) (planes : list (list F32.t)) : t :=
  mk dim num_tables num_hashes planes (replicate (Z.to_nat num_tables) ∅) [].

(** The inner loop of [hash] with [n] iterations left, at [d]; [plane]
    starts [off] floats into the table's buffer.  A read past the end of the
    buffer or of [vec] is [None]. *)
Fixpoint dot_loop (buf vec : list F32.t) (off n d : nat) (dot : F32.t) : option F32.t :=
  match n with
  | O => Some dot
  | S n' =>
      match buf !! (off + d)%nat, vec !! d with
      | Some p, Some v => dot_loop buf vec off n' (S d) (F32.add dot (F32.mul p v))
      | _, _ => None
      end
  end.

(** The outer loop of [hash] with [n] iterations left, at [h]. *)
Fixpoint hash_loop (buf vec : list F32.t) (dim n h : nat) (bits : list Z)
    : option (list Z) :=
  match n with
  | O => Some bits
  | S n' =>
      match dot_loop buf vec (h * dim) dim 0 F32.zero with
      | Some dot =>
          hash_loop buf vec dim n' (S h)
            (bits ++ [if F32.ltb F32.zero dot then 1 else 0])
      | None => None
      end
  end.

Definition hash (vec : list F32.t) (table_idx : nat) (st : t) : option (list Z) :=
  match hyperplanes_ st !! table_idx with
  | Some buf =>
      hash_loop buf vec (Z.to_nat (dim_ st)) (Z.to_nat (num_hashes_ st)) 0 []
  | None => None
  end.

(** [table[sig].push_back(i)] *)
Definition push_back (sig : list Z) (i : Z) (table : gmap (list Z) (list Z))
    : gmap (list Z) (list Z) :=
  <[sig := default [] (table !! sig) ++ [i]]> table.

(** The inner loop of [build] for vector [i], with [n] tables left, at
    table [t]. *)
Fixpoint build_tables (st : t) (vec : list F32.t) (i : Z) (n t : nat)
    (tables : list (gmap (list Z) (list Z))) : option (list (gmap (list Z) (list Z))) :=
  match n with
  | O => Some tables
  | S n' =>
      match hash vec t st, tables !! t with
      | Some sig, Some table =>
          build_tables st vec i n' (S t) (<[t := push_back sig i table]> tables)
      | _, _ => None
      end
  end.

(** The outer loop of [build], at vector [i]. *)
Fixpoint build_loop (st : t) (vectors : list (list F32.t)) (i : nat)
    (tables : list (gmap (list Z) (list Z))) : option (list (gmap (list Z) (list Z))) :=
  match vectors with
  | [] => Some tables
  | vec :: vectors' =>
      match build_tables st vec (Z.of_nat i) (Z.to_nat (num_tables_ st)) 0 tables with
      | Some tables' => build_loop st vectors' (S i) tables'
      | None => None
      end
  end.

Definition build (vectors : list (list F32.t)) (st : t) : option t :=
  match build_loop st vectors 0 ((λ _, ∅) <$> tables_ st) with
  | Some tables =>
      Some (mk (dim_ st) (num_tables_ st) (num_hashes_ st) (hyperplanes_ st) tables vectors)
  | None => None
  end.

(** The first loop of [query], with [n] tables left, at table [t]: the
    indices found under the query's signature join the candidate set. *)
Fixpoint candidates_loop (st : t) (q : list F32.t) (n t : nat) (candidates : gset Z)
    : option (gset Z) :=
  match n with
  | O => Some candidates
  | S n' =>
      match hash q t st, tables_ st !! t with
      | Some sig, Some table =>
          candidates_loop st q n' (S t)
            (candidates ∪ list_to_set (default [] (table !! sig)))
      | _, _ => None
      end
  end.

(** The candidate set of [query].  What [query] does with it, ranking the
    candidates by [cosine_sim] with [std::sort] and keeping [k], is not
    modelled: the set is iterated in an unspecified order, and the
    comparison of the pairs is no strict weak order once a similarity is a
    NaN. *)
Definition candidates (q : list F32.t) (st : t) : option (gset Z) :=
  candidates_loop st q (Z.to_nat (num_tables_ st)) 0 ∅.

Definition num_vectors (st : t) : Z := Z.of_nat (length (vectors_ st)).
End RandomHyperplaneLSH.

(** ** lsh.hpp: the distance kernel of EuclideanLSH *)

Module EuclideanLSH.
(** The loop of [l2_squared] at index [i]; [a] is what is left of the first
    vector.  [b[i]] past the end of [b] is an out-of-bounds read. *)
Fixpoint l2_squared_loop (a b : list F32.t) (i : nat) (sum : F32.t) : option F32.t :=
  match a with
  | [] => Some sum
  | ai :: a' =>
      match b !! i with
      | Some bi =>
          let d := F32.sub ai bi in
          l2_squared_loop a' b (S i) (F32.add sum (F32.mul d d))
      | None => None
      end
  end.

Definition l2_squared (a b : list F32.t) : result F32.t :=
  match l2_squared_loop a b 0 F32.zero with
  | Some sum => Ok sum
  | None => Throw out_of_bounds
  end.
End EuclideanLSH.

(** ** distances.cpp *)

Module Distances.
(** [sum += diff * diff].  The language lets a compiler contract the
    product and the sum into one fused multiply-add, which rounds once.
    GCC does so when the target has the instruction, as under the [-mfma]
    of the file's compile line, and cannot for plain x86-64.  [contract]
    says which code was generated. *)
Definition accumulate (contract : bool) (sum diff : F32.t) : F32.t :=
  if contract then F32.fma diff diff sum else F32.add sum (F32.mul diff diff).

(** The loop with [n] iterations left, at index [i].  [x] and [y] are the
    buffers the two pointers point into; a read past the end of one is
    [None]. *)
Fixpoint l2_distance_naive_loop (contract : bool) (x y : list F32.t) (n i : nat)
    (sum : F32.t) : option F32.t :=
  match n with
  | O => Some sum
  | S n' =>
      match x !! i, y !! i with
      | Some xi, Some yi =>
          let diff := F32.sub xi yi in
          l2_distance_naive_loop contract x y n' (S i) (accumulate contract sum diff)
      | _, _ => None
      end
  end.

Definition l2_distance_naive (contract : bool) (x y : list F32.t) (d : Z)
    : option F32.t :=
  l2_distance_naive_loop contract x y (Z.to_nat d) 0 F32.zero.
End Distances.

(** * Specification vocabulary *)

(** The sum a stats loop accumulates, before wrap-around. *)
Definition sum_with {A} (g : A → Z) (l : list A) : Z := foldr (λ x acc, g x + acc) 0 l.

Module StoreSpec.
Import IcebergStore.

(** How many tombstone sets grow when [id] is deleted. *)
Definition fresh_tombstones (id : Z) (st : t) : Z :=
  if has_id id (Segment.records (active_segment_ st))
  then (if decide (id ∈ Segment.deleted (active_segment_ st)) then 0 else 1)
  else Z.of_nat (length (filter (λ seg, id ∉ SealedSegment.deleted seg)
                           (sealed_segments_ st))).

(** The public operations that change the store. *)
Inductive op : Type :=
  | Insert (id : Z) (embedding : list F32.t) (metadata : string)
  | BulkInsert (ids : list Z) (vectors : list F32.t) (count dim : Z)
  | Delete (id : Z)
  | Flush
  | Compact (tombstone_threshold : F32.t).

(** The store after an operation, whether it returned or threw. *)
Definition exec (o : op) (st : t) : t :=
  match o with
  | Insert id embedding metadata => fst (insert id embedding metadata st)
  | BulkInsert ids vectors count dim => fst (bulk_insert ids vectors count dim st)
  | Delete id => fst (delete_vector id st)
  | Flush => fst (flush st)
  | Compact tombstone_threshold => fst (compact tombstone_threshold st)
  end.

Inductive reachable : t → Prop :=
  | reachable_new dim segment_capacity data_dir files :
      reachable (new dim segment_capacity data_dir files)
  | reachable_exec o st : reachable st → reachable (exec o st).

(** The ids of the rows in a sealed segment's file. *)
Definition stored_ids (st : t) (seg : SealedSegment.t) : list Z :=
  match disk_ st !! SealedSegment.filepath seg with
  | Some f => ParquetFile.col_id f
  | None => []
  end.

(** In how many places (rows of sealed files, records of the active
    segment) an id is stored. *)
Definition occurrences (id : Z) (st : t) : nat :=
  (length (filter (λ x, x = id) (VectorRecord.id <$> Segment.records (active_segment_ st)))
   + length (filter (λ x, x = id) (sealed_segments_ st ≫= stored_ids st)))%nat.

(** One sealed segment per id: capacity 1, ids 1 and 2. *)
Definition two_sealed : t :=
  exec (Insert 2 [F32.pow2 0] "")
    (exec (Insert 1 [F32.pow2 0] "") (new 1 1 "/tmp/vectordb" ∅)).

(** One sealed segment of one row, then two deletes of ids it never held. *)
Definition over_tombstoned : t :=
  exec (Delete 3) (exec (Delete 2)
    (exec (Insert 1 [F32.pow2 0] "") (new 1 1 "/tmp/vectordb" ∅))).

Definition nonempty (seg : SealedSegment.t) : Prop := 0 < SealedSegment.num_records seg.

(** The file [write_parquet] produces from [records]. *)
Definition file_of (dim : Z) (records : list VectorRecord.t) : ParquetFile.t :=
  ParquetFile.mk (VectorRecord.id <$> records) (records ≫= VectorRecord.embedding) dim
    (VectorRecord.metadata <$> records).

Definition has_dim (dim : Z) (r : VectorRecord.t) : Prop :=
  Z.of_nat (length (VectorRecord.embedding r)) = dim.

(** The store after a non-empty active segment was sealed. *)
Definition seal (st : t) : t :=
  let a := active_segment_ st in
  let path := segment_path (data_dir_ st) (Segment.segment_id a) in
  let sealed :=
    sealed_segments_ st ++
    [SealedSegment.mk (Segment.segment_id a) path
       (Z.of_nat (length (Segment.records a))) (Segment.deleted a)] in
  mk (dim_ st) (segment_capacity_ st) (data_dir_ st) (next_segment_id_ st + 1)
     (Segment.mk (next_segment_id_ st) [] ∅)
     sealed
     (snapshots_ st ++ [Snapshot.mk (Z.of_nat (length (snapshots_ st)))
                          (SealedSegment.segment_id <$> sealed)])
     (<[path := file_of (dim_ st) (Segment.records a)]> (disk_ st)).

(** The first [n] consecutive blocks of [d] elements. *)
Fixpoint chunks {A} (n d : nat) (buf : list A) : list (list A) :=
  match n with
  | O => []
  | S n' => take d buf :: chunks n' d (drop d buf)
  end.

Definition rows_of (ids : list Z) (vecs : list (list F32.t)) (metas : list string)
    : list VectorRecord.t :=
  zip_with (λ id p, VectorRecord.mk id p.1 p.2) ids (zip vecs metas).

(** The rows of a file: row [i] pairs the [i]-th id with the [i]-th block
    of [dim] floats and the [i]-th metadata string. *)
Definition file_rows (dim : Z) (f : ParquetFile.t) : list VectorRecord.t :=
  rows_of (ParquetFile.col_id f)
    (chunks (length (ParquetFile.col_id f)) (Z.to_nat dim) (ParquetFile.col_embedding f))
    (ParquetFile.col_metadata f).

(** Every row has its block of floats and its metadata string. *)
Definition file_ok (dim : Z) (f : ParquetFile.t) : Prop :=
  (length (ParquetFile.col_id f) * Z.to_nat dim ≤ length (ParquetFile.col_embedding f))%nat
  ∧ (length (ParquetFile.col_id f) ≤ length (ParquetFile.col_metadata f))%nat.

Definition live_in (deleted : gset Z) (r : VectorRecord.t) : Prop :=
  VectorRecord.id r ∉ deleted.

#[export] Instance live_in_dec deleted r : Decision (live_in deleted r).
Proof. unfold live_in. apply _. Defined.

(** The live rows of a sealed segment whose file is [f]. *)
Definition live_rows (dim : Z) (seg : SealedSegment.t) (f : ParquetFile.t)
    : list VectorRecord.t :=
  filter (live_in (SealedSegment.deleted seg)) (file_rows dim f).

Definition stored_in (st : t) (seg : SealedSegment.t) (f : ParquetFile.t) : Prop :=
  disk_ st !! SealedSegment.filepath seg = Some f ∧ file_ok (dim_ st) f.

(** The rows of a sealed segment, read from its file. *)
Definition segment_rows (st : t) (seg : SealedSegment.t) : list VectorRecord.t :=
  match disk_ st !! SealedSegment.filepath seg with
  | Some f => file_rows (dim_ st) f
  | None => []
  end.

Definition segment_live (st : t) (seg : SealedSegment.t) : list VectorRecord.t :=
  filter (live_in (SealedSegment.deleted seg)) (segment_rows st seg).

(** Every stored record, tombstoned or not, in scan order. *)
Definition all_rows (st : t) : list VectorRecord.t :=
  (sealed_segments_ st ≫= segment_rows st) ++ Segment.records (active_segment_ st).

(** The live records, in scan order. *)
Definition live_view (st : t) : list VectorRecord.t :=
  (sealed_segments_ st ≫= segment_live st)
  ++ filter (live_in (Segment.deleted (active_segment_ st)))
       (Segment.records (active_segment_ st)).

(** A sealed segment as the store leaves it: its path is derived from its
    id, and its file holds the [num_records] rows written when it was
    created, each of dimension [dim_]. *)
Definition segment_wf (st : t) (seg : SealedSegment.t) : Prop :=
  SealedSegment.filepath seg = segment_path (data_dir_ st) (SealedSegment.segment_id seg)
  ∧ SealedSegment.segment_id seg < next_segment_id_ st
  ∧ ∃ rows, disk_ st !! SealedSegment.filepath seg = Some (file_of (dim_ st) rows)
            ∧ Forall (has_dim (dim_ st)) rows
            ∧ Z.of_nat (length rows) = SealedSegment.num_records seg.

Record store_wf (st : t) : Prop := mk_wf {
  wf_dim : 0 < dim_ st;
  wf_active : Forall (has_dim (dim_ st)) (Segment.records (active_segment_ st));
  wf_active_id : Segment.segment_id (active_segment_ st) < next_segment_id_ st;
  wf_sealed : Forall (segment_wf st) (sealed_segments_ st);
  wf_ids : NoDup (Segment.segment_id (active_segment_ st)
                  :: (SealedSegment.segment_id <$> sealed_segments_ st)) }.

(** One iteration of an insert loop: append, then seal if full. *)
Definition append (r : VectorRecord.t) : M unit :=
  modify (push_back r) ;; flush_if_full.

(** The records a batch of [ids] and flat [vectors] turns into: all with
    empty metadata. *)
Definition batch_records (ids : list Z) (vectors : list F32.t) (dim : Z)
    : list VectorRecord.t :=
  rows_of ids (chunks (length ids) (Z.to_nat dim) vectors) (replicate (length ids) "").

(** The ratio as the specification words it: [tombstones / num_records]
    in binary32, taken as 0 when [num_records] is 0. *)
Definition ratio (tombstones num_records : Z) : F32.t :=
  if decide (num_records = 0) then F32.zero
  else F32.div (F32.of_size tombstones) (F32.of_size num_records).

(** The ratio of a sealed segment: its tombstones over its rows. *)
Definition ratio_of (seg : SealedSegment.t) : F32.t :=
  ratio (Z.of_nat (size (SealedSegment.deleted seg))) (SealedSegment.num_records seg).

(** The test [seg.tombstone_ratio() >= tombstone_threshold]. *)
Definition qualifies (threshold : F32.t) (seg : SealedSegment.t) : bool :=
  F32.leb threshold (SealedSegment.tombstone_ratio seg).

Definition rewritten (threshold : F32.t) (segs : list SealedSegment.t) :=
  filter (λ seg, qualifies threshold seg = true) segs.
Definition kept (threshold : F32.t) (segs : list SealedSegment.t) :=
  filter (λ seg, qualifies threshold seg = false) segs.

(** Rows of a segment that its tombstones hide. *)
Definition dead_count (st : t) (seg : SealedSegment.t) : Z :=
  SealedSegment.num_records seg - Z.of_nat (length (segment_live st seg)).

(** The files left once the rewritten segments' files were removed. *)
Definition remove_files (paths : list string) (disk : gmap string ParquetFile.t)
    : gmap string ParquetFile.t :=
  fold_left (λ d p, delete p d) paths disk.

(** The segment [compact] writes for the merged rows. *)
Definition merged_segment (st : t) (rows : list VectorRecord.t) : SealedSegment.t :=
  SealedSegment.mk (next_segment_id_ st)
    (segment_path (data_dir_ st) (next_segment_id_ st))
    (Z.of_nat (length rows)) ∅.




(** One [insert] per row, in order, stopping at the first that throws. *)
Definition insert_all (rows : list VectorRecord.t) : M unit :=
  foldr (λ r k, insert (VectorRecord.id r) (VectorRecord.embedding r)
                  (VectorRecord.metadata r) ;; k)
        (ret tt) rows.
End StoreSpec.

Module EngineSpec.
Import StoreSpec.

(** An index that answers with its first node.  For an index that holds one
    vector this is what [search] computes: the entry point is the only
    node, every layer search returns it, and the distance is the square
    root of [distance_sq]. *)
#[local] Instance first_node_graph : HNSWIndex.Graph := {|
  HNSWIndex.Links := unit;
  HNSWIndex.no_links := tt;
  HNSWIndex.link := λ _ _, tt;
  HNSWIndex.neighbours := λ h query k,
    match HNSWIndex.vectors_ h with
    | v :: _ =>
        match HNSWIndex.distance_sq (HNSWIndex.dim_ h) query v with
        | Some d => if 0 <? k then [HNSWIndex.mk_result (F32.sqrt d) 0] else []
        | None => []
        end
    | [] => []
    end |}.

(** A database of dimension 1 holding the single record (7, [0.0], ""). *)
Definition one_record_db : VectorDB.t :=
  fst (VectorDB.insert 7 [F32.zero] "" (VectorDB.new 1 16 200 50 1000 ∅)).

Import VectorDB.

(** Every result pairs a record of [scan_all] with a candidate's
    distance. *)
Definition paired (all : list VectorRecord.t) (hrs : list HNSWIndex.SearchResult)
    (r : VDBSearchResult) : Prop :=
  ∃ rec hr, rec ∈ all ∧ hr ∈ hrs
            ∧ id r = VectorRecord.id rec
            ∧ distance r = HNSWIndex.distance hr
            ∧ metadata r = VectorRecord.metadata rec.

(** The result [search] builds for a candidate: the record at the
    candidate's position in [scan_all]'s result, when there is one. *)
Definition resolve (all_records : list VectorRecord.t) (hr : HNSWIndex.SearchResult)
    : option VDBSearchResult :=
  (λ rec, mk_result (VectorRecord.id rec) (HNSWIndex.distance hr)
            (VectorRecord.metadata rec))
  <$> all_records !! Z.to_nat (HNSWIndex.id hr).

(** Node [i] of the index holds the embedding of the [i]-th stored row. *)
Definition aligned {G : HNSWIndex.Graph} (db : @VectorDB.t G) : Prop :=
  HNSWIndex.vectors_ (@hnsw_ G db) = VectorRecord.embedding <$> all_rows (@store_ G db).

(** The batch built the way [write_parquet] and the tests build one: an id
    column, an embedding column and a metadata column, in this order. *)
Definition built_batch (ids : list Z) (flat_vectors : list F32.t) (dim : Z)
    (metas : list string) : result RecordBatch.t :=
  match RecordBatchBuilder.add_id_column "id" ids RecordBatchBuilder.empty with
  | Throw e => Throw e
  | Ok b1 =>
      match RecordBatchBuilder.add_vector_column "embedding" flat_vectors dim b1 with
      | Throw e => Throw e
      | Ok b2 =>
          match RecordBatchBuilder.add_string_column "metadata" metas b2 with
          | Throw e => Throw e
          | Ok b3 => Ok (RecordBatchBuilder.build b3)
          end
      end
  end.
End EngineSpec.

Module LSHSpec.
Import RandomHyperplaneLSH.

(** The spec's [inner(x, y)]: the sum of the products, taken left to right
    in binary32 from 0. *)
Definition inner (x y : list F32.t) : F32.t :=
  fold_left (λ acc p, F32.add acc (F32.mul p.1 p.2)) (zip x y) F32.zero.

(** The spec's norm [√inner(x, x)]. *)
Definition norm (x : list F32.t) : F32.t := F32.sqrt (inner x x).

Definition dot_step (acc : F32.t) (p : F32.t * F32.t) : F32.t :=
  F32.add acc (F32.mul p.1 p.2).

(** The indices kept under [sig] in table [t]. *)
Definition bucket (tables : list (gmap (list Z) (list Z))) (t : nat) (sig : list Z)
    : list Z :=
  default [] (tables !! t ≫= (λ table, table !! sig)).

(** Vector [i] of [vectors] and the query [q] get the same signature in
    some table. *)
Definition collides (st : t) (vectors : list (list F32.t)) (q : list F32.t) (i : Z)
    : Prop :=
  ∃ (tb : nat) (j : nat) (vec : list F32.t) (sig : list Z),
    (tb < Z.to_nat (num_tables_ st))%nat
    ∧ i = Z.of_nat j
    ∧ vectors !! j = Some vec
    ∧ hash vec tb st = Some sig
    ∧ hash q tb st = Some sig.
End LSHSpec.

(** What the distance kernels are stated with. *)
Module KernelSpec.
(** Neither an infinity nor a NaN. *)
Definition is_finite (x : F32.t) : bool :=
  match x with
  | S754_zero _ | S754_finite _ _ _ => true
  | _ => false
  end.


(** [+0] or [-0]. *)
Definition is_zero (x : F32.t) : bool :=
  match x with
  | S754_zero _ => true
  | _ => false
  end.

(** Not below zero: a zero of either sign, a positive number, [+inf] or a
    NaN. *)
Definition not_negative (x : F32.t) : bool :=
  match x with
  | S754_infinity true | S754_finite true _ _ => false
  | _ => true
  end.

End KernelSpec.

(** Concrete stores, engines and batches for the witnesses. *)
Module Examples.
Import IcebergStore StoreSpec EngineSpec.
#[local] Existing Instance first_node_graph.

Definition one : F32.t := F32.pow2 0.
(** The literal [0.5f]. *)
Definition half : F32.t := F32.pow2 (-1).

Definition row (id : Z) : VectorRecord.t := VectorRecord.mk id [one; one] "".

(** Capacity 3, ids 1 to 4: one sealed segment and one active record. *)
Definition auto_sealed : t :=
  exec (Insert 4 [one; one] "") (exec (Insert 3 [one; one] "")
    (exec (Insert 2 [one; one] "") (exec (Insert 1 [one; one] "")
      (new 2 3 "/tmp/vectordb" ∅)))).

(** Capacity 3, ids 1 and 2: two active records, one short of a seal. *)
Definition two_active : t :=
  exec (Insert 2 [one; one] "") (exec (Insert 1 [one; one] "")
    (new 2 3 "/tmp/vectordb" ∅)).

(** Capacity 3, ids 1 to 6, then ids 1 and 2 deleted: two sealed segments,
    both carrying the tombstones 1 and 2. *)
Definition twice_deleted : t :=
  exec (Delete 2) (exec (Delete 1)
    (exec (Insert 6 [one; one] "") (exec (Insert 5 [one; one] "")
      (exec (Insert 4 [one; one] "") (exec (Insert 3 [one; one] "")
        (exec (Insert 2 [one; one] "") (exec (Insert 1 [one; one] "")
          (new 2 3 "/tmp/vectordb" ∅)))))))).

(** Capacity 3: ids 1 to 3 are sealed, ids 1 and 2 deleted, ids 4 to 6
    sealed, id 4 deleted.  The first sealed segment carries the tombstones
    1, 2 and 4 on three rows, the second the tombstone 4 on three rows. *)
Definition mixed_ratios : t :=
  exec (Delete 4)
    (exec (Insert 6 [one; one] "") (exec (Insert 5 [one; one] "")
      (exec (Insert 4 [one; one] "")
        (exec (Delete 2) (exec (Delete 1)
          (exec (Insert 3 [one; one] "") (exec (Insert 2 [one; one] "")
            (exec (Insert 1 [one; one] "") (new 2 3 "/tmp/vectordb" ∅))))))))).

(** An engine over that store whose index was configured with M = 8,
    ef_construction = 100, ef_search = 20. *)
Definition tuned_db : VectorDB.t :=
  VectorDB.mk 2 twice_deleted (HNSWIndex.new 2 8 100 20).

(** A batch of two rows with a non-empty metadata column. *)
Definition labelled_batch : RecordBatch.t :=
  RecordBatch.mk 2
    [("id", RecordBatch.UInt64Array [10; 11]);
     ("embedding", RecordBatch.FixedSizeListArray 2 [one; one; half; half]);
     ("metadata", RecordBatch.StringArray ["doc_a"; "doc_b"])].

(** [auto_sealed] after its active record, id 4, was deleted. *)
Definition active_tombstone : t := exec (Delete 4) auto_sealed.

(** A store opened with dimension 0 and capacity 1. *)
Definition zero_dim : t := new 0 1 "/tmp/vectordb" ∅.

(** An engine as its constructor leaves it. *)
Definition fresh_db : VectorDB.t := VectorDB.new 2 16 200 50 3 ∅.

(** That engine after four inserts, ids 1 to 4 with four different
    embeddings: capacity 3, so one sealed segment of three rows and one
    active record, and four nodes in the index. *)
Definition indexed_db : VectorDB.t :=
  fst (VectorDB.insert 4 [half; half] "d"
    (fst (VectorDB.insert 3 [half; one] "c"
      (fst (VectorDB.insert 2 [one; half] "b"
        (fst (VectorDB.insert 1 [one; one] "a" fresh_db))))))).

(** One table of one hyperplane, (1, 1), in dimension 2. *)
Definition one_plane : RandomHyperplaneLSH.t :=
  RandomHyperplaneLSH.new 2 1 1 [[one; one]].
End Examples.

(** * Properties *)

(** ** Counting in size_t *)

Lemma size_wrap_idemp z : size_wrap (size_wrap z) = size_wrap z.
Proof. unfold size_wrap. apply Z.mod_mod. lia. Qed.

Lemma size_wrap_add_l a b : size_wrap (size_wrap a + b) = size_wrap (a + b).
Proof. unfold size_wrap. apply Zplus_mod_idemp_l. Qed.

Lemma size_wrap_add_r a b : size_wrap (a + size_wrap b) = size_wrap (a + b).
Proof. unfold size_wrap. apply Zplus_mod_idemp_r. Qed.

Lemma size_wrap_small z : 0 ≤ z < 2 ^ 64 → size_wrap z = z.
Proof. intros. unfold size_wrap. apply Z.mod_small. done. Qed.

Lemma sum_with_app {A} (g : A → Z) l1 l2 :
  sum_with g (l1 ++ l2) = sum_with g l1 + sum_with g l2.
Proof. induction l1 as [|x l1 IH]; simpl; lia. Qed.

Lemma fold_wrap_sum {A} (g : A → Z) (l : list A) (a : Z) :
  size_wrap (fold_left (λ total x, size_wrap (total + g x)) l a)
  = size_wrap (a + sum_with g l).
Proof.
  revert a. induction l as [|x l IH]; intros a; simpl.
  - by rewrite Z.add_0_r.
  - rewrite IH, size_wrap_add_l. f_equal. lia.
Qed.

Lemma fold_wrap_wrapped {A} (g : A → Z) (l : list A) (a : Z) :
  size_wrap a = a →
  size_wrap (fold_left (λ total x, size_wrap (total + g x)) l a)
  = fold_left (λ total x, size_wrap (total + g x)) l a.
Proof.
  revert a. induction l as [|x l IH]; intros a Ha; simpl; [done|].
  apply IH, size_wrap_idemp.
Qed.

Module StoreFacts.
Import IcebergStore StoreSpec.

(** *** delete_vector *)

Lemma has_id_elem_of id records :
  has_id id records = true ↔ id ∈ VectorRecord.id <$> records.
Proof.
  induction records as [|r records IH]; simpl.
  - split; [done|]. intros ?%elem_of_nil. done.
  - rewrite elem_of_cons.
    destruct (Z.eqb_spec (VectorRecord.id r) id) as [Heq|Hne].
    + split; [by left|done].
    + rewrite IH. split; [by right|]. intros [Heq|Hin]; [congruence|done].
Qed.

(** C2.  [delete_vector id] tombstones [id] in the active segment alone when
    one of its records carries the id, and in every sealed segment alone
    otherwise; no segment's records, row count, file or identity changes. *)
Theorem delete_vector_frame (id : Z) (st : t) :
  let st' := fst (delete_vector id st) in
  let a := active_segment_ st in
  let a' := active_segment_ st' in
  snd (delete_vector id st) = Ok tt
  ∧ (if decide (id ∈ VectorRecord.id <$> Segment.records a)
     then Segment.deleted a' = {[id]} ∪ Segment.deleted a
          ∧ SealedSegment.deleted <$> sealed_segments_ st'
            = SealedSegment.deleted <$> sealed_segments_ st
     else SealedSegment.deleted <$> sealed_segments_ st'
            = (λ seg, {[id]} ∪ SealedSegment.deleted seg) <$> sealed_segments_ st
          ∧ Segment.deleted a' = Segment.deleted a)
  ∧ Segment.records a' = Segment.records a
  ∧ Segment.segment_id a' = Segment.segment_id a
  ∧ SealedSegment.num_records <$> sealed_segments_ st'
    = SealedSegment.num_records <$> sealed_segments_ st
  ∧ SealedSegment.filepath <$> sealed_segments_ st'
    = SealedSegment.filepath <$> sealed_segments_ st
  ∧ SealedSegment.segment_id <$> sealed_segments_ st'
    = SealedSegment.segment_id <$> sealed_segments_ st
  ∧ disk_ st' = disk_ st.
Proof.
  unfold delete_vector, modify; simpl.
  split; [done|].
  case_decide as Hin.
  - apply has_id_elem_of in Hin. rewrite Hin. simpl. done.
  - rewrite <- has_id_elem_of in Hin. apply not_true_is_false in Hin.
    rewrite Hin. simpl. rewrite <- !list_fmap_compose. done.
Qed.

(** *** The totals *)

Lemma sum_with_wrap {A} (g : A → Z) (l : list A) (a : Z) :
  size_wrap (a + sum_with (λ x, size_wrap (g x)) l) = size_wrap (a + sum_with g l).
Proof.
  revert a. induction l as [|x l IH]; intros a; simpl; [done|].
  rewrite !Z.add_assoc, IH.
  replace (a + size_wrap (g x) + sum_with g l) with ((a + sum_with g l) + size_wrap (g x)) by lia.
  rewrite size_wrap_add_r. f_equal. lia.
Qed.
(** [total_live_records] is the sum of the records minus the tombstones,
    modulo 2^64. *)
Lemma total_live_records_eq st :
  total_live_records st
  = size_wrap (Z.of_nat (length (Segment.records (active_segment_ st)))
               - Z.of_nat (size (Segment.deleted (active_segment_ st)))
               + sum_with (λ seg, SealedSegment.num_records seg
                                  - Z.of_nat (size (SealedSegment.deleted seg)))
                   (sealed_segments_ st)).
Proof.
  unfold total_live_records.
  rewrite <- fold_wrap_wrapped by apply size_wrap_idemp.
  rewrite fold_wrap_sum. unfold Segment.live_count. rewrite size_wrap_add_l.
  apply (sum_with_wrap (λ seg, SealedSegment.num_records seg
                               - Z.of_nat (size (SealedSegment.deleted seg)))).
Qed.

Lemma size_wrap_sub_l a b : size_wrap (size_wrap a - b) = size_wrap (a - b).
Proof. unfold size_wrap. apply Zminus_mod_idemp_l. Qed.

Lemma sum_with_cons {A} (g : A → Z) x l : sum_with g (x :: l) = g x + sum_with g l.
Proof. done. Qed.

Lemma size_add_tombstone (id : Z) (d : gset Z) :
  Z.of_nat (size ({[id]} ∪ d)) = Z.of_nat (size d) + (if decide (id ∈ d) then 0 else 1).
Proof.
  case_decide as Hin.
  - rewrite (subseteq_union_1_L {[id]} d); [lia|]. by apply singleton_subseteq_l.
  - rewrite size_union by (by apply disjoint_singleton_l).
    rewrite size_singleton. lia.
Qed.

Lemma sum_tombstone id l :
  sum_with (λ seg, SealedSegment.num_records seg
                   - Z.of_nat (size (SealedSegment.deleted seg))) (tombstone id <$> l)
  = sum_with (λ seg, SealedSegment.num_records seg
                     - Z.of_nat (size (SealedSegment.deleted seg))) l
    - Z.of_nat (length (filter (λ seg, id ∉ SealedSegment.deleted seg) l)).
Proof.
  induction l as [|seg l IH]; [done|].
  rewrite fmap_cons, !sum_with_cons, IH, filter_cons. simpl.
  rewrite size_add_tombstone.
  destruct (decide (id ∈ SealedSegment.deleted seg)), (decide (id ∉ SealedSegment.deleted seg));
    try done; simpl; lia.
Qed.

Lemma fresh_tombstones_bound id st :
  0 ≤ fresh_tombstones id st
  ∧ fresh_tombstones id st
    ≤ (if has_id id (Segment.records (active_segment_ st)) then 1
       else sealed_segment_count st).
Proof.
  unfold fresh_tombstones, sealed_segment_count.
  destruct (has_id _ _).
  - case_decide; lia.
  - pose proof (length_filter (λ seg, id ∉ SealedSegment.deleted seg) (sealed_segments_ st)).
    lia.
Qed.

(** C3, as amended.  [delete_vector id] leaves [total_records] unchanged and
    lowers [total_live_records], modulo 2^64, by one for every tombstone set
    that gains [id]: at most 1 when the active segment holds the id, and at
    most [sealed_segment_count] otherwise. *)
Theorem delete_vector_totals (id : Z) (st : t) :
  let st' := fst (delete_vector id st) in
  total_records st' = total_records st
  ∧ total_live_records st'
    = size_wrap (total_live_records st - fresh_tombstones id st)
  ∧ 0 ≤ fresh_tombstones id st
  ∧ fresh_tombstones id st
    ≤ (if decide (id ∈ VectorRecord.id <$> Segment.records (active_segment_ st))
       then 1 else sealed_segment_count st).
Proof.
  simpl. split; [|split].
  - unfold delete_vector, modify, total_records; simpl.
    destruct (has_id _ _); simpl; [done|].
    generalize (Z.of_nat (length (Segment.records (active_segment_ st)))).
    induction (sealed_segments_ st) as [|seg l IH]; intros a; simpl; [done|]. apply IH.
  - rewrite !total_live_records_eq, size_wrap_sub_l.
    unfold fresh_tombstones, delete_vector, modify; simpl.
    destruct (has_id _ _); simpl; f_equal.
    + rewrite size_add_tombstone. case_decide; lia.
    + rewrite sum_tombstone. lia.
  - pose proof (fresh_tombstones_bound id st) as [H0 H1]. split; [done|].
    case_decide as Hin.
    + apply has_id_elem_of in Hin. by rewrite Hin in H1.
    + rewrite <- has_id_elem_of in Hin. apply not_true_is_false in Hin. by rewrite Hin in H1.
Qed.

(** *** Reachable states *)

Lemma reachable_two_sealed : reachable two_sealed.
Proof. unfold two_sealed. repeat constructor. Qed.

(** C3, as stated, fails: id 1 is stored once, in the first of two sealed
    segments, and deleting it lowers [total_live_records] from 2 to 0. *)
Lemma delete_vector_single_place_counterexample :
  ¬ (∀ (st : t) (id : Z),
       reachable st → occurrences id st = 1%nat →
       let st' := fst (delete_vector id st) in
       total_records st' = total_records st
       ∧ total_live_records st - 1 ≤ total_live_records st'
       ∧ total_live_records st' ≤ total_live_records st).
Proof.
  intros Hclaim.
  destruct (Hclaim two_sealed 1 reachable_two_sealed eq_refl) as (_ & Hdrop & _).
  vm_compute in Hdrop. by apply Hdrop.
Qed.

Lemma reachable_over_tombstoned : reachable over_tombstoned.
Proof. unfold over_tombstoned. repeat constructor. Qed.

(** C4, as stated, fails: the segment has one row and two tombstones. *)
Lemma sealed_tombstone_bound_counterexample :
  ¬ (∀ st : t,
       reachable st →
       Forall (λ seg, 0 < SealedSegment.num_records seg
                      ∧ Z.of_nat (size (SealedSegment.deleted seg))
                        ≤ SealedSegment.num_records seg)
              (sealed_segments_ st)).
Proof.
  intros Hclaim. pose proof (Hclaim over_tombstoned reachable_over_tombstoned) as Hall.
  vm_compute in Hall. apply Forall_cons in Hall as [[_ Hle] _].
  by apply Hle.
Qed.

(** *** Sealed segments are never empty *)

Lemma commit_snapshot_sealed st :
  sealed_segments_ (fst (commit_snapshot st)) = sealed_segments_ st.
Proof. done. Qed.

Lemma write_parquet_sealed path records st :
  sealed_segments_ (fst (write_parquet path records st)) = sealed_segments_ st.
Proof.
  unfold write_parquet. destruct (columns records) as [[ids flat] metas].
  by destruct (_ || _).
Qed.

Lemma flush_nonempty st :
  Forall nonempty (sealed_segments_ st) →
  Forall nonempty (sealed_segments_ (fst (flush_active_segment_locked st))).
Proof.
  intros Hall. unfold flush_active_segment_locked.
  destruct (Segment.records (active_segment_ st)) as [|r records] eqn:Hrec; [done|].
  unfold bind. pose proof (write_parquet_sealed
    (segment_path (data_dir_ st) (Segment.segment_id (active_segment_ st)))
    (r :: records) st) as Hw.
  destruct (write_parquet _ _ st) as [st1 [[]|e]]; simpl in *; [|by rewrite Hw].
  rewrite Hw. apply Forall_app. split; [done|].
  apply Forall_singleton. unfold nonempty; simpl. lia.
Qed.

Lemma flush_if_full_nonempty st :
  Forall nonempty (sealed_segments_ st) →
  Forall nonempty (sealed_segments_ (fst (flush_if_full st))).
Proof.
  intros Hall. unfold flush_if_full. destruct (_ <=? _); [|done].
  by apply flush_nonempty.
Qed.

Lemma bulk_insert_loop_nonempty ids vectors dim n i st :
  Forall nonempty (sealed_segments_ st) →
  Forall nonempty (sealed_segments_ (fst (bulk_insert_loop ids vectors dim n i st))).
Proof.
  revert i st. induction n as [|n IH]; intros i st Hall; simpl; [done|].
  destruct (slice vectors i dim) as [emb|]; [|done].
  destruct (ids !! i) as [id|]; [|done].
  unfold bind, modify.
  pose proof (flush_if_full_nonempty (push_back (VectorRecord.mk id emb "") st) Hall) as Hf.
  destruct (flush_if_full _) as [st1 [[]|e]]; simpl in *; [|done].
  by apply IH.
Qed.

Lemma compact_loop_nonempty threshold segs j loc st :
  Forall nonempty segs →
  Forall nonempty (clean loc) →
  Forall nonempty (sealed_segments_ st) →
  Forall nonempty (sealed_segments_ (fst (compact_loop threshold segs j loc st)))
  ∧ ∀ loc', snd (compact_loop threshold segs j loc st) = Ok loc' →
            Forall nonempty (clean loc').
Proof.
  revert j loc st. induction segs as [|seg segs IH]; intros j loc st Hsegs Hclean Hall; simpl.
  - split; [done|]. by intros loc' [= <-].
  - apply Forall_cons in Hsegs as [Hseg Hsegs].
    destruct (F32.leb _ _); unfold bind, lift, modify.
    + destruct (read_parquet _ _ st) as [records|e]; simpl.
      * by apply IH.
      * split; [done|]. by intros loc' [=].
    + apply IH; simpl; [done| |].
      * apply Forall_app. split; [done|]. by apply Forall_singleton.
      * by apply Forall_insert.
Qed.

Lemma compact_nonempty threshold st :
  Forall nonempty (sealed_segments_ st) →
  Forall nonempty (sealed_segments_ (fst (compact threshold st))).
Proof.
  intros Hall. unfold compact, bind at 1, get.
  unfold bind at 1.
  pose proof (compact_loop_nonempty threshold (sealed_segments_ st) 0
                (mk_locals [] [] 0) st Hall (Forall_nil_2 _) Hall) as [Hst Hloc].
  destruct (compact_loop _ _ _ _ st) as [st1 [loc|e]]; simpl in *; [|done].
  specialize (Hloc loc eq_refl).
  destruct (to_merge loc) as [|r rs] eqn:Hmerge.
  - unfold bind, ret, modify; simpl. done.
  - unfold bind, get, modify, ret; simpl.
    pose proof (write_parquet_sealed
      (segment_path (data_dir_ st1) (next_segment_id_ st1)) (r :: rs)
      (set_next_segment_id (next_segment_id_ st1 + 1) st1)) as Hw.
    destruct (write_parquet _ _ _) as [st2 [[]|e]]; simpl in *; [|by rewrite Hw].
    apply Forall_app. split; [done|].
    apply Forall_singleton. unfold nonempty; simpl. lia.
Qed.

(** C4, as amended.  In every state reachable from [new] by the public
    operations, every sealed segment has [num_records > 0]. *)
Theorem reachable_sealed_nonempty (st : t) :
  reachable st →
  Forall (λ seg, 0 < SealedSegment.num_records seg) (sealed_segments_ st).
Proof.
  induction 1 as [dim cap dir files|o st Hreach IH]; [by constructor|].
  change (Forall nonempty (sealed_segments_ st)) in IH.
  change (Forall nonempty (sealed_segments_ (exec o st))).
  destruct o as [id emb meta|ids vectors count dim|id| |threshold]; simpl.
  - unfold insert. destruct (negb _); [done|].
    unfold bind, modify. apply (flush_if_full_nonempty (push_back _ st)). done.
  - unfold bulk_insert. destruct (negb _); [done|].
    by apply bulk_insert_loop_nonempty.
  - unfold delete_vector, modify; simpl. destruct (has_id _ _); simpl; [done|].
    apply Forall_fmap. eapply Forall_impl; [exact IH|]. done.
  - by apply flush_nonempty.
  - by apply compact_nonempty.
Qed.

Lemma reachable_sealed_nonempty_witness :
  reachable over_tombstoned
  ∧ Forall (λ seg, 0 < SealedSegment.num_records seg) (sealed_segments_ over_tombstoned).
Proof.
  split; [exact reachable_over_tombstoned|].
  apply (reachable_sealed_nonempty over_tombstoned). exact reachable_over_tombstoned.
Defined.

(** *** insert *)

Lemma columns_acc records ids flat metas :
  fold_left (λ '(ids, flat_vectors, metas) r,
               (ids ++ [VectorRecord.id r],
                flat_vectors ++ VectorRecord.embedding r,
                metas ++ [VectorRecord.metadata r]))
            records (ids, flat, metas)
  = (ids ++ (VectorRecord.id <$> records),
     flat ++ (records ≫= VectorRecord.embedding),
     metas ++ (VectorRecord.metadata <$> records)).
Proof.
  revert ids flat metas. induction records as [|r records IH]; intros ids flat metas; simpl.
  - by rewrite !app_nil_r.
  - rewrite IH, <- !app_assoc. done.
Qed.

Lemma columns_eq records :
  columns records
  = (VectorRecord.id <$> records, records ≫= VectorRecord.embedding,
     VectorRecord.metadata <$> records).
Proof. unfold columns. by rewrite columns_acc. Qed.

Lemma length_flat dim records :
  Forall (has_dim dim) records →
  Z.of_nat (length (records ≫= VectorRecord.embedding))
  = Z.of_nat (length records) * dim.
Proof.
  induction 1 as [|r records Hr _ IH]; [done|].
  rewrite bind_cons, length_app, Nat2Z.inj_add, IH, length_cons. unfold has_dim in Hr. lia.
Qed.

Lemma write_parquet_ok path records st :
  0 < dim_ st → Forall (has_dim (dim_ st)) records →
  write_parquet path records st
  = (set_disk (<[path := file_of (dim_ st) records]> (disk_ st)) st, Ok tt).
Proof.
  intros Hdim Hrec. unfold write_parquet. rewrite columns_eq. cbv beta iota zeta.
  rewrite (length_flat _ _ Hrec), Z_mod_mult.
  destruct (Z.eqb_spec (dim_ st) 0); [lia|]. done.
Qed.

Lemma write_parquet_cases path records st :
  write_parquet path records st
  = (set_disk (<[path := file_of (dim_ st) records]> (disk_ st)) st, Ok tt)
  ∨ write_parquet path records st
    = (st, Throw (invalid_argument "flat_vectors.size() must be divisible by dim")).
Proof.
  unfold write_parquet. rewrite columns_eq. cbv beta iota zeta.
  destruct (_ || _); [by right|by left].
Qed.

Lemma flush_cases st :
  Segment.records (active_segment_ st) ≠ [] →
  flush_active_segment_locked st = (seal st, Ok tt)
  ∨ flush_active_segment_locked st
    = (st, Throw (invalid_argument "flat_vectors.size() must be divisible by dim")).
Proof.
  intros Hne. unfold flush_active_segment_locked.
  destruct (Segment.records (active_segment_ st)) as [|r0 rs] eqn:Hrec; [done|].
  rewrite <- Hrec. clear Hrec. unfold bind.
  destruct (write_parquet_cases
    (segment_path (data_dir_ st) (Segment.segment_id (active_segment_ st)))
    (Segment.records (active_segment_ st)) st) as [-> | ->]; [left|right]; done.
Qed.

Lemma flush_ok st :
  0 < dim_ st → Forall (has_dim (dim_ st)) (Segment.records (active_segment_ st)) →
  Segment.records (active_segment_ st) ≠ [] →
  flush_active_segment_locked st = (seal st, Ok tt).
Proof.
  intros Hdim Hrec Hne. unfold flush_active_segment_locked.
  destruct (Segment.records (active_segment_ st)) as [|r0 rs] eqn:Hrec'; [done|].
  rewrite <- Hrec' in *. unfold bind. rewrite write_parquet_ok by done. done.
Qed.

Lemma push_back_records r st :
  Segment.records (active_segment_ (push_back r st)) ≠ [].
Proof. simpl. by destruct (Segment.records (active_segment_ st)). Qed.

Lemma flush_after_push_cases r st :
  flush_active_segment_locked (push_back r st) = (seal (push_back r st), Ok tt)
  ∨ flush_active_segment_locked (push_back r st)
    = (push_back r st, Throw (invalid_argument "flat_vectors.size() must be divisible by dim")).
Proof. apply flush_cases, push_back_records. Qed.

Lemma flush_after_push_ok r st :
  0 < dim_ st → Forall (has_dim (dim_ st)) (Segment.records (active_segment_ st)) →
  has_dim (dim_ st) r →
  flush_active_segment_locked (push_back r st) = (seal (push_back r st), Ok tt).
Proof.
  intros Hdim Hrec Hr. apply flush_ok; [done| |apply push_back_records].
  simpl. apply Forall_app. split; [done|]. by apply Forall_singleton.
Qed.

(** How [insert] runs, in terms of its two steps. *)
Lemma insert_run (id : Z) (embedding : list F32.t) (metadata : string) (st : t) :
  let r := VectorRecord.mk id embedding metadata in
  let st' := fst (insert id embedding metadata st) in
  let res := snd (insert id embedding metadata st) in
  let full := segment_capacity_ st
              ≤ Z.of_nat (length (Segment.records (active_segment_ st))) + 1 in
  (res = Throw (invalid_argument "Dimension mismatch")
     ↔ Z.of_nat (length embedding) ≠ dim_ st)
  ∧ (res = Throw (invalid_argument "Dimension mismatch") → st' = st)
  ∧ (res = Ok tt →
       (if decide full then st' = seal (push_back r st) else st' = push_back r st)
       ∧ (sealed_segment_count st' = sealed_segment_count st + 1 ↔ full))
  ∧ (Z.of_nat (length embedding) = dim_ st → 0 < dim_ st →
     Forall (has_dim (dim_ st)) (Segment.records (active_segment_ st)) →
     res = Ok tt).
Proof.
  simpl. unfold insert.
  destruct (Z.eqb_spec (Z.of_nat (length embedding)) (dim_ st)) as [Hlen|Hlen]; simpl.
  2:{ split; [done|]. split; [done|]. split; [done|]. by intros []%Hlen. }
  unfold bind, modify, flush_if_full. simpl (segment_capacity_ _).
  replace (Z.of_nat (length (Segment.records
             (active_segment_ (push_back (VectorRecord.mk id embedding metadata) st)))))
    with (Z.of_nat (length (Segment.records (active_segment_ st))) + 1)
    by (simpl; rewrite length_app, Nat2Z.inj_add; done).
  destruct (segment_capacity_ st <=? _) eqn:Hfull;
    [apply Z.leb_le in Hfull|apply Z.leb_gt in Hfull].
  - destruct (flush_after_push_cases (VectorRecord.mk id embedding metadata) st)
      as [Hf|Hf]; rewrite Hf; simpl.
    + split; [split; [done|by intros []]|]. split; [done|]. split; [|done].
      intros _. split; [case_decide; [done|lia]|].
      unfold sealed_segment_count, seal; simpl.
      rewrite length_app, Nat2Z.inj_add. done.
    + split; [split; [done|by intros []]|]. split; [done|]. split; [done|].
      intros _ Hdim Hrec. rewrite flush_after_push_ok in Hf; done.
  - simpl. split; [split; [done|by intros []]|]. split; [done|]. split; [|done].
    intros _. split; [case_decide; [lia|done]|].
    unfold sealed_segment_count, push_back; simpl. lia.
Qed.

(** C6.  [insert] throws "Dimension mismatch" exactly when the embedding's
    length differs from [dim_], and then the store is unchanged.  When it
    returns, the record (id, embedding, metadata) was appended to the
    records of the active segment and nothing else had changed by then;
    the active segment was sealed exactly when its record count, the new
    record included, had reached [segment_capacity_].  Without a seal the
    active segment holds its old records followed by the new one.  With a
    seal the active segment is a new, empty one, and the file of the
    sealed segment holds the old records followed by the new one.  It
    returns whenever the dimension matches, is positive, and is that of
    the active records. *)
Theorem insert_spec (id : Z) (embedding : list F32.t) (metadata : string) (st : t) :
  let r := VectorRecord.mk id embedding metadata in
  let st' := fst (insert id embedding metadata st) in
  let res := snd (insert id embedding metadata st) in
  let a := active_segment_ st in
  let records := Segment.records a ++ [r] in
  let appended :=
    mk (dim_ st) (segment_capacity_ st) (data_dir_ st) (next_segment_id_ st)
       (Segment.mk (Segment.segment_id a) records (Segment.deleted a))
       (sealed_segments_ st) (snapshots_ st) (disk_ st) in
  let full := segment_capacity_ st ≤ Z.of_nat (length records) in
  (res = Throw (invalid_argument "Dimension mismatch")
     ↔ Z.of_nat (length embedding) ≠ dim_ st)
  ∧ (res = Throw (invalid_argument "Dimension mismatch") → st' = st)
  ∧ (res = Ok tt →
       (if decide full then st' = seal appended else st' = appended)
       ∧ Segment.records (active_segment_ st') = (if decide full then [] else records)
       ∧ (full →
          active_segment_ st' = Segment.mk (next_segment_id_ st) [] ∅
          ∧ sealed_segments_ st'
            = sealed_segments_ st
              ++ [SealedSegment.mk (Segment.segment_id a)
                    (segment_path (data_dir_ st) (Segment.segment_id a))
                    (Z.of_nat (length records)) (Segment.deleted a)]
          ∧ disk_ st' !! segment_path (data_dir_ st) (Segment.segment_id a)
            = Some (ParquetFile.mk (VectorRecord.id <$> records)
                      (records ≫= VectorRecord.embedding) (dim_ st)
                      (VectorRecord.metadata <$> records)))
       ∧ (sealed_segment_count st' = sealed_segment_count st + 1 ↔ full))
  ∧ (Z.of_nat (length embedding) = dim_ st → 0 < dim_ st →
     Forall (has_dim (dim_ st)) (Segment.records (active_segment_ st)) →
     res = Ok tt).
Proof.
  intros r st' res a records appended full.
  assert (full ↔ segment_capacity_ st
                 ≤ Z.of_nat (length (Segment.records (active_segment_ st))) + 1) as Hfull.
  { unfold full, records, a. rewrite length_app, Nat2Z.inj_add. done. }
  destruct (insert_run id embedding metadata st) as (Hthrow & Hsame & Hok & Hret).
  fold r st' res in Hthrow, Hsame, Hok, Hret.
  change (push_back r st) with appended in Hok.
  split; [exact Hthrow|]. split; [exact Hsame|]. split; [|exact Hret].
  intros Hres. destruct (Hok Hres) as [Hst' Hcount].
  rewrite <- Hfull in Hcount.
  destruct (decide full) as [Hf|Hf].
  - rewrite decide_True in Hst' by (by apply Hfull).
    split; [exact Hst'|]. split; [by rewrite Hst'|]. split; [|exact Hcount].
    intros _. rewrite Hst'. split; [done|]. split; [done|].
    unfold seal. cbn [disk_]. by rewrite lookup_insert_eq.
  - rewrite decide_False in Hst' by (by rewrite <- Hfull).
    split; [exact Hst'|]. split; [by rewrite Hst'|]. split; [done|exact Hcount].
Qed.

(** *** Files and their rows *)

Lemma read_rows_spec dim f deleted ids i res :
  ((i + length ids) * Z.to_nat dim ≤ length (ParquetFile.col_embedding f))%nat →
  (i + length ids ≤ length (ParquetFile.col_metadata f))%nat →
  read_rows dim f deleted ids i res
  = Ok (res ++ filter (live_in deleted)
          (rows_of ids
             (chunks (length ids) (Z.to_nat dim)
                (drop (i * Z.to_nat dim) (ParquetFile.col_embedding f)))
             (drop i (ParquetFile.col_metadata f)))).
Proof.
  revert i res. induction ids as [|id ids IH]; intros i res Hflat Hmeta; simpl.
  - by rewrite app_nil_r.
  - rewrite length_cons in Hflat, Hmeta.
    assert (is_Some (ParquetFile.col_metadata f !! i)) as [meta Hm]
      by (apply lookup_lt_is_Some_2; lia).
    rewrite (drop_S _ _ _ Hm), drop_drop.
    replace (i * Z.to_nat dim + Z.to_nat dim)%nat with (S i * Z.to_nat dim)%nat by lia.
    unfold rows_of; simpl. fold (rows_of ids).
    replace (i + S (length ids))%nat with (S i + length ids)%nat in Hflat, Hmeta by lia.
    assert (S i * Z.to_nat dim ≤ (S i + length ids) * Z.to_nat dim)%nat as Hi
      by (apply Nat.mul_le_mono_r; lia).
    rewrite filter_cons. unfold live_in at 1; simpl.
    destruct (decide (id ∈ deleted)) as [Hin|Hin].
    + rewrite decide_False by (by intros []). by apply IH.
    + unfold slice. rewrite !decide_True by (done || lia). rewrite Hm, IH by done.
      by rewrite <- app_assoc.
Qed.

Lemma read_parquet_spec path deleted st f :
  disk_ st !! path = Some f → file_ok (dim_ st) f →
  read_parquet path deleted st = Ok (filter (live_in deleted) (file_rows (dim_ st) f)).
Proof.
  intros Hf [Hflat Hmeta]. unfold read_parquet. rewrite Hf.
  rewrite read_rows_spec by (simpl; lia). done.
Qed.

Lemma scan_active_spec deleted records res :
  scan_active deleted records res = res ++ filter (live_in deleted) records.
Proof.
  revert res. induction records as [|r records IH]; intros res; simpl.
  - by rewrite app_nil_r.
  - rewrite filter_cons. unfold live_in at 2.
    destruct (decide (VectorRecord.id r ∈ deleted)).
    + rewrite decide_False by (by intros []). apply IH.
    + rewrite decide_True by done. rewrite IH. by rewrite <- app_assoc.
Qed.

Lemma scan_sealed_spec segs files res st :
  Forall2 (stored_in st) segs files →
  scan_sealed segs res st
  = Ok (res ++ concat (zip_with (live_rows (dim_ st)) segs files)).
Proof.
  intros Hall. revert res.
  induction Hall as [|seg f segs files [Hf Hok] _ IH]; intros res; simpl.
  - by rewrite app_nil_r.
  - rewrite (read_parquet_spec _ _ _ _ Hf Hok), IH. by rewrite <- app_assoc.
Qed.

(** C1.  When every sealed segment's file is on disk, [scan_all] returns,
    for each sealed segment in the order of [sealed_segments_] (the order of
    sealing), the rows of its file whose id is not in its tombstone set,
    followed by the active records, in insertion order, whose id is not in
    the active tombstone set. *)
Theorem scan_all_live_records (st : t) (files : list ParquetFile.t) :
  Forall2 (stored_in st) (sealed_segments_ st) files →
  scan_all st
  = Ok (concat (zip_with
                  (λ seg f, filter (λ r, VectorRecord.id r ∉ SealedSegment.deleted seg)
                              (file_rows (dim_ st) f))
                  (sealed_segments_ st) files)
        ++ filter (λ r, VectorRecord.id r ∉ Segment.deleted (active_segment_ st))
             (Segment.records (active_segment_ st))).
Proof.
  intros Hall. unfold scan_all.
  rewrite (scan_sealed_spec _ _ _ _ Hall), scan_active_spec. done.
Qed.

(** *** Segment paths *)

Lemma string_length_app (s1 s2 : string) :
  String.length (s1 +:+ s2) = (String.length s1 + String.length s2)%nat.
Proof.
  induction s1 as [|a s1 IH]; [done|].
  change (S (String.length (s1 +:+ s2)) = S (String.length s1 + String.length s2)).
  by rewrite IH.
Qed.

Lemma string_app_inj_r (s1 s2 t : string) : s1 +:+ t = s2 +:+ t → s1 = s2.
Proof.
  revert s2. induction s1 as [|a s1 IH]; intros [|b s2] Heq; [done| | |].
  - apply (f_equal String.length) in Heq.
    rewrite (string_length_app (String b s2)) in Heq.
    change (String.length ("" +:+ t)) with (String.length t) in Heq.
    change (String.length (String b s2)) with (S (String.length s2)) in Heq. lia.
  - apply (f_equal String.length) in Heq.
    rewrite (string_length_app (String a s1)) in Heq.
    change (String.length ("" +:+ t)) with (String.length t) in Heq.
    change (String.length (String a s1)) with (S (String.length s1)) in Heq. lia.
  - change (String a (s1 +:+ t) = String b (s2 +:+ t)) in Heq.
    injection Heq as -> Heq. f_equal. by apply IH.
Qed.

Lemma segment_path_inj data_dir (a b : Z) :
  segment_path data_dir a = segment_path data_dir b → a = b.
Proof.
  unfold segment_path. intros Heq.
  apply (inj (String.app data_dir)) in Heq.
  apply (inj (String.app "/segment_")) in Heq.
  apply string_app_inj_r in Heq. by apply (inj pretty) in Heq.
Qed.

(** *** Writing rows and reading them back *)

Lemma chunks_flat dim (records : list VectorRecord.t) :
  Forall (has_dim dim) records →
  chunks (length records) (Z.to_nat dim) (records ≫= VectorRecord.embedding)
  = VectorRecord.embedding <$> records.
Proof.
  induction 1 as [|r records Hr _ IH]; [done|].
  rewrite bind_cons, fmap_cons. simpl.
  assert (Z.to_nat dim = length (VectorRecord.embedding r)) as ->
    by (unfold has_dim in Hr; lia).
  rewrite take_app_length, drop_app_length.
  f_equal. rewrite <- IH. f_equal. unfold has_dim in Hr. lia.
Qed.

Lemma rows_of_columns (records : list VectorRecord.t) :
  rows_of (VectorRecord.id <$> records) (VectorRecord.embedding <$> records)
    (VectorRecord.metadata <$> records) = records.
Proof.
  induction records as [|[id emb meta] records IH]; [done|].
  unfold rows_of in *. rewrite !fmap_cons. cbn [zip_with fst snd].
  f_equal. exact IH.
Qed.

Lemma file_rows_file_of dim records :
  Forall (has_dim dim) records → file_rows dim (file_of dim records) = records.
Proof.
  intros Hrec. unfold file_rows, file_of; simpl.
  rewrite length_fmap, (chunks_flat _ _ Hrec). apply rows_of_columns.
Qed.

Lemma file_ok_file_of dim records :
  0 ≤ dim → Forall (has_dim dim) records → file_ok dim (file_of dim records).
Proof.
  intros Hdim Hrec. unfold file_ok, file_of; simpl. rewrite !length_fmap.
  split; [|done]. pose proof (length_flat _ _ Hrec) as Hlen. nia.
Qed.

(** *** Well-formed stores *)

Lemma new_wf dim segment_capacity data_dir files :
  0 < dim → store_wf (new dim segment_capacity data_dir files).
Proof.
  intros Hdim. split; simpl; [done|by constructor|lia|by constructor|].
  apply NoDup_singleton.
Qed.

Lemma segment_wf_rows st seg :
  segment_wf st seg →
  ∃ rows, disk_ st !! SealedSegment.filepath seg = Some (file_of (dim_ st) rows)
          ∧ segment_rows st seg = rows
          ∧ Forall (has_dim (dim_ st)) rows
          ∧ Z.of_nat (length rows) = SealedSegment.num_records seg.
Proof.
  intros (_ & _ & rows & Hf & Hrows & Hlen). exists rows.
  unfold segment_rows. rewrite Hf, file_rows_file_of by done. done.
Qed.

Lemma scan_sealed_wf segs res st :
  0 < dim_ st → Forall (segment_wf st) segs →
  scan_sealed segs res st = Ok (res ++ (segs ≫= segment_live st)).
Proof.
  intros Hdim Hall. revert res.
  induction Hall as [|seg segs Hseg _ IH]; intros res.
  - simpl. by rewrite app_nil_r.
  - destruct (segment_wf_rows _ _ Hseg) as (rows & Hf & Hrows & Hdims & _).
    rewrite bind_cons. cbn [scan_sealed].
    rewrite (read_parquet_spec _ _ _ _ Hf) by (apply file_ok_file_of; [lia|done]).
    rewrite IH, <- app_assoc. unfold segment_live at 2.
    by rewrite Hrows, file_rows_file_of.
Qed.

Lemma scan_all_wf st : store_wf st → scan_all st = Ok (live_view st).
Proof.
  intros [Hdim _ _ Hsealed _]. unfold scan_all.
  rewrite (scan_sealed_wf _ _ _ Hdim Hsealed), scan_active_spec. done.
Qed.

(** *** Sealing keeps the store well formed *)

Lemma bind_ext_Forall {A B} (g1 g2 : A → list B) (l : list A) :
  Forall (λ x, g1 x = g2 x) l → l ≫= g1 = l ≫= g2.
Proof.
  induction 1 as [|x l Hx _ IH]; [done|]. by rewrite !bind_cons, Hx, IH.
Qed.

Lemma segment_wf_path_ne st seg (segment_id : Z) :
  segment_wf st seg → SealedSegment.segment_id seg ≠ segment_id →
  SealedSegment.filepath seg ≠ segment_path (data_dir_ st) segment_id.
Proof.
  intros (Hpath & _) Hne Heq. rewrite Hpath in Heq.
  by apply segment_path_inj in Heq.
Qed.

(** A sealed segment stays well formed, with the same rows, in a state
    that still has its file. *)
Lemma segment_wf_transfer st st' seg :
  segment_wf st seg →
  dim_ st' = dim_ st → data_dir_ st' = data_dir_ st →
  next_segment_id_ st ≤ next_segment_id_ st' →
  disk_ st' !! SealedSegment.filepath seg = disk_ st !! SealedSegment.filepath seg →
  segment_wf st' seg ∧ segment_rows st' seg = segment_rows st seg.
Proof.
  intros (Hp & Hid & rows & Hf & Hrows & Hlen) Hdim Hdir Hnext Hdisk.
  unfold segment_wf, segment_rows. rewrite Hdim, Hdir, Hdisk.
  split; [|done]. split; [done|]. split; [lia|]. by exists rows.
Qed.

(** In particular after a file was written for another segment id. *)
Lemma segment_wf_write st st' seg (segment_id : Z) (f : ParquetFile.t) :
  segment_wf st seg → SealedSegment.segment_id seg ≠ segment_id →
  dim_ st' = dim_ st → data_dir_ st' = data_dir_ st →
  next_segment_id_ st ≤ next_segment_id_ st' →
  disk_ st' = <[segment_path (data_dir_ st) segment_id := f]> (disk_ st) →
  segment_wf st' seg ∧ segment_rows st' seg = segment_rows st seg.
Proof.
  intros Hwf Hne Hdim Hdir Hnext Hdisk.
  apply segment_wf_transfer; try done.
  rewrite Hdisk, lookup_insert_ne; [done|].
  intros Heq. by apply (segment_wf_path_ne _ _ _ Hwf Hne).
Qed.

Lemma seal_wf st :
  store_wf st → Segment.records (active_segment_ st) ≠ [] →
  store_wf (seal st)
  ∧ all_rows (seal st) = all_rows st
  ∧ live_view (seal st) = live_view st.
Proof.
  intros [Hdim Hact Hactid Hsealed Hids] Hne.
  apply NoDup_cons in Hids as [Hfresh Hids].
  assert (Forall (λ seg, segment_wf (seal st) seg
                         ∧ segment_rows (seal st) seg = segment_rows st seg)
            (sealed_segments_ st)) as Hold.
  { apply Forall_forall. intros seg Hin.
    apply (segment_wf_write st (seal st) seg (Segment.segment_id (active_segment_ st))
             (file_of (dim_ st) (Segment.records (active_segment_ st))));
      [|intros Heq|done|done|simpl; lia|done].
    - by apply (proj1 (Forall_forall _ _) Hsealed).
    - apply Hfresh. rewrite <- Heq. by apply list_elem_of_fmap_2. }
  set (new_seg := SealedSegment.mk (Segment.segment_id (active_segment_ st))
                    (segment_path (data_dir_ st) (Segment.segment_id (active_segment_ st)))
                    (Z.of_nat (length (Segment.records (active_segment_ st))))
                    (Segment.deleted (active_segment_ st))).
  assert (segment_rows (seal st) new_seg = Segment.records (active_segment_ st)) as Hnew.
  { unfold segment_rows; simpl. rewrite lookup_insert_eq. by apply file_rows_file_of. }
  split; [|split].
  - split; simpl; [done|by constructor|lia| |].
    + apply Forall_app. split.
      * eapply Forall_impl; [exact Hold|]. by intros seg [].
      * apply Forall_singleton. split; [done|]. split; [simpl; lia|].
        exists (Segment.records (active_segment_ st)). simpl.
        by rewrite lookup_insert_eq.
    + rewrite fmap_app. simpl. apply NoDup_cons. split.
      * rewrite elem_of_app, list_elem_of_singleton. intros [Hin|Heq]; [|lia].
        apply list_elem_of_fmap in Hin as (seg & Heq & Hin).
        apply (proj1 (Forall_forall _ _) Hsealed) in Hin as (_ & Hlt & _). lia.
      * apply NoDup_app. split; [done|]. split; [|apply NoDup_singleton].
        intros x Hx ->%list_elem_of_singleton. done.
  - unfold all_rows. simpl sealed_segments_. simpl active_segment_. simpl Segment.records.
    rewrite bind_app, bind_singleton, app_nil_r. fold new_seg. rewrite Hnew.
    f_equal. apply bind_ext_Forall. eapply Forall_impl; [exact Hold|]. by intros seg [].
  - unfold live_view. simpl sealed_segments_. simpl active_segment_. simpl Segment.records.
    rewrite bind_app, bind_singleton. fold new_seg.
    rewrite filter_nil, app_nil_r. unfold segment_live at 2. rewrite Hnew.
    f_equal. apply bind_ext_Forall. eapply Forall_impl; [exact Hold|].
    intros seg [_ Hrows]. unfold segment_live. by rewrite Hrows.
Qed.

Lemma push_back_wf r st :
  store_wf st → has_dim (dim_ st) r →
  store_wf (push_back r st)
  ∧ all_rows (push_back r st) = all_rows st ++ [r]
  ∧ live_view (push_back r st)
    = live_view st ++ filter (live_in (Segment.deleted (active_segment_ st))) [r].
Proof.
  intros [Hdim Hact Hactid Hsealed Hids] Hr. split; [|split].
  - split; simpl; try done. apply Forall_app. split; [done|]. by apply Forall_singleton.
  - unfold all_rows. simpl. by rewrite app_assoc.
  - unfold live_view. simpl. by rewrite filter_app, app_assoc.
Qed.

Lemma append_wf r st :
  store_wf st → has_dim (dim_ st) r →
  ∃ st', append r st = (st', Ok tt)
         ∧ store_wf st'
         ∧ dim_ st' = dim_ st
         ∧ all_rows st' = all_rows st ++ [r]
         ∧ live_view st'
           = live_view st ++ filter (live_in (Segment.deleted (active_segment_ st))) [r]
         ∧ Segment.deleted (active_segment_ st') ⊆ Segment.deleted (active_segment_ st).
Proof.
  intros Hwf Hr. destruct (push_back_wf r st Hwf Hr) as (Hwf1 & Hall1 & Hlive1).
  unfold append, bind, modify, flush_if_full.
  destruct (_ <=? _).
  - rewrite flush_ok; [|apply Hwf1..|apply push_back_records].
    destruct (seal_wf _ Hwf1 (push_back_records r st)) as (Hwf2 & Hall2 & Hlive2).
    exists (seal (push_back r st)). rewrite Hall2, Hlive2. done.
  - exists (push_back r st). done.
Qed.

(** *** bulk_insert *)

Lemma batch_records_metadata ids vectors dim :
  Forall (λ r, VectorRecord.metadata r = "") (batch_records ids vectors dim).
Proof.
  unfold batch_records. generalize (Z.to_nat dim) as d. intros d. revert vectors.
  induction ids as [|id ids IH]; intros vectors; [by constructor|].
  unfold rows_of in *. simpl. constructor; [done|]. apply IH.
Qed.

Lemma batch_records_cons id ids vectors dim :
  batch_records (id :: ids) vectors dim
  = VectorRecord.mk id (take (Z.to_nat dim) vectors) ""
    :: batch_records ids (drop (Z.to_nat dim) vectors) dim.
Proof. done. Qed.

Lemma slice_in_range {A} (buf : list A) (i : nat) (dim : Z) (n : nat) :
  0 ≤ dim → ((i + S n) * Z.to_nat dim ≤ length buf)%nat →
  slice buf i dim = Some (take (Z.to_nat dim) (drop (i * Z.to_nat dim) buf))
  ∧ Z.of_nat (length (take (Z.to_nat dim) (drop (i * Z.to_nat dim) buf))) = dim.
Proof.
  intros Hdim Hlen. unfold slice.
  assert (S i * Z.to_nat dim ≤ (i + S n) * Z.to_nat dim)%nat as Hi
    by (apply Nat.mul_le_mono_r; lia).
  rewrite decide_True by lia. split; [done|].
  rewrite length_take, length_drop. lia.
Qed.

Lemma bulk_insert_loop_wf ids vectors n i st :
  store_wf st →
  length ids = (i + n)%nat →
  ((i + n) * Z.to_nat (dim_ st) ≤ length vectors)%nat →
  let rows := batch_records (drop i ids)
                (drop (i * Z.to_nat (dim_ st)) vectors) (dim_ st) in
  ∃ st' news,
    bulk_insert_loop ids vectors (dim_ st) n i st = (st', Ok tt)
    ∧ store_wf st'
    ∧ dim_ st' = dim_ st
    ∧ all_rows st' = all_rows st ++ rows
    ∧ live_view st' = live_view st ++ news
    ∧ sublist news rows
    ∧ (Segment.deleted (active_segment_ st) = ∅ → news = rows).
Proof.
  revert i st. induction n as [|n IH]; intros i st Hwf Hids Hvec rows.
  - exists st, []. subst rows. rewrite drop_ge by lia.
    unfold batch_records, rows_of. simpl. rewrite !app_nil_r. done.
  - pose proof (wf_dim _ Hwf) as Hdim.
    destruct (slice_in_range vectors i (dim_ st) n) as [Hslice Hemb]; [lia|done|].
    assert (is_Some (ids !! i)) as [id Hid] by (apply lookup_lt_is_Some_2; lia).
    cbn [bulk_insert_loop]. rewrite Hslice, Hid.
    set (r := VectorRecord.mk id
                (take (Z.to_nat (dim_ st)) (drop (i * Z.to_nat (dim_ st)) vectors)) "").
    destruct (append_wf r st Hwf Hemb)
      as (st1 & Hrun & Hwf1 & Hdim1 & Hall1 & Hlive1 & Hdel1).
    destruct (IH (S i) st1 Hwf1) as (st' & news & Hloop & Hwf' & Hdim' & Hall' & Hlive' & Hsub & Hnews).
    { lia. } { rewrite Hdim1. replace (S i + n)%nat with (i + S n)%nat by lia. done. }
    assert (rows = r :: batch_records (drop (S i) ids)
                         (drop (S i * Z.to_nat (dim_ st)) vectors) (dim_ st)) as Hrows.
    { subst rows. rewrite (drop_S _ _ _ Hid), batch_records_cons, drop_drop.
      replace (i * Z.to_nat (dim_ st) + Z.to_nat (dim_ st))%nat
        with (S i * Z.to_nat (dim_ st))%nat by lia.
      done. }
    rewrite Hdim1 in *.
    exists st', (filter (live_in (Segment.deleted (active_segment_ st))) [r] ++ news).
    change (modify (push_back r);; flush_if_full;;
            bulk_insert_loop ids vectors (dim_ st) n (S i))
      with (modify (push_back r);; (flush_if_full;;
            bulk_insert_loop ids vectors (dim_ st) n (S i))).
    assert ((modify (push_back r);; flush_if_full;;
             bulk_insert_loop ids vectors (dim_ st) n (S i)) st = (st', Ok tt)) as ->.
    { revert Hrun. unfold append, bind, modify.
      destruct (flush_if_full (push_back r st)) as [st2 [[]|e]]; intros [= ->]. done. }
    rewrite Hall', Hall1, Hlive', Hlive1, Hrows, <- !app_assoc.
    split; [done|]. split; [done|]. split; [lia|]. split; [done|]. split; [done|].
    split.
    + apply (sublist_app _ [r]); [|done]. apply sublist_filter.
    + intros Hempty. rewrite Hnews; [|rewrite Hempty in Hdel1; set_solver].
      rewrite filter_cons, decide_True; [done|]. unfold live_in. rewrite Hempty. set_solver.
Qed.

Lemma bulk_insert_wf ids vectors st :
  store_wf st →
  Z.of_nat (length vectors) = Z.of_nat (length ids) * dim_ st →
  let rows := batch_records ids vectors (dim_ st) in
  ∃ st' news,
    bulk_insert ids vectors (Z.of_nat (length ids)) (dim_ st) st = (st', Ok tt)
    ∧ store_wf st'
    ∧ dim_ st' = dim_ st
    ∧ all_rows st' = all_rows st ++ rows
    ∧ live_view st' = live_view st ++ news
    ∧ sublist news rows
    ∧ (Segment.deleted (active_segment_ st) = ∅ → news = rows).
Proof.
  intros Hwf Hlen. unfold bulk_insert. rewrite Z.eqb_refl. simpl negb. cbv iota.
  rewrite Nat2Z.id. pose proof (wf_dim _ Hwf).
  apply (bulk_insert_loop_wf ids vectors (length ids) 0 st); [done|done|nia].
Qed.

(** *** compact *)

Lemma rewritten_cons threshold seg segs :
  rewritten threshold (seg :: segs)
  = if qualifies threshold seg then seg :: rewritten threshold segs
    else rewritten threshold segs.
Proof.
  unfold rewritten. rewrite filter_cons.
  destruct (qualifies threshold seg); [by rewrite decide_True|by rewrite decide_False].
Qed.

Lemma kept_cons threshold seg segs :
  kept threshold (seg :: segs)
  = if qualifies threshold seg then kept threshold segs
    else seg :: kept threshold segs.
Proof.
  unfold kept. rewrite filter_cons.
  destruct (qualifies threshold seg); [by rewrite decide_False|by rewrite decide_True].
Qed.

Lemma remove_files_lookup_ne paths disk p :
  p ∉ paths → remove_files paths disk !! p = disk !! p.
Proof.
  revert disk. induction paths as [|q paths IH]; intros disk Hp; simpl; [done|].
  apply not_elem_of_cons in Hp as [Hne Hp].
  rewrite IH by done. by rewrite lookup_delete_ne.
Qed.

Lemma compact_loop_wf threshold segs j loc st :
  0 < dim_ st →
  Forall (segment_wf st) segs →
  NoDup (SealedSegment.filepath <$> segs) →
  size_wrap (reclaimed loc) = reclaimed loc →
  ∃ st',
    compact_loop threshold segs j loc st
    = (st', Ok (mk_locals
                  (clean loc ++ kept threshold segs)
                  (to_merge loc ++ (rewritten threshold segs ≫= segment_live st))
                  (size_wrap (reclaimed loc
                              + sum_with (dead_count st) (rewritten threshold segs)))))
    ∧ dim_ st' = dim_ st
    ∧ data_dir_ st' = data_dir_ st
    ∧ next_segment_id_ st' = next_segment_id_ st
    ∧ active_segment_ st' = active_segment_ st
    ∧ snapshots_ st' = snapshots_ st
    ∧ disk_ st'
      = remove_files (SealedSegment.filepath <$> rewritten threshold segs) (disk_ st).
Proof.
  revert j loc st.
  induction segs as [|seg segs IH]; intros j loc st Hdim Hwf Hnodup Hrec.
  - exists st. simpl. unfold ret. rewrite !app_nil_r, Z.add_0_r, Hrec.
    by destruct loc.
  - apply Forall_cons in Hwf as [Hseg Hwf].
    rewrite fmap_cons in Hnodup. apply NoDup_cons in Hnodup as [Hfresh Hnodup].
    cbn [compact_loop]. rewrite rewritten_cons, kept_cons.
    fold (qualifies threshold seg). destruct (qualifies threshold seg) eqn:Hq.
    + destruct (segment_wf_rows _ _ Hseg) as (rows & Hf & Hrows & Hdims & Hlen).
      unfold bind at 1, lift.
      rewrite (read_parquet_spec _ _ _ _ Hf) by (apply file_ok_file_of; [lia|done]).
      rewrite file_rows_file_of by done.
      unfold bind at 1, modify.
      set (st1 := set_disk (delete (SealedSegment.filepath seg) (disk_ st)) st).
      assert (Forall (λ s, segment_wf st1 s ∧ segment_rows st1 s = segment_rows st s) segs)
        as Hold.
      { apply Forall_forall. intros s Hs.
        apply segment_wf_transfer; simpl; try done.
        - by apply (proj1 (Forall_forall _ _) Hwf).
        - rewrite lookup_delete_ne; [done|]. intros Heq. apply Hfresh.
          rewrite Heq. by apply list_elem_of_fmap_2. }
      edestruct (IH (S j) (mk_locals (clean loc)
                   (to_merge loc ++ filter (live_in (SealedSegment.deleted seg)) rows)
                   (size_wrap (reclaimed loc + size_wrap
                      (SealedSegment.num_records seg
                       - Z.of_nat (length (filter (live_in (SealedSegment.deleted seg)) rows))))))
                   st1)
        as (st' & Hrun & Hd & Hdir & Hnext & Hact & Hsnap & Hdisk);
        [done| |done|apply size_wrap_idemp|].
      { eapply Forall_impl; [exact Hold|]. by intros s []. }
      exists st'. rewrite Hrun. simpl in Hd, Hdir, Hnext, Hact, Hsnap, Hdisk.
      cbn [clean to_merge reclaimed].
      assert (segment_live st seg = filter (live_in (SealedSegment.deleted seg)) rows) as Hlive
        by (unfold segment_live; by rewrite Hrows).
      assert (∀ l, Forall (λ s, segment_wf st1 s ∧ segment_rows st1 s = segment_rows st s) l →
                   l ≫= segment_live st1 = l ≫= segment_live st
                   ∧ sum_with (dead_count st1) l = sum_with (dead_count st) l) as Hext.
      { induction 1 as [|s l [_ Hs] _ [IH1 IH2]]; [done|].
        rewrite !bind_cons, !sum_with_cons, IH1, IH2.
        unfold dead_count, segment_live. by rewrite Hs. }
      destruct (Hext (rewritten threshold segs)) as [-> ->].
      { unfold rewritten. apply Forall_forall. intros s [_ Hs]%list_elem_of_filter.
        by apply (proj1 (Forall_forall _ _) Hold). }
      rewrite bind_cons, sum_with_cons, Hlive, <- app_assoc, fmap_cons.
      split; [|done]. do 3 f_equal. unfold dead_count. rewrite Hlive.
      rewrite size_wrap_add_l, <- Z.add_assoc, (Z.add_comm (reclaimed loc)).
      rewrite <- Z.add_assoc, size_wrap_add_l. f_equal. lia.
    + unfold bind at 1, modify.
      set (st1 := set_sealed_segments
                    (<[j:=SealedSegment.moved_from seg]> (sealed_segments_ st)) st).
      edestruct (IH (S j) (mk_locals (clean loc ++ [seg]) (to_merge loc) (reclaimed loc)) st1)
        as (st' & Hrun & Hd & Hdir & Hnext & Hact & Hsnap & Hdisk); [done|done|done|done|].
      exists st'. rewrite Hrun. simpl in Hd, Hdir, Hnext, Hact, Hsnap, Hdisk.
      cbn [clean to_merge reclaimed]. rewrite <- app_assoc. done.
Qed.

Lemma NoDup_fmap_elem_inj {A B} (g : A → B) (l : list A) (x y : A) :
  NoDup (g <$> l) → x ∈ l → y ∈ l → g x = g y → x = y.
Proof.
  induction l as [|a l IH]; intros Hnd Hx Hy Heq; [by apply elem_of_nil in Hx|].
  rewrite fmap_cons in Hnd. apply NoDup_cons in Hnd as [Ha Hnd].
  apply elem_of_cons in Hx as [->|Hx]; apply elem_of_cons in Hy as [->|Hy]; try done.
  - exfalso. apply Ha. rewrite Heq. by apply list_elem_of_fmap_2.
  - exfalso. apply Ha. rewrite <- Heq. by apply list_elem_of_fmap_2.
  - by apply IH.
Qed.

Lemma filter_live_in_empty (rows : list VectorRecord.t) :
  filter (live_in ∅) rows = rows.
Proof.
  induction rows as [|r rows IH]; [done|].
  rewrite filter_cons, decide_True, IH; [done|]. unfold live_in. set_solver.
Qed.

Lemma segment_paths_NoDup st segs :
  Forall (segment_wf st) segs → NoDup (SealedSegment.segment_id <$> segs) →
  NoDup (SealedSegment.filepath <$> segs).
Proof.
  induction 1 as [|seg segs Hseg Hsegs IH]; intros Hids; [constructor|].
  rewrite fmap_cons. rewrite fmap_cons in Hids. apply NoDup_cons in Hids as [Hfresh Hids].
  apply NoDup_cons. split; [|by apply IH].
  intros (s & Heq & Hs)%list_elem_of_fmap. apply Hfresh.
  destruct Hseg as (Hp & _).
  pose proof (proj1 (Forall_forall _ _) Hsegs s Hs) as (Hps & _).
  rewrite Hp, Hps in Heq. apply segment_path_inj in Heq. rewrite Heq.
  by apply list_elem_of_fmap_2.
Qed.

Lemma wf_paths st :
  store_wf st → NoDup (SealedSegment.filepath <$> sealed_segments_ st).
Proof.
  intros [_ _ _ Hsealed Hids]. apply NoDup_cons in Hids as [_ Hids].
  by apply (segment_paths_NoDup st).
Qed.

Lemma segment_live_dims st seg :
  segment_wf st seg → Forall (has_dim (dim_ st)) (segment_live st seg).
Proof.
  intros (rows & _ & Hrows & Hdims & _)%segment_wf_rows.
  unfold segment_live. rewrite Hrows.
  apply Forall_forall. intros r [_ Hr]%list_elem_of_filter.
  by apply (proj1 (Forall_forall _ _) Hdims).
Qed.

Lemma segment_live_length st seg :
  segment_wf st seg →
  0 ≤ dead_count st seg ≤ SealedSegment.num_records seg.
Proof.
  intros (rows & _ & Hrows & _ & Hlen)%segment_wf_rows.
  unfold dead_count, segment_live. rewrite Hrows.
  pose proof (length_filter (live_in (SealedSegment.deleted seg)) rows). lia.
Qed.

Lemma match_nonempty {A B} (l : list A) (a b : B) :
  l ≠ [] → match l with [] => a | _ :: _ => b end = b.
Proof. by destruct l. Qed.

Lemma compact_wf threshold st :
  store_wf st →
  let segs := sealed_segments_ st in
  let merged_rows := rewritten threshold segs ≫= segment_live st in
  let merged := merged_segment st merged_rows in
  ∃ st',
    compact threshold st
    = (st', Ok (size_wrap (sum_with (dead_count st) (rewritten threshold segs))))
    ∧ store_wf st'
    ∧ dim_ st' = dim_ st
    ∧ active_segment_ st' = active_segment_ st
    ∧ sealed_segments_ st'
      = kept threshold segs ++ (if decide (merged_rows = []) then [] else [merged])
    ∧ Forall (λ seg, disk_ st' !! SealedSegment.filepath seg
                     = disk_ st !! SealedSegment.filepath seg)
             (kept threshold segs)
    ∧ (merged_rows ≠ [] →
       disk_ st' !! SealedSegment.filepath merged = Some (file_of (dim_ st) merged_rows))
    ∧ live_view st'
      = (kept threshold segs ≫= segment_live st) ++ merged_rows
        ++ filter (live_in (Segment.deleted (active_segment_ st)))
             (Segment.records (active_segment_ st)).
Proof.
  intros Hwf segs merged_rows merged.
  pose proof (wf_paths _ Hwf) as Hpaths.
  destruct Hwf as [Hdim Hact Hactid Hsealed Hids].
  apply NoDup_cons in Hids as [Hfresh Hids].
  unfold compact. unfold bind at 1, get. unfold bind at 1.
  destruct (compact_loop_wf threshold segs 0 (mk_locals [] [] 0) st Hdim Hsealed Hpaths)
    as (st1 & Hrun & Hd1 & Hdir1 & Hnext1 & Hact1 & Hsnap1 & Hdisk1); [done|].
  fold segs. rewrite Hrun. cbn [clean to_merge reclaimed app]. rewrite Z.add_0_l.
  fold merged_rows.
  (* the kept segments keep their files *)
  assert (∀ seg, seg ∈ kept threshold segs →
            SealedSegment.filepath seg
            ∉ SealedSegment.filepath <$> rewritten threshold segs) as Hkeep.
  { intros seg [Hq Hin]%list_elem_of_filter (s & Heq & [Hqs Hs]%list_elem_of_filter)%list_elem_of_fmap.
    assert (seg = s) as -> by (by apply (NoDup_fmap_elem_inj SealedSegment.filepath segs)).
    congruence. }
  assert (Forall (has_dim (dim_ st)) merged_rows) as Hmdims.
  { subst merged_rows. apply Forall_bind. unfold rewritten. apply Forall_forall.
    intros s [_ Hs]%list_elem_of_filter. apply segment_live_dims.
    by apply (proj1 (Forall_forall _ _) Hsealed). }
  assert (NoDup (SealedSegment.segment_id <$> kept threshold segs)) as Hkids.
  { unfold kept. refine (sublist_NoDup _ _ Hids _).
    apply fmap_sublist, sublist_filter. }
  assert (∀ seg, seg ∈ kept threshold segs → seg ∈ segs) as Hsub.
  { by intros seg [_ Hin]%list_elem_of_filter. }
  destruct (decide (merged_rows = [])) as [Hnil|Hnil].
  - rewrite Hnil. unfold bind, ret, modify, commit_snapshot; simpl.
    eexists. split; [done|]. rewrite app_nil_r.
    assert (Forall (λ seg, segment_wf
               (set_snapshots (snapshots_ st1 ++
                  [Snapshot.mk (Z.of_nat (length (snapshots_ st1)))
                     (SealedSegment.segment_id <$> kept threshold segs)])
                  (set_sealed_segments (kept threshold segs) st1)) seg
             ∧ segment_rows
                 (set_snapshots (snapshots_ st1 ++
                    [Snapshot.mk (Z.of_nat (length (snapshots_ st1)))
                       (SealedSegment.segment_id <$> kept threshold segs)])
                    (set_sealed_segments (kept threshold segs) st1)) seg
               = segment_rows st seg) (kept threshold segs)) as Hold.
    { apply Forall_forall. intros seg Hin.
      apply segment_wf_transfer; simpl; try done; [|lia|].
      - by apply (proj1 (Forall_forall _ _) Hsealed), Hsub.
      - rewrite Hdisk1. by apply remove_files_lookup_ne, Hkeep. }
    split; [|split; [done|split; [done|split; [done|split; [|split; [done|]]]]]].
    + split; simpl; [lia|by rewrite Hd1, Hact1|by rewrite Hact1, Hnext1| |].
      * eapply Forall_impl; [exact Hold|]. by intros seg [].
      * rewrite Hact1. apply NoDup_cons. split; [|done].
        intros (seg & Heq & Hin)%list_elem_of_fmap. apply Hfresh.
        rewrite Heq. by apply list_elem_of_fmap_2, Hsub.
    + apply Forall_forall. intros seg Hin. simpl. rewrite Hdisk1.
      by apply remove_files_lookup_ne, Hkeep.
    + unfold live_view; simpl. rewrite Hact1. f_equal.
      apply bind_ext_Forall. eapply Forall_impl; [exact Hold|].
      intros seg [_ Hrows]. unfold segment_live. by rewrite Hrows.
  - rewrite (match_nonempty merged_rows) by done.
    unfold bind at 1. unfold bind at 1, get. unfold bind at 1, modify.
    unfold bind at 1, get. unfold bind at 1.
    rewrite write_parquet_ok by (simpl; rewrite ?Hd1; (lia || done)).
    unfold ret at 1. unfold bind, ret, modify, commit_snapshot; simpl.
    rewrite Hdir1, Hnext1, Hd1. fold merged.
    eexists. split; [done|].
    set (st' := set_snapshots _ _).
    assert (Forall (λ seg, segment_wf st' seg
                           ∧ segment_rows st' seg = segment_rows st seg)
              (kept threshold segs)) as Hold.
    { apply Forall_forall. intros seg Hin.
      pose proof (proj1 (Forall_forall _ _) Hsealed seg (Hsub _ Hin)) as Hswf.
      apply segment_wf_transfer; simpl; try done; [lia|].
      rewrite Hdisk1, lookup_insert_ne.
      - by apply remove_files_lookup_ne, Hkeep.
      - intros Heq. destruct Hswf as (Hp & Hlt & _). rewrite Hp in Heq.
        apply segment_path_inj in Heq. lia. }
    assert (segment_rows st' merged = merged_rows) as Hmerged.
    { unfold segment_rows; simpl. rewrite lookup_insert_eq, Hd1.
      by apply file_rows_file_of. }
    split; [|split; [exact Hd1|split; [exact Hact1|split; [reflexivity|split; [|split]]]]].
    + split; simpl; [lia|by rewrite Hd1, Hact1|rewrite Hact1; lia| |].
      * apply Forall_app. split.
        -- eapply Forall_impl; [exact Hold|]. by intros seg [].
        -- apply Forall_singleton. split; [simpl; by rewrite Hdir1|].
           split; [simpl; lia|].
           exists merged_rows. simpl. by rewrite lookup_insert_eq, Hd1.
      * rewrite Hact1, fmap_app. simpl. apply NoDup_cons. split.
        -- rewrite elem_of_app, list_elem_of_singleton. intros [Hin|Heq]; [|lia].
           apply list_elem_of_fmap in Hin as (seg & Heq & Hin). apply Hfresh.
           rewrite Heq. by apply list_elem_of_fmap_2, Hsub.
        -- apply NoDup_app. split; [done|]. split; [|apply NoDup_singleton].
           intros x (seg & Hx & Hin)%list_elem_of_fmap Hx'%list_elem_of_singleton.
           pose proof (proj1 (Forall_forall _ _) Hsealed seg (Hsub _ Hin)) as (_ & Hlt & _).
           lia.
    + apply Forall_forall. intros seg Hin. simpl.
      pose proof (proj1 (Forall_forall _ _) Hsealed seg (Hsub _ Hin)) as (Hp & Hlt & _).
      rewrite Hdisk1, lookup_insert_ne.
      * by apply remove_files_lookup_ne, Hkeep.
      * intros Heq. rewrite Hp in Heq. apply segment_path_inj in Heq. lia.
    + intros _. simpl. by rewrite lookup_insert_eq.
    + assert (segment_live st' merged = merged_rows) as Hlm.
      { unfold segment_live. rewrite Hmerged. apply filter_live_in_empty. }
      unfold live_view.
      change (sealed_segments_ st') with (kept threshold segs ++ [merged]).
      change (active_segment_ st') with (active_segment_ st1).
      rewrite Hact1, bind_app, bind_singleton, Hlm, <- app_assoc. f_equal.
      apply bind_ext_Forall. eapply Forall_impl; [exact Hold|].
      intros seg [_ Hr]. unfold segment_live. by rewrite Hr.
Qed.

(** [x < y] excludes [y <= x]. *)
Lemma ltb_not_leb (x y : F32.t) : F32.ltb x y = true → F32.leb y x = false.
Proof.
  unfold F32.ltb, F32.leb, SFltb, SFleb.
  destruct x as [sx|sx| |sx mx ex], y as [sy|sy| |sy my ey]; simpl;
    try destruct sx; try destruct sy; try done.
  - rewrite (Z.compare_antisym ey ex). destruct (ey ?= ex); simpl; try done.
    rewrite (Pos.compare_cont_antisym my mx Eq). simpl.
    by destruct (Pos.compare_cont Eq mx my).
  - rewrite (Z.compare_antisym ey ex). destruct (ey ?= ex); simpl; try done.
    pose proof (Pos.compare_cont_antisym mx my Eq) as Hopp. simpl in Hopp.
    rewrite <- Hopp. by destruct (Pos.compare_cont Eq mx my).
Qed.

Lemma rewritten_nil_kept threshold segs :
  rewritten threshold segs = [] → kept threshold segs = segs.
Proof.
  induction segs as [|seg segs IH]; [done|].
  rewrite rewritten_cons, kept_cons. destruct (qualifies threshold seg); [done|].
  intros Hnil. by rewrite IH.
Qed.

Lemma dead_count_sum st segs :
  Forall (segment_wf st) segs →
  0 ≤ sum_with (dead_count st) segs ≤ sum_with SealedSegment.num_records segs.
Proof.
  induction 1 as [|seg segs Hseg _ IH]; [done|].
  rewrite !sum_with_cons. pose proof (segment_live_length _ _ Hseg). lia.
Qed.

Lemma num_records_sum_rewritten st threshold segs :
  Forall (segment_wf st) segs →
  sum_with SealedSegment.num_records (rewritten threshold segs)
  ≤ sum_with SealedSegment.num_records segs.
Proof.
  induction 1 as [|seg segs Hseg _ IH]; [done|].
  rewrite rewritten_cons. pose proof (segment_live_length _ _ Hseg).
  destruct (qualifies threshold seg); rewrite !sum_with_cons; lia.
Qed.

(** How [compact] runs, in terms of the test it applies. *)
Lemma compact_run (threshold : F32.t) (st : t) :
  store_wf st →
  let segs := sealed_segments_ st in
  let dirty := rewritten threshold segs in
  let live := dirty ≫= segment_live st in
  let reclaimed := sum_with (dead_count st) dirty in
  ∃ st',
    compact threshold st = (st', Ok (size_wrap reclaimed))
    ∧ (∀ seg, seg ∈ segs →
         F32.ltb (SealedSegment.tombstone_ratio seg) threshold = true →
         seg ∈ sealed_segments_ st' ∧ segment_rows st' seg = segment_rows st seg)
    ∧ sealed_segments_ st'
      = kept threshold segs
        ++ (if decide (live = []) then [] else [merged_segment st live])
    ∧ (live ≠ [] → segment_rows st' (merged_segment st live) = live)
    ∧ (sum_with SealedSegment.num_records segs < 2 ^ 64 → size_wrap reclaimed = reclaimed)
    ∧ (dirty = [] →
       size_wrap reclaimed = 0
       ∧ sealed_segment_count st' = sealed_segment_count st
       ∧ total_live_records st' = total_live_records st).
Proof.
  intros Hwf segs dirty live reclaimed.
  destruct (compact_wf threshold st Hwf)
    as (st' & Hrun & Hwf' & Hdim & Hact & Hsealed & Hdisk & Hmerged & Hlive).
  fold segs dirty live reclaimed in Hrun, Hsealed, Hdisk, Hmerged, Hlive.
  exists st'. split; [done|]. split; [|split; [done|split; [|split]]].
  - intros seg Hin Hlt.
    assert (seg ∈ kept threshold segs) as Hkept.
    { apply list_elem_of_filter. split; [|done]. by apply ltb_not_leb. }
    split; [rewrite Hsealed; apply elem_of_app; by left|].
    unfold segment_rows. rewrite Hdim.
    by rewrite (proj1 (Forall_forall _ _) Hdisk seg Hkept).
  - intros Hne. unfold segment_rows. rewrite (Hmerged Hne), Hdim.
    apply file_rows_file_of. apply Forall_bind, Forall_forall.
    intros s [_ Hs]%list_elem_of_filter. apply segment_live_dims.
    by apply (proj1 (Forall_forall _ _) (wf_sealed _ Hwf)).
  - intros Hfit. apply size_wrap_small.
    assert (Forall (segment_wf st) dirty) as Hdirty.
    { apply Forall_forall. intros s [_ Hs]%list_elem_of_filter.
      by apply (proj1 (Forall_forall _ _) (wf_sealed _ Hwf)). }
    pose proof (dead_count_sum st dirty Hdirty).
    pose proof (num_records_sum_rewritten st threshold segs (wf_sealed _ Hwf)).
    subst reclaimed. fold dirty in H0. lia.
  - intros Hnil. subst reclaimed live. rewrite Hnil in *. simpl in Hsealed.
    fold dirty in Hnil. rewrite (rewritten_nil_kept _ _ Hnil), app_nil_r in Hsealed.
    split; [done|]. unfold sealed_segment_count, total_live_records.
    by rewrite Hsealed, Hact.
Qed.

(** The ratio the code computes is the ratio of the specification. *)
Lemma tombstone_ratio_spec (seg : SealedSegment.t) :
  SealedSegment.tombstone_ratio seg = ratio_of seg.
Proof.
  unfold SealedSegment.tombstone_ratio, ratio_of, ratio.
  destruct (Z.eqb_spec (SealedSegment.num_records seg) 0) as [Hz|Hnz].
  - by rewrite decide_True.
  - by rewrite decide_False.
Qed.

Lemma rewritten_by_ratio threshold segs :
  rewritten threshold segs
  = filter (λ seg, F32.leb threshold (ratio_of seg) = true) segs.
Proof.
  unfold rewritten, qualifies. apply list_filter_iff. intros seg.
  by rewrite tombstone_ratio_spec.
Qed.

Lemma kept_by_ratio threshold segs :
  kept threshold segs
  = filter (λ seg, F32.leb threshold (ratio_of seg) ≠ true) segs.
Proof.
  unfold kept, qualifies. apply list_filter_iff. intros seg.
  rewrite tombstone_ratio_spec. by destruct (F32.leb _ _).
Qed.

(** C5.  On a well-formed store [compact t] returns.  The ratio of a
    sealed segment is [|tombstones| / num_records] in binary32, and 0 when
    [num_records] is 0.  A segment whose ratio is below [t] is kept,
    unchanged and with its file.  The sealed list becomes the segments
    whose ratio is not at or above [t], in order, followed by one new
    segment holding the live rows of all the segments whose ratio is at or
    above [t], created only if there is such a row.  The call returns the
    sum over the rewritten segments of [num_records] minus the live rows
    read (modulo 2^64, and exactly when the row counts fit in [size_t]).
    When no segment has a ratio at or above [t] it returns 0 and leaves
    [sealed_segment_count] and [total_live_records] unchanged. *)
Theorem compact_spec (threshold : F32.t) (st : t) :
  store_wf st →
  let ratio_of seg :=
    if decide (SealedSegment.num_records seg = 0) then F32.zero
    else F32.div (F32.of_size (Z.of_nat (size (SealedSegment.deleted seg))))
                 (F32.of_size (SealedSegment.num_records seg)) in
  let segs := sealed_segments_ st in
  let dirty := filter (λ seg, F32.leb threshold (ratio_of seg) = true) segs in
  let clean := filter (λ seg, F32.leb threshold (ratio_of seg) ≠ true) segs in
  let live := dirty ≫= segment_live st in
  let reclaimed := sum_with (dead_count st) dirty in
  ∃ st',
    compact threshold st = (st', Ok (size_wrap reclaimed))
    ∧ (∀ seg, seg ∈ segs →
         F32.ltb (ratio_of seg) threshold = true →
         seg ∈ sealed_segments_ st' ∧ segment_rows st' seg = segment_rows st seg)
    ∧ sealed_segments_ st'
      = clean ++ (if decide (live = []) then [] else [merged_segment st live])
    ∧ (live ≠ [] → segment_rows st' (merged_segment st live) = live)
    ∧ (sum_with SealedSegment.num_records segs < 2 ^ 64 → size_wrap reclaimed = reclaimed)
    ∧ (dirty = [] →
       size_wrap reclaimed = 0
       ∧ sealed_segment_count st' = sealed_segment_count st
       ∧ total_live_records st' = total_live_records st).
Proof.
  intros Hwf ratio_of' segs dirty clean live reclaimed.
  change ratio_of' with ratio_of in *. clear ratio_of'.
  destruct (compact_run threshold st Hwf)
    as (st' & Hrun & Hkept & Hsealed & Hmerged & Hfit & Hnil).
  fold segs in Hrun, Hkept, Hsealed, Hmerged, Hfit, Hnil.
  rewrite rewritten_by_ratio in Hrun, Hsealed, Hmerged, Hfit, Hnil.
  rewrite kept_by_ratio in Hsealed.
  fold dirty clean in Hrun, Hsealed, Hmerged, Hfit, Hnil.
  fold live reclaimed in Hrun, Hsealed, Hmerged, Hfit, Hnil.
  exists st'. split; [exact Hrun|]. split.
  - intros seg Hin Hlt. apply Hkept; [exact Hin|]. by rewrite tombstone_ratio_spec.
  - split; [exact Hsealed|]. split; [exact Hmerged|]. split; [exact Hfit|exact Hnil].
Qed.

(** *** Every operation keeps the store well formed *)

Lemma insert_append id embedding metadata st :
  Z.of_nat (length embedding) = dim_ st →
  insert id embedding metadata st = append (VectorRecord.mk id embedding metadata) st.
Proof. intros Hlen. unfold insert. by rewrite Hlen, Z.eqb_refl. Qed.

Lemma bulk_insert_loop_keeps_wf ids vectors n i st :
  store_wf st → store_wf (fst (bulk_insert_loop ids vectors (dim_ st) n i st)).
Proof.
  revert i st. induction n as [|n IH]; intros i st Hwf; [done|].
  cbn [bulk_insert_loop]. pose proof (wf_dim _ Hwf) as Hdim.
  unfold slice. case_decide as Hlen; [|done].
  destruct (ids !! i) as [id|]; [|done].
  set (r := VectorRecord.mk id _ "").
  assert (has_dim (dim_ st) r) as Hr.
  { unfold has_dim, r; simpl. rewrite length_take, length_drop. nia. }
  destruct (append_wf r st Hwf Hr) as (st1 & Hrun & Hwf1 & Hdim1 & _).
  change (modify (push_back r);; flush_if_full;;
          bulk_insert_loop ids vectors (dim_ st) n (S i))
    with (modify (push_back r);; (flush_if_full;;
          bulk_insert_loop ids vectors (dim_ st) n (S i))).
  assert ((modify (push_back r);; flush_if_full;;
           bulk_insert_loop ids vectors (dim_ st) n (S i)) st
          = bulk_insert_loop ids vectors (dim_ st) n (S i) st1) as ->.
  { revert Hrun. unfold append, bind, modify.
    destruct (flush_if_full (push_back r st)) as [st2 [[]|e]]; intros [= ->]. done. }
  rewrite <- Hdim1. by apply IH.
Qed.

Lemma exec_wf (o : op) (st : t) : store_wf st → store_wf (exec o st).
Proof.
  intros Hwf. destruct o as [id emb meta|ids vectors count dim|id| |threshold]; simpl.
  - destruct (decide (Z.of_nat (length emb) = dim_ st)) as [Hlen|Hlen].
    + rewrite insert_append by done.
      destruct (append_wf (VectorRecord.mk id emb meta) st Hwf Hlen) as (st' & -> & Hwf' & _).
      done.
    + unfold insert. apply Z.eqb_neq in Hlen. by rewrite Hlen.
  - unfold bulk_insert. destruct (Z.eqb_spec dim (dim_ st)) as [->|Hne]; simpl; [|done].
    by apply bulk_insert_loop_keeps_wf.
  - destruct Hwf as [Hdim Hact Hactid Hsealed Hids].
    unfold delete_vector, modify; simpl. destruct (has_id _ _); split; simpl; try done.
    + apply Forall_fmap. eapply Forall_impl; [exact Hsealed|]. by intros seg.
    + by rewrite <- list_fmap_compose.
  - unfold flush.
    destruct (Segment.records (active_segment_ st)) as [|r rs] eqn:Hrec.
    + unfold flush_active_segment_locked. by rewrite Hrec.
    + rewrite flush_ok; [|apply Hwf..|by rewrite Hrec]. simpl.
      apply seal_wf; [done|by rewrite Hrec].
  - by destruct (compact_wf threshold st Hwf) as (st' & -> & Hwf' & _).
Qed.

(** *** Reachable stores of positive dimension are well formed *)

Lemma write_parquet_dim path records st :
  dim_ (fst (write_parquet path records st)) = dim_ st.
Proof.
  unfold write_parquet. destruct (columns records) as [[ids flat] metas].
  by destruct (_ || _).
Qed.

Lemma flush_dim st : dim_ (fst (flush_active_segment_locked st)) = dim_ st.
Proof.
  unfold flush_active_segment_locked.
  destruct (Segment.records (active_segment_ st)) as [|r records]; [done|].
  unfold bind. pose proof (write_parquet_dim
    (segment_path (data_dir_ st) (Segment.segment_id (active_segment_ st)))
    (r :: records) st) as Hw.
  by destruct (write_parquet _ _ st) as [st1 [[]|e]].
Qed.

Lemma flush_if_full_dim st : dim_ (fst (flush_if_full st)) = dim_ st.
Proof. unfold flush_if_full. destruct (_ <=? _); [apply flush_dim|done]. Qed.

Lemma bulk_insert_loop_dim ids vectors dim n i st :
  dim_ (fst (bulk_insert_loop ids vectors dim n i st)) = dim_ st.
Proof.
  revert i st. induction n as [|n IH]; intros i st; simpl; [done|].
  destruct (slice vectors i dim) as [emb|]; [|done].
  destruct (ids !! i) as [id|]; [|done].
  unfold bind, modify.
  pose proof (flush_if_full_dim (push_back (VectorRecord.mk id emb "") st)) as Hf.
  destruct (flush_if_full _) as [st1 [[]|e]]; simpl in *; [|done].
  by rewrite IH.
Qed.

Lemma compact_loop_dim threshold segs j loc st :
  dim_ (fst (compact_loop threshold segs j loc st)) = dim_ st.
Proof.
  revert j loc st. induction segs as [|seg segs IH]; intros j loc st; simpl; [done|].
  destruct (F32.leb _ _); unfold bind, lift, modify.
  - destruct (read_parquet _ _ st) as [records|e]; simpl; [|done]. by rewrite IH.
  - by rewrite IH.
Qed.

Lemma compact_dim threshold st : dim_ (fst (compact threshold st)) = dim_ st.
Proof.
  unfold compact, bind at 1, get. unfold bind at 1.
  pose proof (compact_loop_dim threshold (sealed_segments_ st) 0 (mk_locals [] [] 0) st)
    as Hloop.
  destruct (compact_loop _ _ _ _ st) as [st1 [loc|e]]; simpl in *; [|done].
  destruct (to_merge loc) as [|r rs].
  - unfold bind, ret, modify; simpl. done.
  - unfold bind, get, modify, ret; simpl.
    pose proof (write_parquet_dim
      (segment_path (data_dir_ st1) (next_segment_id_ st1)) (r :: rs)
      (set_next_segment_id (next_segment_id_ st1 + 1) st1)) as Hw.
    destruct (write_parquet _ _ _) as [st2 [[]|e]]; simpl in *; congruence.
Qed.

Lemma exec_dim (o : op) (st : t) : dim_ (exec o st) = dim_ st.
Proof.
  destruct o as [id emb meta|ids vectors count dim|id| |threshold]; simpl.
  - unfold insert. destruct (negb _); [done|].
    unfold bind, modify. apply (flush_if_full_dim (push_back _ st)).
  - unfold bulk_insert. destruct (negb _); [done|]. apply bulk_insert_loop_dim.
  - unfold delete_vector, modify; simpl. by destruct (has_id _ _).
  - apply flush_dim.
  - apply compact_dim.
Qed.

(** Every state reachable from [new] with a positive dimension satisfies
    [store_wf]: the hypothesis of the theorems on [compact], [ingest_batch]
    and [compact_and_rebuild] holds throughout the life of such a store. *)
Lemma reachable_wf (st : t) : reachable st → 0 < dim_ st → store_wf st.
Proof.
  induction 1 as [dim cap dir files|o st Hreach IH]; intros Hdim.
  - by apply new_wf.
  - rewrite exec_dim in Hdim. by apply exec_wf, IH.
Qed.
End StoreFacts.

Module EngineFacts.
Import StoreSpec StoreFacts EngineSpec.

(** C7 fails for [k = 0]: the loop of [search] tests [results.size() >= k]
    only after it has pushed a result, so a search for zero neighbours in a
    database of one record returns that record. *)
Lemma search_zero_k_returns_a_result :
  snd (VectorDB.search [F32.zero] 0 one_record_db)
  = Ok [VectorDB.mk_result 7 F32.zero ""].
Proof. vm_compute. reflexivity. Qed.

Section Engine.
Context `{HNSWIndex.Graph}.
Import VectorDB.

(** *** search *)

(** X17.  [search] throws "Query dimension mismatch" exactly when the
    query's length differs from [dim_]: no failure of the store read behind
    it surfaces as that error. *)
Lemma search_dimension_mismatch (query : list F32.t) (k : Z) (db : t) :
  snd (search query k db) = Throw (invalid_argument "Query dimension mismatch")
  ↔ Z.of_nat (length query) ≠ dim_ db.
Proof.
  unfold search.
  destruct (Z.eqb_spec (Z.of_nat (length query)) (dim_ db)) as [Heq|Hne]; simpl.
  - destruct (IcebergStore.scan_all _) as [all|e] eqn:Hscan; simpl.
    + split; [done|]. by intros [].
    + split; [|by intros []]. intros [= ->]. exfalso. revert Hscan.
      unfold IcebergStore.scan_all.
      generalize (@nil VectorRecord.t).
      induction (IcebergStore.sealed_segments_ (store_ db)) as [|seg segs IH];
        intros res; simpl; [done|].
      unfold IcebergStore.read_parquet.
      destruct (IcebergStore.disk_ (store_ db) !! SealedSegment.filepath seg) as [f|];
        [|done].
      generalize (@nil VectorRecord.t) at 1. generalize 0%nat.
      induction (ParquetFile.col_id f) as [|id ids IHids]; intros i acc; simpl.
      * apply IH.
      * destruct (decide (id ∈ SealedSegment.deleted seg)); [apply IHids|].
        destruct (slice _ _ _); [|done].
        destruct (_ !! i); [apply IHids|done].
  - split; [done|]. by intros _.
Qed.

Lemma search_sets_ef (query : list F32.t) (k : Z) (db : t) :
  Z.of_nat (length query) = dim_ db →
  HNSWIndex.ef_search_ (hnsw_ (fst (search query k db)))
  = Z.max (size_wrap (k * 2)) 50.
Proof.
  intros Heq. unfold search. rewrite Heq, Z.eqb_refl. simpl.
  by destruct (IcebergStore.scan_all _).
Qed.

(** The loop stops once it holds [k] results, but tests after pushing. *)
Lemma collect_length k all hrs results :
  Z.of_nat (length (collect k all hrs results))
  ≤ Z.max k (Z.of_nat (length results) + 1).
Proof.
  revert results. induction hrs as [|hr hrs IH]; intros results; simpl; [lia|].
  destruct (all !! Z.to_nat (HNSWIndex.id hr)) as [rec|].
  - destruct (Z.leb_spec k (Z.of_nat (length (results ++
               [mk_result (VectorRecord.id rec) (HNSWIndex.distance hr)
                  (VectorRecord.metadata rec)])))) as [Hle|Hgt].
    + rewrite length_app. simpl. lia.
    + etrans; [apply IH|]. rewrite length_app in *. simpl in *. lia.
  - destruct (Z.leb_spec k (Z.of_nat (length results))) as [Hle|Hgt]; [lia|].
    etrans; [apply IH|]. lia.
Qed.

Lemma collect_sound k all hrs0 hrs results :
  hrs ⊆ hrs0 → Forall (paired all hrs0) results →
  Forall (paired all hrs0) (collect k all hrs results).
Proof.
  revert results. induction hrs as [|hr hrs IH]; intros results Hsub Hres; simpl; [done|].
  assert (hrs ⊆ hrs0) as Hsub' by set_solver.
  destruct (all !! Z.to_nat (HNSWIndex.id hr)) as [rec|] eqn:Hrec.
  - assert (Forall (paired all hrs0)
              (results ++ [mk_result (VectorRecord.id rec) (HNSWIndex.distance hr)
                             (VectorRecord.metadata rec)])) as Hpush.
    { apply Forall_app. split; [done|]. apply Forall_singleton.
      exists rec, hr. split; [by eapply list_elem_of_lookup_2|].
      split; [set_solver|done]. }
    destruct (_ <=? _); [done|]. by apply IH.
  - destruct (_ <=? _); [done|]. by apply IH.
Qed.

(** *** The index *)

Lemma build_spec (vectors : list (list F32.t)) (h : HNSWIndex.t HNSWIndex.Links) :
  let h' := HNSWIndex.build vectors h in
  HNSWIndex.vectors_ h' = HNSWIndex.vectors_ h ++ vectors
  ∧ HNSWIndex.dim_ h' = HNSWIndex.dim_ h
  ∧ HNSWIndex.M_ h' = HNSWIndex.M_ h
  ∧ HNSWIndex.M_max0_ h' = HNSWIndex.M_max0_ h
  ∧ HNSWIndex.ef_construction_ h' = HNSWIndex.ef_construction_ h
  ∧ HNSWIndex.ef_search_ h' = HNSWIndex.ef_search_ h.
Proof.
  simpl. unfold HNSWIndex.build. revert h.
  induction vectors as [|v vectors IH]; intros h.
  - simpl. by rewrite app_nil_r.
  - cbn [fold_left].
    destruct (IH (fst (HNSWIndex.insert v h))) as (-> & -> & -> & -> & -> & ->).
    simpl. by rewrite <- app_assoc.
Qed.

(** *** compact_and_rebuild *)

(** C10.  On a well-formed store [compact_and_rebuild] returns, and the
    index it leaves was constructed with M = 16, ef_construction = 200 and
    ef_search = 50, whatever the engine's index held before, and contains
    the embeddings of the records [scan_all] returns, in scan order. *)
Theorem compact_and_rebuild_index (tombstone_threshold : F32.t) (db : t) :
  store_wf (store_ db) →
  ∃ db' reclaimed live,
    compact_and_rebuild tombstone_threshold db = (db', Ok reclaimed)
    ∧ IcebergStore.scan_all (store_ db') = Ok live
    ∧ HNSWIndex.M_ (hnsw_ db') = 16
    ∧ HNSWIndex.M_max0_ (hnsw_ db') = 32
    ∧ HNSWIndex.ef_construction_ (hnsw_ db') = 200
    ∧ HNSWIndex.ef_search_ (hnsw_ db') = 50
    ∧ HNSWIndex.vectors_ (hnsw_ db') = VectorRecord.embedding <$> live.
Proof.
  intros Hwf. unfold compact_and_rebuild, on_store.
  destruct (compact_wf tombstone_threshold (store_ db) Hwf)
    as (st' & Hrun & Hwf' & _).
  rewrite Hrun. simpl. rewrite (scan_all_wf _ Hwf').
  eexists _, _, (live_view st'). split; [done|]. simpl.
  split; [by apply scan_all_wf|].
  destruct (build_spec (VectorRecord.embedding <$> live_view st')
              (HNSWIndex.new (dim_ db) 16 200 50)) as (-> & _ & -> & -> & -> & ->).
  done.
Qed.

(** *** ingest_batch *)

Lemma to_int32_small z : 0 ≤ z < 2 ^ 31 → to_int32 z = z.
Proof. intros Hz. unfold to_int32. rewrite Z.mod_small; lia. Qed.

Lemma index_rows_ok floats dim n i (h : HNSWIndex.t HNSWIndex.Links) :
  0 ≤ dim → ((i + n) * Z.to_nat dim ≤ length floats)%nat →
  ∃ h', index_rows floats dim n i h = Ok h'.
Proof.
  intros Hdim. revert i h. induction n as [|n IH]; intros i h Hlen; simpl; [by eexists|].
  destruct (slice_in_range floats i dim n Hdim Hlen) as [-> _].
  apply IH. by replace (S i + n)%nat with (i + S n)%nat by lia.
Qed.

(** C9.  A batch ingested into a well-formed store is stored as one record
    per row with the empty string as metadata, whatever metadata column
    the batch carries; [scan_all] afterwards returns what it returned
    before followed by batch records, all with empty metadata (all of
    them when the active segment had no tombstones). *)
Theorem ingest_batch_empty_metadata (batch : RecordBatch.t) (ids : list Z)
    (floats : list F32.t) (db : t) :
  store_wf (store_ db) →
  IcebergStore.dim_ (store_ db) = dim_ db →
  dim_ db < 2 ^ 31 →
  RecordBatch.GetColumnByName "id" batch = Some (RecordBatch.UInt64Array ids) →
  RecordBatch.GetColumnByName "embedding" batch
  = Some (RecordBatch.FixedSizeListArray (dim_ db) floats) →
  RecordBatch.num_rows batch = Z.of_nat (length ids) →
  Z.of_nat (length floats) = Z.of_nat (length ids) * dim_ db →
  let rows := batch_records ids floats (dim_ db) in
  ∃ db' old news,
    ingest_batch batch db = (db', Ok (RecordBatch.num_rows batch))
    ∧ all_rows (store_ db') = all_rows (store_ db) ++ rows
    ∧ Forall (λ r, VectorRecord.metadata r = "") rows
    ∧ IcebergStore.scan_all (store_ db) = Ok old
    ∧ IcebergStore.scan_all (store_ db') = Ok (old ++ news)
    ∧ sublist news rows
    ∧ Forall (λ r, VectorRecord.metadata r = "") news
    ∧ (Segment.deleted (IcebergStore.active_segment_ (store_ db)) = ∅ → news = rows).
Proof.
  intros Hwf Hdim Hsmall Hid Hemb Hrows Hlen rows.
  pose proof (wf_dim _ Hwf) as Hpos. rewrite Hdim in Hpos.
  unfold ingest_batch. rewrite Hid, Hemb, to_int32_small, Z.eqb_refl by lia.
  simpl negb. cbv iota. rewrite Hrows. unfold on_store.
  rewrite <- Hdim in Hlen |- *.
  destruct (bulk_insert_wf ids floats (store_ db) Hwf Hlen)
    as (st' & news & Hrun & Hwf' & Hdim' & Hall & Hlive & Hsub & Hnews).
  rewrite Hrun. rewrite Nat2Z.id.
  destruct (index_rows_ok floats (IcebergStore.dim_ (store_ db)) (length ids) 0
              (hnsw_ (set_store st' db))) as [h' Hindex]; [lia|simpl; nia|].
  rewrite Hindex.
  exists (set_hnsw h' (set_store st' db)), (live_view (store_ db)), news.
  subst rows. rewrite <- Hdim. simpl.
  split; [done|]. split; [done|]. split; [apply batch_records_metadata|].
  split; [by apply scan_all_wf|].
  split; [by rewrite (scan_all_wf _ Hwf'), Hlive|]. split; [done|]. split; [|done].
  apply Forall_forall. intros r Hr.
  apply (proj1 (Forall_forall _ _)
           (batch_records_metadata ids floats (IcebergStore.dim_ (store_ db)))).
  by eapply elem_of_sublist.
Qed.
End Engine.

End EngineFacts.

Module LSHFacts.
Import RandomHyperplaneLSH LSHSpec.

Lemma cosine_loop_spec (a b : list F32.t) (i : nat) (dot na nb : F32.t) :
  length a = length (drop i b) →
  cosine_loop a b i dot na nb
  = Some (fold_left dot_step (zip a (drop i b)) dot,
          fold_left dot_step (zip a a) na,
          fold_left dot_step (zip (drop i b) (drop i b)) nb).
Proof.
  revert i dot na nb. induction a as [|ai a IH]; intros i dot na nb Hlen.
  - simpl in Hlen. symmetry in Hlen. apply nil_length_inv in Hlen. by rewrite Hlen.
  - destruct (b !! i) as [bi|] eqn:Hbi.
    + rewrite (drop_S _ _ _ Hbi) in Hlen |- *. simpl in Hlen.
      cbn [cosine_loop]. rewrite Hbi. rewrite IH by lia. done.
    + apply lookup_ge_None in Hbi. rewrite drop_ge in Hlen by done. done.
Qed.

(** C8, as amended.  For vectors of equal length [cosine_sim] is
    [inner(x,y) / (√inner(x,x) · √inner(y,y))] when that denominator, the
    product of the two norms, exceeds [1e-10f], and 0 otherwise. *)
Theorem cosine_sim_spec (x y : list F32.t) :
  length x = length y →
  cosine_sim x y
  = Ok (let denom := F32.mul (norm x) (norm y) in
        if F32.ltb F32.lit_1e_10 denom then F32.div (inner x y) denom else F32.zero).
Proof.
  intros Hlen. unfold cosine_sim. rewrite cosine_loop_spec by (by rewrite drop_0).
  rewrite drop_0. done.
Qed.

Lemma cosine_sim_spec_witness :
  length [F32.pow2 0; F32.pow2 1] = length [F32.pow2 1; F32.pow2 0]
  ∧ cosine_sim [F32.pow2 0; F32.pow2 1] [F32.pow2 1; F32.pow2 0]
    = Ok (let denom := F32.mul (norm [F32.pow2 0; F32.pow2 1])
                         (norm [F32.pow2 1; F32.pow2 0]) in
          if F32.ltb F32.lit_1e_10 denom
          then F32.div (inner [F32.pow2 0; F32.pow2 1] [F32.pow2 1; F32.pow2 0]) denom
          else F32.zero).
Proof.
  split; [reflexivity|].
  apply (cosine_sim_spec [F32.pow2 0; F32.pow2 1] [F32.pow2 1; F32.pow2 0]).
  reflexivity.
Defined.

(** C8, as stated, fails: the norm of [2^-40] is below [1e-10], yet against
    [2^40] the product of the norms is 1 and the similarity returned is 1,
    not 0. *)
Lemma cosine_sim_small_norm_counterexample :
  ¬ (∀ x y : list F32.t,
       length x = length y →
       cosine_sim x y
       = Ok (if F32.ltb (norm x) F32.lit_1e_10 || F32.ltb (norm y) F32.lit_1e_10
             then F32.zero
             else F32.div (inner x y) (F32.mul (norm x) (norm y)))).
Proof.
  intros Hclaim. specialize (Hclaim [F32.pow2 (-40)] [F32.pow2 40] eq_refl).
  vm_compute in Hclaim. discriminate Hclaim.
Qed.

End LSHFacts.

Module Witnesses.
Import IcebergStore StoreSpec StoreFacts EngineSpec EngineFacts Examples.
#[local] Existing Instance first_node_graph.

Lemma twice_deleted_wf : store_wf twice_deleted.
Proof. unfold twice_deleted. repeat apply exec_wf. apply new_wf. lia. Qed.

Lemma scan_all_live_records_witness :
  Forall2 (stored_in auto_sealed) (sealed_segments_ auto_sealed)
    [file_of 2 [row 1; row 2; row 3]]
  ∧ scan_all auto_sealed = Ok [row 1; row 2; row 3; row 4].
Proof.
  assert (Forall2 (stored_in auto_sealed) (sealed_segments_ auto_sealed)
            [file_of 2 [row 1; row 2; row 3]]) as Hfiles.
  { vm_compute. repeat constructor. }
  split; [exact Hfiles|].
  rewrite (scan_all_live_records auto_sealed _ Hfiles). vm_compute. reflexivity.
Defined.

Lemma insert_spec_witness :
  snd (insert 3 [one; half] "doc" two_active) = Ok tt
  ∧ Segment.records (active_segment_ (fst (insert 3 [one; half] "doc" two_active))) = []
  ∧ disk_ (fst (insert 3 [one; half] "doc" two_active)) !! segment_path "/tmp/vectordb" 0
    = Some (file_of 2 [row 1; row 2; VectorRecord.mk 3 [one; half] "doc"]).
Proof.
  destruct (insert_spec 3 [one; half] "doc" two_active) as (_ & _ & Hok & Hreturns).
  assert (snd (insert 3 [one; half] "doc" two_active) = Ok tt) as Hres.
  { apply Hreturns; [reflexivity|simpl; lia|repeat constructor]. }
  destruct (Hok Hres) as (_ & Hrec & Hsealed & _).
  split; [exact Hres|]. split.
  - rewrite Hrec. reflexivity.
  - destruct Hsealed as (_ & _ & Hdisk); [vm_compute; discriminate|exact Hdisk].
Defined.

Lemma mixed_ratios_wf : store_wf mixed_ratios.
Proof. unfold mixed_ratios. repeat apply exec_wf. apply new_wf. lia. Qed.

Lemma compact_spec_witness :
  store_wf mixed_ratios
  ∧ ratio_of <$> sealed_segments_ mixed_ratios = [ratio 3 3; ratio 1 3]
  ∧ F32.leb half (ratio 3 3) = true
  ∧ F32.ltb (ratio 1 3) half = true
  ∧ ∃ st', compact half mixed_ratios = (st', Ok 2)
           ∧ SealedSegment.segment_id <$> sealed_segments_ mixed_ratios = [0; 1]
           ∧ SealedSegment.segment_id <$> sealed_segments_ st' = [1; 3]
           ∧ scan_all st' = Ok [row 5; row 6; row 3].
Proof.
  split; [exact mixed_ratios_wf|].
  split; [vm_compute; reflexivity|].
  split; [vm_compute; reflexivity|].
  split; [vm_compute; reflexivity|].
  destruct (compact_spec half mixed_ratios mixed_ratios_wf)
    as (st' & Hrun & _ & Hsealed & _).
  exists st'. split; [rewrite Hrun; vm_compute; reflexivity|].
  split; [vm_compute; reflexivity|].
  split; [rewrite Hsealed; vm_compute; reflexivity|].
  assert (st' = fst (compact half mixed_ratios)) as -> by (rewrite Hrun; reflexivity).
  vm_compute. reflexivity.
Defined.

Lemma compact_and_rebuild_index_witness :
  store_wf (VectorDB.store_ tuned_db)
  ∧ ∃ db', fst (VectorDB.compact_and_rebuild half tuned_db) = db'
           ∧ HNSWIndex.M_ (VectorDB.hnsw_ db') = 16
           ∧ HNSWIndex.ef_construction_ (VectorDB.hnsw_ db') = 200
           ∧ HNSWIndex.ef_search_ (VectorDB.hnsw_ db') = 50.
Proof.
  split; [exact twice_deleted_wf|].
  destruct (compact_and_rebuild_index half tuned_db twice_deleted_wf)
    as (db' & reclaimed & live & Hrun & _ & HM & _ & Hefc & Hefs & _).
  exists db'. rewrite Hrun.
split; [reflexivity|]. split; [exact HM|]. split; [exact Hefc|exact Hefs].
Defined.

Lemma ingest_batch_empty_metadata_witness :
  store_wf (VectorDB.store_ tuned_db)
  ∧ ∃ db', VectorDB.ingest_batch labelled_batch tuned_db = (db', Ok 2).
Proof.
  split; [exact twice_deleted_wf|].
  destruct (ingest_batch_empty_metadata labelled_batch [10; 11]
              [one; one; half; half] tuned_db)
    as (db' & old & news & Hrun & _);
    [exact twice_deleted_wf|reflexivity|reflexivity|reflexivity|reflexivity
    |reflexivity|reflexivity|].
  by exists db'.
Defined.

End Witnesses.

(** * Further properties, by source file *)

(** ** iceberg_store.hpp *)

Module StoreLaws.
Import IcebergStore StoreSpec StoreFacts.

(** *** What open and the public operations maintain *)

Lemma live_view_dims st : store_wf st → Forall (has_dim (dim_ st)) (live_view st).
Proof.
  intros Hwf. unfold live_view. apply Forall_app. split.
  - pose proof (wf_sealed _ Hwf) as Hsealed.
    induction Hsealed as [|seg segs Hseg _ IH]; [done|].
    rewrite bind_cons. apply Forall_app. split; [by apply segment_live_dims|done].
  - apply Forall_forall. intros r Hr. apply list_elem_of_filter in Hr as [_ Hr].
    by apply (proj1 (Forall_forall _ _) (wf_active _ Hwf)).
Qed.

(** X1.  In every state reachable from [new] by the public operations, if
    the dimension is positive then [scan_all] returns: it does not throw,
    and every record it returns has exactly [dim_] floats. *)
Theorem reachable_scan_all_returns (st : t) :
  reachable st → 0 < dim_ st →
  ∃ rows, scan_all st = Ok rows
          ∧ Forall (λ r, Z.of_nat (length (VectorRecord.embedding r)) = dim_ st) rows.
Proof.
  intros Hreach Hdim. pose proof (reachable_wf st Hreach Hdim) as Hwf.
  exists (live_view st). split; [by apply scan_all_wf|].
  by apply live_view_dims.
Qed.

(** X2.  In every reachable state of positive dimension the sealed
    segments have pairwise distinct file paths and pairwise distinct ids,
    none of them the active segment's id; each path is the one derived from
    the segment's id, each id is below [next_segment_id_], and each file is
    on disk with [num_records] ids, [num_records * dim_] floats, one
    metadata string per id, and list size [dim_]. *)
Theorem reachable_sealed_files (st : t) :
  reachable st → 0 < dim_ st →
  NoDup (SealedSegment.filepath <$> sealed_segments_ st)
  ∧ NoDup (Segment.segment_id (active_segment_ st)
           :: (SealedSegment.segment_id <$> sealed_segments_ st))
  ∧ Forall (λ seg,
      SealedSegment.filepath seg
      = segment_path (data_dir_ st) (SealedSegment.segment_id seg)
      ∧ SealedSegment.segment_id seg < next_segment_id_ st
      ∧ ∃ f, disk_ st !! SealedSegment.filepath seg = Some f
             ∧ Z.of_nat (length (ParquetFile.col_id f)) = SealedSegment.num_records seg
             ∧ Z.of_nat (length (ParquetFile.col_embedding f))
               = SealedSegment.num_records seg * dim_ st
             ∧ length (ParquetFile.col_metadata f) = length (ParquetFile.col_id f)
             ∧ ParquetFile.list_size f = dim_ st)
      (sealed_segments_ st).
Proof.
  intros Hreach Hdim. pose proof (reachable_wf st Hreach Hdim) as Hwf.
  split; [by apply wf_paths|]. split; [apply Hwf|].
  eapply Forall_impl; [apply (wf_sealed _ Hwf)|].
  intros seg (Hpath & Hid & rows & Hfile & Hrows & Hnum).
  split; [done|]. split; [done|].
  exists (file_of (dim_ st) rows). split; [done|]. simpl.
  rewrite !length_fmap, (length_flat (dim_ st) rows Hrows).
  split; [done|]. split; [by rewrite Hnum|done].
Qed.

(** *** Snapshots *)











(** *** Reading back what was inserted *)

(** X4.  On a well-formed store, inserting a record of the store's
    dimension whose id is not tombstoned in the active segment returns, and
    [scan_all] then returns what it returned before followed by exactly
    that record, with its embedding and metadata, whether or not the insert
    sealed the active segment and the record is read back from a file. *)
Theorem insert_scan_round_trip (id : Z) (embedding : list F32.t) (metadata : string)
    (st : t) :
  store_wf st →
  Z.of_nat (length embedding) = dim_ st →
  id ∉ Segment.deleted (active_segment_ st) →
  ∃ st' old,
    insert id embedding metadata st = (st', Ok tt)
    ∧ scan_all st = Ok old
    ∧ scan_all st' = Ok (old ++ [VectorRecord.mk id embedding metadata]).
Proof.
  intros Hwf Hlen Hid.
  destruct (append_wf (VectorRecord.mk id embedding metadata) st Hwf Hlen)
    as (st' & Happ & Hwf' & _ & _ & Hlive & _).
  exists st', (live_view st). rewrite insert_append by done.
  split; [done|]. split; [by apply scan_all_wf|].
  rewrite scan_all_wf, Hlive by done.
  rewrite filter_cons_True by done. done.
Qed.

(** X5.  A tombstone of the active segment masks later inserts: when [id]
    is in the active tombstone set, [insert id] returns and stores the
    record, but [scan_all] returns the same as before. *)
Theorem insert_masked_by_tombstone (id : Z) (embedding : list F32.t) (metadata : string)
    (st : t) :
  store_wf st →
  Z.of_nat (length embedding) = dim_ st →
  id ∈ Segment.deleted (active_segment_ st) →
  ∃ st',
    insert id embedding metadata st = (st', Ok tt)
    ∧ all_rows st' = all_rows st ++ [VectorRecord.mk id embedding metadata]
    ∧ scan_all st' = scan_all st.
Proof.
  intros Hwf Hlen Hid.
  destruct (append_wf (VectorRecord.mk id embedding metadata) st Hwf Hlen)
    as (st' & Happ & Hwf' & _ & Hall & Hlive & _).
  exists st'. rewrite insert_append by done.
  split; [done|]. split; [done|].
  rewrite !scan_all_wf, Hlive by done.
  rewrite filter_cons_False, filter_nil, app_nil_r; [done|].
  unfold live_in; simpl. by intros Hn.
Qed.

(** *** Totals after inserts *)

Lemma total_records_wrap st :
  size_wrap (total_records st)
  = size_wrap (Z.of_nat (length (Segment.records (active_segment_ st)))
               + sum_with SealedSegment.num_records (sealed_segments_ st)).
Proof. unfold total_records. apply fold_wrap_sum. Qed.

Lemma append_cases r st st' :
  append r st = (st', Ok tt) → st' = push_back r st ∨ st' = seal (push_back r st).
Proof.
  intros Happ. unfold append, bind, modify, flush_if_full in Happ.
  destruct (_ <=? _) in Happ.
  - destruct (flush_after_push_cases r st) as [Hf|Hf]; rewrite Hf in Happ; [right|];
      by inversion Happ.
  - left. by inversion Happ.
Qed.

Lemma push_back_totals r st :
  size_wrap (total_records (push_back r st)) = size_wrap (total_records st + 1)
  ∧ total_live_records (push_back r st) = size_wrap (total_live_records st + 1).
Proof.
  split.
  - rewrite <- (size_wrap_add_l (total_records st)), !total_records_wrap, size_wrap_add_l.
    simpl. rewrite length_app. simpl. f_equal. lia.
  - rewrite !total_live_records_eq, size_wrap_add_l. simpl.
    rewrite length_app. simpl. f_equal. lia.
Qed.

Lemma seal_totals st :
  size_wrap (total_records (seal st)) = size_wrap (total_records st)
  ∧ total_live_records (seal st) = total_live_records st.
Proof.
  split.
  - rewrite !total_records_wrap. simpl. rewrite sum_with_app. simpl. f_equal. lia.
  - rewrite !total_live_records_eq. unfold seal.
    cbn [active_segment_ sealed_segments_ Segment.records Segment.deleted length].
    rewrite sum_with_app, size_empty.
    cbn [sum_with foldr SealedSegment.num_records SealedSegment.deleted].
    f_equal. lia.
Qed.

Lemma append_totals r st st' :
  append r st = (st', Ok tt) →
  size_wrap (total_records st') = size_wrap (total_records st + 1)
  ∧ total_live_records st' = size_wrap (total_live_records st + 1).
Proof.
  intros Happ. destruct (push_back_totals r st) as [Hp Hpl].
  apply append_cases in Happ as [-> | ->]; [done|].
  destruct (seal_totals (push_back r st)) as [Hs Hsl].
  by rewrite Hs, Hsl.
Qed.

Lemma bulk_insert_loop_totals ids vectors dim n i st st' :
  bulk_insert_loop ids vectors dim n i st = (st', Ok tt) →
  size_wrap (total_records st') = size_wrap (total_records st + Z.of_nat n)
  ∧ total_live_records st' = size_wrap (total_live_records st + Z.of_nat n).
Proof.
  revert i st. induction n as [|n IH]; intros i st Hloop.
  - inversion Hloop; subst st'. rewrite !Z.add_0_r. split; [done|].
    by rewrite total_live_records_eq, size_wrap_idemp.
  - cbn [bulk_insert_loop] in Hloop.
    destruct (slice vectors i dim) as [emb|]; [|done].
    destruct (ids !! i) as [id|]; [|done].
    fold (append (VectorRecord.mk id emb "")) in Hloop.
    change (bind (modify (push_back (VectorRecord.mk id emb "")))
              (λ _, bind flush_if_full (λ _, bulk_insert_loop ids vectors dim n (S i))) st
            = (st', Ok tt)) in Hloop.
    unfold bind at 1 2 in Hloop. unfold modify in Hloop.
    destruct (flush_if_full (push_back (VectorRecord.mk id emb "") st))
      as [st1 [[]|e]] eqn:Hf; [|done].
    assert (append (VectorRecord.mk id emb "") st = (st1, Ok tt)) as Happ.
    { unfold append, bind, modify. by rewrite Hf. }
    apply append_totals in Happ as [Ht Hl].
    apply IH in Hloop as [Ht' Hl'].
    rewrite Ht', Hl', <- size_wrap_add_l, Ht, Hl, !size_wrap_add_l.
    split; f_equal; lia.
Qed.

(** X6.  When [bulk_insert] of [count] rows returns, [total_records] and
    [total_live_records] have grown by [count] modulo 2^64, however many
    segments were sealed on the way. *)
Theorem bulk_insert_totals (ids : list Z) (vectors : list F32.t) (count dim : Z) (st : t) :
  0 ≤ count →
  snd (bulk_insert ids vectors count dim st) = Ok tt →
  let st' := fst (bulk_insert ids vectors count dim st) in
  size_wrap (total_records st') = size_wrap (total_records st + count)
  ∧ total_live_records st' = size_wrap (total_live_records st + count).
Proof.
  intros Hcount. unfold bulk_insert. destruct (negb _); [done|].
  destruct (bulk_insert_loop _ _ _ _ _ st) as [st' [[]|e]] eqn:Hloop; [|done].
  intros _. apply bulk_insert_loop_totals in Hloop. simpl.
  by rewrite Z2Nat.id in Hloop.
Qed.

(** *** bulk_insert as repeated insert *)

Lemma append_dim r st : dim_ (fst (append r st)) = dim_ st.
Proof.
  unfold append, bind, modify.
  pose proof (flush_if_full_dim (push_back r st)) as Hd.
  by destruct (flush_if_full (push_back r st)) as [st1 [[]|e]].
Qed.

Lemma bulk_insert_loop_as_inserts ids vectors n i st :
  0 ≤ dim_ st →
  length ids = (i + n)%nat →
  ((i + n) * Z.to_nat (dim_ st) ≤ length vectors)%nat →
  bulk_insert_loop ids vectors (dim_ st) n i st
  = insert_all (batch_records (drop i ids)
                  (drop (i * Z.to_nat (dim_ st)) vectors) (dim_ st)) st.
Proof.
  revert i st. induction n as [|n IH]; intros i st Hdim Hids Hvec.
  - rewrite drop_ge by lia. done.
  - cbn [bulk_insert_loop].
    destruct (slice_in_range vectors i (dim_ st) n Hdim Hvec) as [Hslice Hlen].
    rewrite Hslice.
    destruct (lookup_lt_is_Some_2 ids i) as [id Hid]; [lia|].
    rewrite Hid, (drop_S _ _ _ Hid), batch_records_cons. cbn [insert_all foldr].
    cbn [VectorRecord.id VectorRecord.embedding VectorRecord.metadata].
    fold (insert_all (batch_records (drop (S i) ids)
            (drop (Z.to_nat (dim_ st)) (drop (i * Z.to_nat (dim_ st)) vectors)) (dim_ st))).
    rewrite drop_drop.
    replace (i * Z.to_nat (dim_ st) + Z.to_nat (dim_ st))%nat
      with (S i * Z.to_nat (dim_ st))%nat by lia.
    unfold bind at 3. rewrite insert_append by done.
    change (bind (modify (push_back (VectorRecord.mk id
                    (take (Z.to_nat (dim_ st)) (drop (i * Z.to_nat (dim_ st)) vectors)) "")))
              (λ _, bind flush_if_full
                      (λ _, bulk_insert_loop ids vectors (dim_ st) n (S i))) st)
      with (let r := VectorRecord.mk id
                       (take (Z.to_nat (dim_ st)) (drop (i * Z.to_nat (dim_ st)) vectors)) "" in
            match append r st with
            | (st1, Ok _) => bulk_insert_loop ids vectors (dim_ st) n (S i) st1
            | (st1, Throw e) => (st1, Throw e)
            end).
    cbv zeta.
    pose proof (append_dim (VectorRecord.mk id
                  (take (Z.to_nat (dim_ st)) (drop (i * Z.to_nat (dim_ st)) vectors)) "") st)
      as Hd.
    destruct (append _ st) as [st1 [[]|e]]; [|done].
    simpl in Hd. rewrite <- Hd. apply IH; rewrite ?Hd; [done|lia|lia].
Qed.

(** X7.  [bulk_insert] of [n] ids and [n * dim_] floats is the same state
    transformer as [n] calls of [insert], one per row in order, with the
    row's id, its block of [dim_] floats and the empty metadata string: the
    same final store and the same result, also when a seal throws on the
    way. *)
Theorem bulk_insert_as_inserts (ids : list Z) (vectors : list F32.t) (st : t) :
  0 ≤ dim_ st →
  Z.of_nat (length vectors) = Z.of_nat (length ids) * dim_ st →
  bulk_insert ids vectors (Z.of_nat (length ids)) (dim_ st) st
  = insert_all (batch_records ids vectors (dim_ st)) st.
Proof.
  intros Hdim Hlen. unfold bulk_insert. rewrite Z.eqb_refl. simpl (negb _). cbv iota.
  rewrite Nat2Z.id.
  apply (bulk_insert_loop_as_inserts ids vectors (length ids) 0 st); [done|done|].
  simpl. apply Nat2Z.inj_le. rewrite Nat2Z.inj_mul, Z2Nat.id by done. lia.
Qed.

(** *** flush *)

(** X8.  [flush] is idempotent: a second [flush] returns or throws what
    the first did and leaves the store as the first left it. *)
Theorem flush_idempotent (st : t) : flush (fst (flush st)) = flush st.
Proof.
  unfold flush.
  destruct (decide (Segment.records (active_segment_ st) = [])) as [Hrec|Hrec].
  - unfold flush_active_segment_locked at 2. by rewrite Hrec.
  - destruct (flush_cases st Hrec) as [Hf|Hf]; rewrite Hf; [|done].
    done.
Qed.

(** X9.  On a well-formed store [flush] returns and empties the active
    segment; it adds one sealed segment exactly when the active segment was
    not empty, and changes neither what [scan_all] returns, nor the stored
    rows, nor [total_records] (modulo 2^64), nor [total_live_records]. *)
Theorem flush_keeps_contents (st : t) :
  store_wf st →
  ∃ st', flush st = (st', Ok tt)
         ∧ store_wf st'
         ∧ Segment.records (active_segment_ st') = []
         ∧ scan_all st' = scan_all st
         ∧ all_rows st' = all_rows st
         ∧ size_wrap (total_records st') = size_wrap (total_records st)
         ∧ total_live_records st' = total_live_records st
         ∧ sealed_segment_count st'
           = sealed_segment_count st
             + (if decide (Segment.records (active_segment_ st) = []) then 0 else 1).
Proof.
  intros Hwf. unfold flush. case_decide as Hrec.
  - exists st. unfold flush_active_segment_locked. rewrite Hrec.
    split_and!; try done. lia.
  - exists (seal st). destruct (seal_wf st Hwf Hrec) as (Hwf' & Hall & Hlive).
    destruct (seal_totals st) as [Ht Hl].
    rewrite flush_ok by (done || apply Hwf).
    rewrite !scan_all_wf, Hlive by done.
    split_and!; try done.
    unfold sealed_segment_count. simpl. rewrite length_app. simpl. lia.
Qed.

(** *** delete_vector *)

Lemma tombstone_idemp id seg : tombstone id (tombstone id seg) = tombstone id seg.
Proof.
  unfold tombstone; simpl. f_equal. by rewrite (assoc_L (∪)), union_idemp_L.
Qed.

Lemma tombstone_comm a b seg : tombstone a (tombstone b seg) = tombstone b (tombstone a seg).
Proof.
  unfold tombstone; simpl. f_equal.
  by rewrite !(assoc_L (∪)), (comm_L (∪) {[a]}).
Qed.

Lemma delete_vector_idemp (id : Z) (st : t) :
  delete_vector id (fst (delete_vector id st)) = delete_vector id st.
Proof.
  unfold delete_vector, modify. cbn [fst]. f_equal.
  destruct (has_id id (Segment.records (active_segment_ st))) eqn:Hhas; simpl; rewrite Hhas.
  - unfold set_active_segment; simpl. do 2 f_equal.
    by rewrite (assoc_L (∪)), union_idemp_L.
  - unfold set_sealed_segments; simpl. f_equal.
    rewrite <- list_fmap_compose. apply list_fmap_ext. intros i seg _. apply tombstone_idemp.
Qed.

Lemma delete_vector_swap (a b : Z) (st : t) :
  fst (delete_vector a (fst (delete_vector b st)))
  = fst (delete_vector b (fst (delete_vector a st))).
Proof.
  unfold delete_vector, modify. cbn [fst].
  destruct (has_id a (Segment.records (active_segment_ st))) eqn:Ha,
           (has_id b (Segment.records (active_segment_ st))) eqn:Hb;
    simpl; rewrite ?Ha, ?Hb; unfold set_active_segment, set_sealed_segments; simpl;
    try done.
  - do 2 f_equal. by rewrite !(assoc_L (∪)), (comm_L (∪) {[a]}).
  - f_equal. rewrite <- !list_fmap_compose. apply list_fmap_ext.
    intros i seg _. apply tombstone_comm.
Qed.

(** X10.  Deleting an id twice is the same as deleting it once, and two
    deletes commute: the store after [delete a; delete b] is the store
    after [delete b; delete a]. *)
Theorem delete_vector_order_irrelevant (a b : Z) (st : t) :
  delete_vector a (fst (delete_vector a st)) = delete_vector a st
  ∧ fst (delete_vector a (fst (delete_vector b st)))
    = fst (delete_vector b (fst (delete_vector a st))).
Proof.
  split.
  - apply delete_vector_idemp.
  - apply delete_vector_swap.
Qed.

(** *** Reading after a delete *)

Lemma filter_tombstone id (deleted : gset Z) (rows : list VectorRecord.t) :
  filter (live_in ({[id]} ∪ deleted)) rows
  = filter (λ r, VectorRecord.id r ≠ id) (filter (live_in deleted) rows).
Proof.
  rewrite list_filter_filter. apply list_filter_iff. intros r.
  unfold live_in. rewrite not_elem_of_union, not_elem_of_singleton. done.
Qed.

Lemma filter_other_absent id (rows : list VectorRecord.t) :
  id ∉ VectorRecord.id <$> rows →
  filter (λ r, VectorRecord.id r ≠ id) rows = rows.
Proof.
  intros Hid. induction rows as [|r rows IH]; [done|].
  rewrite fmap_cons, not_elem_of_cons in Hid. destruct Hid as [Hr Hrows].
  rewrite filter_cons_True by done. by rewrite IH.
Qed.

Lemma segment_live_tombstone id st st' seg :
  dim_ st' = dim_ st → disk_ st' = disk_ st →
  segment_live st' (tombstone id seg)
  = filter (λ r, VectorRecord.id r ≠ id) (segment_live st seg).
Proof.
  intros Hdim Hdisk. unfold segment_live, segment_rows. simpl.
  rewrite Hdim, Hdisk. apply filter_tombstone.
Qed.

Lemma bind_filter {A B} (P : B → Prop) `{!∀ x, Decision (P x)} (g : A → list B)
    (l : list A) :
  filter P (l ≫= g) = l ≫= (λ x, filter P (g x)).
Proof.
  induction l as [|x l IH]; [done|].
  by rewrite !bind_cons, filter_app, IH.
Qed.

Lemma bind_tombstone id st st' segs :
  dim_ st' = dim_ st → disk_ st' = disk_ st →
  (tombstone id <$> segs) ≫= segment_live st'
  = filter (λ r, VectorRecord.id r ≠ id) (segs ≫= segment_live st).
Proof.
  intros Hdim Hdisk. rewrite bind_filter.
  induction segs as [|seg segs IH]; [done|].
  rewrite fmap_cons, !bind_cons, IH. f_equal.
  by apply segment_live_tombstone.
Qed.

(** X11.  What [scan_all] returns after [delete_vector id] on a
    well-formed store.  The records of the active segment with that id are
    gone.  The records read from sealed segments are unchanged when the
    active segment holds the id, so a sealed record with the same id
    survives the delete; otherwise they lose the records with that id, and
    the whole result is the previous one without that id. *)
Theorem delete_then_scan (id : Z) (st : t) :
  store_wf st →
  let st' := fst (delete_vector id st) in
  let other := λ r, VectorRecord.id r ≠ id in
  let a := active_segment_ st in
  let sealed_live := sealed_segments_ st ≫= segment_live st in
  let active_live := filter (live_in (Segment.deleted a)) (Segment.records a) in
  scan_all st = Ok (sealed_live ++ active_live)
  ∧ scan_all st'
    = Ok ((if decide (id ∈ VectorRecord.id <$> Segment.records a)
           then sealed_live else filter other sealed_live)
          ++ filter other active_live)
  ∧ (id ∉ VectorRecord.id <$> Segment.records a →
     scan_all st' = Ok (filter other (sealed_live ++ active_live))).
Proof.
  intros Hwf. cbv zeta.
  pose proof (exec_wf (Delete id) st Hwf) as Hwf'.
  change (exec (Delete id) st) with (fst (delete_vector id st)) in Hwf'.
  assert (scan_all (fst (delete_vector id st))
          = Ok ((if decide (id ∈ VectorRecord.id <$> Segment.records (active_segment_ st))
                 then sealed_segments_ st ≫= segment_live st
                 else filter (λ r, VectorRecord.id r ≠ id)
                        (sealed_segments_ st ≫= segment_live st))
                ++ filter (λ r, VectorRecord.id r ≠ id)
                     (filter (live_in (Segment.deleted (active_segment_ st)))
                        (Segment.records (active_segment_ st))))) as Hscan.
  { rewrite (scan_all_wf _ Hwf'). f_equal. unfold live_view.
    unfold delete_vector, modify. cbn [fst].
    case_decide as Hin.
    - apply has_id_elem_of in Hin. rewrite Hin. simpl.
      by rewrite filter_tombstone.
    - assert (has_id id (Segment.records (active_segment_ st)) = false) as Hhas.
      { apply not_true_is_false. by rewrite has_id_elem_of. }
      rewrite Hhas. simpl. f_equal.
      + by apply bind_tombstone.
      + symmetry. apply filter_other_absent.
        intros Hid. apply Hin.
        apply list_elem_of_fmap in Hid as (r & -> & Hr).
        apply list_elem_of_filter in Hr as [_ Hr].
        apply list_elem_of_fmap. by exists r. }
  split; [by apply scan_all_wf|]. split; [done|].
  intros Hout. rewrite Hscan, decide_False by done. by rewrite filter_app.
Qed.

(** *** compact *)

Lemma kept_rewritten_perm {B} threshold (g : SealedSegment.t → list B) segs :
  (kept threshold segs ≫= g) ++ (rewritten threshold segs ≫= g) ≡ₚ segs ≫= g.
Proof.
  induction segs as [|seg segs IH]; [done|].
  rewrite kept_cons, rewritten_cons, (bind_cons _ seg segs).
  destruct (qualifies threshold seg).
  - rewrite bind_cons. rewrite <- IH.
    rewrite !(assoc (++)). apply Permutation_app_tail, Permutation_app_comm.
  - rewrite bind_cons, <- (assoc (++)). by rewrite IH.
Qed.

Lemma kept_rewritten_sum threshold (g : SealedSegment.t → Z) segs :
  sum_with g (kept threshold segs) + sum_with g (rewritten threshold segs)
  = sum_with g segs.
Proof.
  induction segs as [|seg segs IH]; [done|].
  rewrite kept_cons, rewritten_cons, (sum_with_cons g seg segs).
  destruct (qualifies threshold seg); rewrite sum_with_cons; lia.
Qed.

Lemma length_bind_sum {A B} (g : A → list B) (l : list A) :
  Z.of_nat (length (l ≫= g)) = sum_with (λ x, Z.of_nat (length (g x))) l.
Proof.
  induction l as [|x l IH]; [done|].
  rewrite bind_cons, length_app, sum_with_cons. lia.
Qed.

Lemma sum_with_sub {A} (g h : A → Z) (l : list A) :
  sum_with (λ x, g x - h x) l = sum_with g l - sum_with h l.
Proof. induction l as [|x l IH]; [done|]. rewrite !sum_with_cons, IH. lia. Qed.

(** X12.  On a well-formed store [compact] neither loses nor resurrects a
    record: [scan_all] afterwards returns a permutation of what it returned
    before, namely the live rows of the kept segments, then those of the
    rewritten segments, then the live active records. *)
Theorem compact_keeps_live_records (threshold : F32.t) (st : t) :
  store_wf st →
  ∃ st' reclaimed old new,
    compact threshold st = (st', Ok reclaimed)
    ∧ scan_all st = Ok old
    ∧ scan_all st' = Ok new
    ∧ new ≡ₚ old
    ∧ new = (kept threshold (sealed_segments_ st) ≫= segment_live st)
            ++ (rewritten threshold (sealed_segments_ st) ≫= segment_live st)
            ++ filter (live_in (Segment.deleted (active_segment_ st)))
                 (Segment.records (active_segment_ st)).
Proof.
  intros Hwf.
  destruct (compact_wf threshold st Hwf)
    as (st' & Hc & Hwf' & _ & _ & _ & _ & _ & Hlive).
  exists st', (size_wrap (sum_with (dead_count st)
                            (rewritten threshold (sealed_segments_ st)))),
         (live_view st), (live_view st').
  split; [done|]. split; [by apply scan_all_wf|]. split; [by apply scan_all_wf|].
  split; [|done].
  rewrite Hlive. unfold live_view. rewrite (assoc (++)).
  apply Permutation_app_tail, kept_rewritten_perm.
Qed.

Lemma sum_with_ext {A} (g h : A → Z) (l : list A) :
  (∀ x, g x = h x) → sum_with g l = sum_with h l.
Proof.
  intros Hext. induction l as [|x l IH]; [done|]. by rewrite !sum_with_cons, IH, Hext.
Qed.

Lemma size_wrap_sub_r a b : size_wrap (a - size_wrap b) = size_wrap (a - b).
Proof. unfold size_wrap. apply Zminus_mod_idemp_r. Qed.

(** X13.  On a well-formed store the count [compact] returns is the
    number of tombstoned rows of the rewritten segments, modulo 2^64, and
    [total_records] drops by exactly that count, modulo 2^64. *)
Theorem compact_total_records (threshold : F32.t) (st : t) :
  store_wf st →
  ∃ st' reclaimed,
    compact threshold st = (st', Ok reclaimed)
    ∧ reclaimed = size_wrap (sum_with (dead_count st)
                               (rewritten threshold (sealed_segments_ st)))
    ∧ size_wrap (total_records st') = size_wrap (total_records st - reclaimed).
Proof.
  intros Hwf.
  destruct (compact_wf threshold st Hwf)
    as (st' & Hc & _ & _ & Hactive & Hsealed & _).
  eexists st', _. split; [exact Hc|]. split; [done|].
  rewrite size_wrap_sub_r, <- size_wrap_sub_l, !total_records_wrap, size_wrap_sub_l.
  rewrite Hactive, Hsealed, sum_with_app.
  rewrite <- (kept_rewritten_sum threshold SealedSegment.num_records (sealed_segments_ st)).
  set (dirty := rewritten threshold (sealed_segments_ st)).
  assert (sum_with SealedSegment.num_records
            (if decide (dirty ≫= segment_live st = []) then []
             else [merged_segment st (dirty ≫= segment_live st)])
          = sum_with SealedSegment.num_records dirty - sum_with (dead_count st) dirty)
    as ->.
  { rewrite <- sum_with_sub.
    rewrite (sum_with_ext (λ seg, SealedSegment.num_records seg - dead_count st seg)
               (λ seg, Z.of_nat (length (segment_live st seg))) dirty)
      by (intros seg; unfold dead_count; lia).
    rewrite <- length_bind_sum.
    destruct (decide (dirty ≫= segment_live st = [])) as [Hnil|Hnil]; [by rewrite Hnil|].
    rewrite sum_with_cons. simpl. lia. }
  f_equal. lia.
Qed.

(** *** compact, a second time *)

Lemma leb_div_zero (threshold y : F32.t) :
  F32.ltb F32.zero threshold = true →
  F32.leb threshold (F32.div F32.zero y) = false.
Proof.
  intros Hpos.
  destruct threshold as [s|s| |s m e]; try done; destruct s; try done;
    by destruct y as [sy|sy| |sy my ey].
Qed.

Lemma merged_segment_kept threshold st rows :
  F32.ltb F32.zero threshold = true →
  qualifies threshold (merged_segment st rows) = false.
Proof.
  intros Hpos. unfold qualifies, SealedSegment.tombstone_ratio, merged_segment.
  cbn [SealedSegment.num_records SealedSegment.deleted].
  destruct (_ =? 0).
  - by destruct threshold as [s|s| |s m e]; try done; destruct s.
  - rewrite size_empty. by apply leb_div_zero.
Qed.

Lemma rewritten_kept threshold segs : rewritten threshold (kept threshold segs) = [].
Proof.
  induction segs as [|seg segs IH]; [done|].
  rewrite kept_cons. destruct (qualifies threshold seg) eqn:Hq; [done|].
  by rewrite rewritten_cons, Hq.
Qed.

(** X14.  Compaction is stable for a positive threshold: on a well-formed
    store a second [compact] with the same threshold returns 0 and leaves
    the sealed segments, the active segment and the result of [scan_all] as
    the first left them.  The segment the first run wrote carries no
    tombstone, so its ratio is below any positive threshold. *)
Theorem compact_twice (threshold : F32.t) (st : t) :
  store_wf st →
  F32.ltb F32.zero threshold = true →
  ∃ st1 reclaimed st2,
    compact threshold st = (st1, Ok reclaimed)
    ∧ compact threshold st1 = (st2, Ok 0)
    ∧ sealed_segments_ st2 = sealed_segments_ st1
    ∧ active_segment_ st2 = active_segment_ st1
    ∧ scan_all st2 = scan_all st1.
Proof.
  intros Hwf Hpos.
  destruct (compact_wf threshold st Hwf)
    as (st1 & Hrun1 & Hwf1 & _ & _ & Hsealed1 & _).
  assert (rewritten threshold (sealed_segments_ st1) = []) as Hnone.
  { rewrite Hsealed1. unfold rewritten at 1. rewrite filter_app.
    fold (rewritten threshold (kept threshold (sealed_segments_ st))).
    rewrite rewritten_kept. case_decide; [done|].
    rewrite filter_cons_False, filter_nil; [done|].
    by rewrite merged_segment_kept. }
  destruct (compact_wf threshold st1 Hwf1)
    as (st2 & Hrun2 & Hwf2 & _ & Hactive2 & Hsealed2 & _ & _ & Hlive2).
  rewrite Hnone in Hrun2, Hsealed2, Hlive2.
  rewrite (rewritten_nil_kept _ _ Hnone) in Hsealed2, Hlive2.
  eexists st1, _, st2. split; [exact Hrun1|]. split; [exact Hrun2|].
  split; [by rewrite Hsealed2, app_nil_r|]. split; [done|].
  by rewrite !scan_all_wf, Hlive2.
Qed.

(** *** A store of dimension 0 *)

Lemma flush_zero_dim st :
  dim_ st = 0 →
  sealed_segments_ (fst (flush_active_segment_locked st)) = sealed_segments_ st.
Proof.
  intros Hdim. unfold flush_active_segment_locked.
  destruct (Segment.records (active_segment_ st)) as [|r rs]; [done|].
  unfold bind, write_parquet. destruct (columns (r :: rs)) as [[ids flat] metas].
  rewrite Hdim. done.
Qed.

Lemma append_zero_dim r st :
  dim_ st = 0 → sealed_segments_ (fst (append r st)) = sealed_segments_ st.
Proof.
  intros Hdim. unfold append, bind, modify, flush_if_full.
  destruct (_ <=? _); [|done].
  pose proof (flush_zero_dim (push_back r st) Hdim) as Hf.
  by destruct (flush_active_segment_locked (push_back r st)) as [st1 [[]|e]].
Qed.

Lemma bulk_insert_loop_zero_dim ids vectors dim n i st :
  dim_ st = 0 →
  sealed_segments_ (fst (bulk_insert_loop ids vectors dim n i st)) = sealed_segments_ st.
Proof.
  revert i st. induction n as [|n IH]; intros i st Hdim; [done|].
  cbn [bulk_insert_loop].
  destruct (slice vectors i dim) as [emb|]; [|done].
  destruct (ids !! i) as [id|]; [|done].
  pose proof (append_zero_dim (VectorRecord.mk id emb "") st Hdim) as Ha.
  pose proof (flush_if_full_dim (push_back (VectorRecord.mk id emb "") st)) as Hd.
  unfold append, bind, modify in *.
  destruct (flush_if_full _) as [st1 [[]|e]]; simpl in *; [|done].
  rewrite IH by congruence. done.
Qed.

(** X15.  A store opened with dimension 0 never seals a segment: in every
    state reachable from it there is no sealed segment, and [total_records]
    is the number of records of the active segment. *)
Theorem zero_dim_never_seals (st : t) :
  reachable st → dim_ st = 0 →
  sealed_segments_ st = [] ∧ total_records st
                             = Z.of_nat (length (Segment.records (active_segment_ st))).
Proof.
  intros Hreach Hdim.
  assert (sealed_segments_ st = []) as Hs; [|by unfold total_records; rewrite Hs].
  induction Hreach as [dim cap dir files|o st _ IH]; [done|].
  rewrite exec_dim in Hdim. specialize (IH Hdim).
  destruct o as [id emb meta|ids vectors count dim|id| |threshold]; simpl.
  - unfold insert. destruct (negb _); [done|].
    fold (append (VectorRecord.mk id emb meta)). by rewrite append_zero_dim.
  - unfold bulk_insert. destruct (negb _); [done|].
    by rewrite bulk_insert_loop_zero_dim.
  - unfold delete_vector, modify; simpl. destruct (has_id _ _); simpl; [done|].
    by rewrite IH.
  - by rewrite flush_zero_dim.
  - unfold compact, bind, get. rewrite IH. done.
Qed.

(** X16.  [insert] can fail after it has changed the store.  With
    dimension 0, once the active segment reaches its capacity, inserting
    the empty embedding throws the builder's "must be divisible by dim"
    error, and the record (id, empty embedding, metadata) stays appended:
    the active segment holds its old records followed by that record, and
    nothing else of the store has changed. *)
Theorem zero_dim_insert_not_atomic (id : Z) (metadata : string) (st : t) :
  dim_ st = 0 →
  segment_capacity_ st ≤ Z.of_nat (length (Segment.records (active_segment_ st))) + 1 →
  let a := active_segment_ st in
  let records := Segment.records a ++ [VectorRecord.mk id [] metadata] in
  insert id [] metadata st
  = (mk (dim_ st) (segment_capacity_ st) (data_dir_ st) (next_segment_id_ st)
        (Segment.mk (Segment.segment_id a) records (Segment.deleted a))
        (sealed_segments_ st) (snapshots_ st) (disk_ st),
     Throw (invalid_argument "flat_vectors.size() must be divisible by dim"))
  ∧ Segment.records (active_segment_ (fst (insert id [] metadata st))) = records
  ∧ size_wrap (total_records (fst (insert id [] metadata st)))
    = size_wrap (total_records st + 1).
Proof.
  intros Hdim Hcap a records.
  assert (insert id [] metadata st
          = (push_back (VectorRecord.mk id [] metadata) st,
             Throw (invalid_argument "flat_vectors.size() must be divisible by dim")))
    as Hrun.
  { unfold insert. rewrite Hdim. simpl (negb _).
    unfold bind, modify, flush_if_full.
    simpl (segment_capacity_ _). simpl (Segment.records _).
    rewrite length_app. simpl (length [_]).
    destruct (Z.leb_spec (segment_capacity_ st)
                (Z.of_nat (length (Segment.records (active_segment_ st)) + 1)))
      as [_|Hlt]; [|lia].
    unfold flush_active_segment_locked. simpl (Segment.records _).
    destruct (Segment.records (active_segment_ st) ++ [VectorRecord.mk id [] metadata])
      as [|r rs] eqn:Hrec; [by destruct (Segment.records (active_segment_ st))|].
    unfold bind, write_parquet. destruct (columns (r :: rs)) as [[ids flat] metas].
    simpl (dim_ _). rewrite Hdim. done. }
  rewrite Hrun. split; [done|]. split; [done|].
  cbn [fst]. apply push_back_totals.
Qed.

End StoreLaws.

(** ** vector_db.hpp, hnsw.hpp and arrow_batch.hpp *)

Module EngineLaws.
Import StoreSpec StoreFacts EngineSpec EngineFacts.

Section Engine.
Context `{HNSWIndex.Graph}.
Import VectorDB.

(** *** search *)

Lemma collect_take k all hrs results :
  Z.of_nat (length results) < k →
  collect k all hrs results
  = results ++ take (Z.to_nat k - length results) (omap (resolve all) hrs).
Proof.
  revert results. induction hrs as [|hr hrs IH]; intros results Hlt.
  - simpl. by rewrite take_nil, app_nil_r.
  - cbn [collect]. change (omap (resolve all) (hr :: hrs))
      with (match resolve all hr with
            | Some r => r :: omap (resolve all) hrs
            | None => omap (resolve all) hrs
            end).
    unfold resolve at 1.
    destruct (all !! Z.to_nat (HNSWIndex.id hr)) as [rec|]; cbn [fmap option_fmap option_map].
    + destruct (Z.leb_spec k (Z.of_nat (length (results ++
                 [mk_result (VectorRecord.id rec) (HNSWIndex.distance hr)
                    (VectorRecord.metadata rec)])))) as [Hle|Hgt];
        rewrite length_app in *; simpl in *.
      * replace (Z.to_nat k - length results)%nat with 1%nat by lia.
        by rewrite firstn_cons, take_0.
      * rewrite IH by (rewrite length_app; simpl; lia).
        rewrite length_app, <- (assoc (++)). simpl. f_equal.
        replace (Z.to_nat k - length results)%nat
          with (S (Z.to_nat k - (length results + 1)))%nat by lia.
        by rewrite firstn_cons.
    + destruct (Z.leb_spec k (Z.of_nat (length results))) as [Hle|Hgt]; [lia|].
      by apply IH.
Qed.

Lemma collect_zero all hrs :
  collect 0 all hrs [] = omap (resolve all) (take 1 hrs).
Proof.
  destruct hrs as [|hr hrs]; [done|].
  cbn [collect take]. rewrite take_0.
  change (omap (resolve all) [hr])
    with (match resolve all hr with
          | Some r => [r]
          | None => []
          end).
  unfold resolve. by destruct (all !! Z.to_nat (HNSWIndex.id hr)).
Qed.

(** X18.  What [search] returns on a well-formed store for a query of the
    right dimension.  It leaves the store as it was and the index with
    [ef_search_] set to [max(2k mod 2^64, 50)] and nothing else changed,
    and asks that index for that many candidates.  A candidate with node id
    [i] resolves to the id and metadata of the [i]-th record of [scan_all],
    with the candidate's distance; a candidate at or past the number of
    live records is skipped.  For [k >= 1] the result is the first [k]
    candidates that resolve, in candidate order.  For [k = 0] it is the
    first candidate alone when that one resolves, and empty otherwise. *)
Theorem search_resolves_by_position (query : list F32.t) (k : Z) (db : t) :
  store_wf (store_ db) →
  Z.of_nat (length query) = dim_ db →
  0 ≤ k →
  let ef := Z.max (size_wrap (k * 2)) 50 in
  let h0 := hnsw_ db in
  let h := HNSWIndex.mk (HNSWIndex.dim_ h0) (HNSWIndex.M_ h0) (HNSWIndex.M_max0_ h0)
             (HNSWIndex.ef_construction_ h0) ef (HNSWIndex.vectors_ h0)
             (HNSWIndex.links_ h0) in
  let candidates := HNSWIndex.search query ef h in
  ∃ all_records,
    IcebergStore.scan_all (store_ db) = Ok all_records
    ∧ search query k db
      = (mk (dim_ db) (store_ db) h,
         Ok (if decide (k = 0)
             then omap (resolve all_records) (take 1 candidates)
             else take (Z.to_nat k) (omap (resolve all_records) candidates)))
    ∧ HNSWIndex.ef_search_ (hnsw_ (fst (search query k db))) = ef.
Proof.
  intros Hwf Hlen Hk ef h0 h candidates. exists (live_view (store_ db)).
  split; [by apply scan_all_wf|].
  assert (search query k db
          = (mk (dim_ db) (store_ db) h,
             Ok (if decide (k = 0)
                 then omap (resolve (live_view (store_ db))) (take 1 candidates)
                 else take (Z.to_nat k)
                        (omap (resolve (live_view (store_ db))) candidates)))) as Hrun.
  { unfold search. rewrite Hlen, Z.eqb_refl. simpl negb. cbv iota zeta.
    cbn [store_ set_hnsw hnsw_]. rewrite (scan_all_wf _ Hwf).
    fold ef. unfold HNSWIndex.set_ef_search. fold h0 h candidates.
    do 2 f_equal. case_decide as Hzero.
    - subst k. apply collect_zero.
    - rewrite collect_take by (simpl; lia).
      simpl. by rewrite Nat.sub_0_r. }
  split; [exact Hrun|]. rewrite Hrun. done.
Qed.

(** *** The index follows the store *)

Lemma set_store_same (db : t) : set_store (store_ db) db = db.
Proof. by destruct db. Qed.

Lemma chunks_length {A} (n d : nat) (buf : list A) : length (chunks n d buf) = n.
Proof. revert buf. induction n as [|n IH]; intros buf; simpl; [done|]. by rewrite IH. Qed.

Lemma batch_records_embedding ids vectors dim :
  VectorRecord.embedding <$> batch_records ids vectors dim
  = chunks (length ids) (Z.to_nat dim) vectors.
Proof.
  revert vectors. induction ids as [|id ids IH]; intros vectors; [done|].
  rewrite batch_records_cons, fmap_cons, IH. done.
Qed.

Lemma index_rows_spec floats dim n i (h : HNSWIndex.t HNSWIndex.Links) :
  0 ≤ dim → ((i + n) * Z.to_nat dim ≤ length floats)%nat →
  index_rows floats dim n i h
  = Ok (HNSWIndex.build (chunks n (Z.to_nat dim) (drop (i * Z.to_nat dim) floats)) h).
Proof.
  intros Hdim. revert i h. induction n as [|n IH]; intros i h Hlen; [done|].
  cbn [index_rows chunks].
  destruct (slice_in_range floats i dim n Hdim Hlen) as [-> _].
  rewrite IH by lia. rewrite drop_drop.
  replace (i * Z.to_nat dim + Z.to_nat dim)%nat with (S i * Z.to_nat dim)%nat by lia.
  done.
Qed.

(** X19.  [VectorDB::insert] on a well-formed store: when the embedding
    has the store's dimension it returns, the store holds one more row and
    the index one more node, with the same embedding, so an index that was
    aligned with the stored rows stays aligned; otherwise it throws
    "Dimension mismatch" and neither the store nor the index changes. *)
Theorem insert_keeps_index_in_step (id : Z) (embedding : list F32.t)
    (metadata : string) (db : t) :
  store_wf (store_ db) →
  if decide (Z.of_nat (length embedding) = IcebergStore.dim_ (store_ db)) then
    ∃ db',
      insert id embedding metadata db = (db', Ok tt)
      ∧ store_wf (store_ db')
      ∧ all_rows (store_ db')
        = all_rows (store_ db) ++ [VectorRecord.mk id embedding metadata]
      ∧ HNSWIndex.vectors_ (hnsw_ db') = HNSWIndex.vectors_ (hnsw_ db) ++ [embedding]
      ∧ index_size db' = index_size db + 1
      ∧ (aligned db → aligned db')
  else
    insert id embedding metadata db = (db, Throw (invalid_argument "Dimension mismatch")).
Proof.
  intros Hwf. case_decide as Hlen.
  - destruct (append_wf (VectorRecord.mk id embedding metadata) (store_ db) Hwf Hlen)
      as (st' & Happ & Hwf' & _ & Hall & _).
    unfold insert, on_store. rewrite insert_append, Happ by done.
    eexists. split; [done|]. cbn [store_ hnsw_ set_hnsw set_store fst HNSWIndex.insert].
    split; [done|]. split; [done|]. split; [done|]. split.
    + unfold index_size, HNSWIndex.size. simpl. rewrite length_app. simpl. lia.
    + unfold aligned. simpl. intros ->. by rewrite Hall, fmap_app.
  - unfold insert, on_store, IcebergStore.insert.
    destruct (Z.eqb_spec (Z.of_nat (length embedding)) (IcebergStore.dim_ (store_ db)));
      [done|].
    simpl. by rewrite set_store_same.
Qed.

Lemma ingest_batch_run (batch : RecordBatch.t) (ids : list Z) (floats : list F32.t)
    (db : t) :
  store_wf (store_ db) →
  IcebergStore.dim_ (store_ db) = dim_ db →
  dim_ db < 2 ^ 31 →
  RecordBatch.GetColumnByName "id" batch = Some (RecordBatch.UInt64Array ids) →
  RecordBatch.GetColumnByName "embedding" batch
  = Some (RecordBatch.FixedSizeListArray (dim_ db) floats) →
  RecordBatch.num_rows batch = Z.of_nat (length ids) →
  Z.of_nat (length floats) = Z.of_nat (length ids) * dim_ db →
  ∃ st',
    ingest_batch batch db
    = (set_hnsw (HNSWIndex.build (chunks (length ids) (Z.to_nat (dim_ db)) floats)
                   (hnsw_ db))
         (set_store st' db),
       Ok (Z.of_nat (length ids)))
    ∧ store_wf st'
    ∧ all_rows st' = all_rows (store_ db) ++ batch_records ids floats (dim_ db).
Proof.
  intros Hwf Hdim Hsmall Hid Hemb Hrows Hlen.
  pose proof (wf_dim _ Hwf) as Hpos. rewrite Hdim in Hpos.
  unfold ingest_batch. rewrite Hid, Hemb, to_int32_small, Z.eqb_refl by lia.
  simpl negb. cbv iota. rewrite Hrows. unfold on_store.
  rewrite <- Hdim in Hlen |- *.
  destruct (bulk_insert_wf ids floats (store_ db) Hwf Hlen)
    as (st' & news & Hrun & Hwf' & _ & Hall & _).
  rewrite Hrun, Nat2Z.id.
  rewrite index_rows_spec by (lia || (simpl; nia)).
  exists st'. by rewrite drop_0.
Qed.

(** X20.  A batch of [n] rows ingested into a well-formed store adds to
    the index the [n] embeddings of the batch records, in row order, after
    the nodes it had: [index_size] grows by [n], and an index that was
    aligned with the stored rows stays aligned. *)
Theorem ingest_batch_keeps_index_in_step (batch : RecordBatch.t) (ids : list Z)
    (floats : list F32.t) (db : t) :
  store_wf (store_ db) →
  IcebergStore.dim_ (store_ db) = dim_ db →
  dim_ db < 2 ^ 31 →
  RecordBatch.GetColumnByName "id" batch = Some (RecordBatch.UInt64Array ids) →
  RecordBatch.GetColumnByName "embedding" batch
  = Some (RecordBatch.FixedSizeListArray (dim_ db) floats) →
  RecordBatch.num_rows batch = Z.of_nat (length ids) →
  Z.of_nat (length floats) = Z.of_nat (length ids) * dim_ db →
  ∃ db',
    ingest_batch batch db = (db', Ok (Z.of_nat (length ids)))
    ∧ HNSWIndex.vectors_ (hnsw_ db')
      = HNSWIndex.vectors_ (hnsw_ db)
        ++ (VectorRecord.embedding <$> batch_records ids floats (dim_ db))
    ∧ index_size db' = index_size db + Z.of_nat (length ids)
    ∧ (aligned db → aligned db').
Proof.
  intros Hwf Hdim Hsmall Hid Hemb Hrows Hlen.
  destruct (ingest_batch_run batch ids floats db Hwf Hdim Hsmall Hid Hemb Hrows Hlen)
    as (st' & Hrun & Hwf' & Hall).
  eexists. split; [exact Hrun|].
  cbn [hnsw_ store_ set_hnsw set_store].
  destruct (build_spec (chunks (length ids) (Z.to_nat (dim_ db)) floats) (hnsw_ db))
    as (Hvec & _).
  rewrite batch_records_embedding. split; [done|]. split.
  - unfold index_size, HNSWIndex.size. cbn [hnsw_ set_hnsw].
    rewrite Hvec, length_app, chunks_length. lia.
  - unfold aligned. cbn [hnsw_ store_ set_hnsw set_store]. intros Hal.
    by rewrite Hvec, Hal, Hall, fmap_app, batch_records_embedding.
Qed.

Lemma delete_vector_all_rows id st :
  all_rows (fst (IcebergStore.delete_vector id st)) = all_rows st.
Proof.
  unfold IcebergStore.delete_vector, IcebergStore.modify, all_rows. cbn [fst].
  destruct (IcebergStore.has_id _ _); simpl; [done|]. f_equal.
  induction (IcebergStore.sealed_segments_ st) as [|seg segs IH]; [done|].
  rewrite fmap_cons, !bind_cons. f_equal. apply IH.
Qed.

(** X21.  [delete_vector] and [flush] leave the index untouched and the
    stored rows in place, so an index aligned with the stored rows stays
    aligned (while [scan_all], which [search] resolves against, may have
    lost records). *)
Theorem delete_and_flush_keep_aligned (id : Z) (db : t) :
  store_wf (store_ db) → aligned db →
  aligned (fst (delete_vector id db))
  ∧ aligned (fst (flush db))
  ∧ hnsw_ (fst (delete_vector id db)) = hnsw_ db
  ∧ hnsw_ (fst (flush db)) = hnsw_ db.
Proof.
  intros Hwf Hal. unfold aligned, delete_vector, flush, on_store in *.
  pose proof (delete_vector_all_rows id (store_ db)) as Hdel.
  destruct (IcebergStore.delete_vector id (store_ db)) as [st1 r1].
  assert (all_rows (fst (IcebergStore.flush (store_ db))) = all_rows (store_ db)) as Hfl.
  { unfold IcebergStore.flush.
    destruct (decide (Segment.records (IcebergStore.active_segment_ (store_ db)) = []))
      as [Hrec|Hrec].
    - unfold IcebergStore.flush_active_segment_locked. by rewrite Hrec.
    - rewrite flush_ok by (done || apply Hwf). by apply seal_wf. }
  destruct (IcebergStore.flush (store_ db)) as [st2 r2].
  simpl in *. by rewrite Hdel, Hfl.
Qed.

(** *** From the builder to the engine *)

Lemma built_batch_columns ids flat dim metas :
  dim ≠ 0 → Z.of_nat (length flat) mod dim = 0 →
  ∃ batch,
    built_batch ids flat dim metas = Ok batch
    ∧ RecordBatch.num_rows batch = Z.of_nat (length ids)
    ∧ RecordBatch.GetColumnByName "id" batch = Some (RecordBatch.UInt64Array ids)
    ∧ RecordBatch.GetColumnByName "embedding" batch
      = Some (RecordBatch.FixedSizeListArray dim flat)
    ∧ RecordBatch.GetColumnByName "metadata" batch
      = Some (RecordBatch.StringArray metas).
Proof.
  intros Hdim Hmod. unfold built_batch, RecordBatchBuilder.add_id_column,
    RecordBatchBuilder.add_vector_column, RecordBatchBuilder.add_string_column.
  destruct (Z.eqb_spec dim 0) as [|_]; [done|]. rewrite Hmod. simpl.
  eexists. split; [done|]. done.
Qed.

(** X22.  From the builder to the engine: the batch built from [n] ids,
    [n * dim_] floats and [n] metadata strings is accepted by
    [ingest_batch], which returns [n], stores the [n] batch records after
    the rows it had, and grows the index by [n]. *)
Theorem built_batch_is_ingested (ids : list Z) (flat : list F32.t) (metas : list string)
    (db : t) :
  store_wf (store_ db) →
  IcebergStore.dim_ (store_ db) = dim_ db →
  dim_ db < 2 ^ 31 →
  Z.of_nat (length flat) = Z.of_nat (length ids) * dim_ db →
  length metas = length ids →
  ∃ batch db',
    built_batch ids flat (dim_ db) metas = Ok batch
    ∧ ingest_batch batch db = (db', Ok (Z.of_nat (length ids)))
    ∧ all_rows (store_ db')
      = all_rows (store_ db) ++ batch_records ids flat (dim_ db)
    ∧ index_size db' = index_size db + Z.of_nat (length ids).
Proof.
  intros Hwf Hdim Hsmall Hlen _.
  pose proof (wf_dim _ Hwf) as Hpos. rewrite Hdim in Hpos.
  destruct (built_batch_columns ids flat (dim_ db) metas) as (batch & Hb & Hn & Hi & He & _).
  { lia. }
  { rewrite Hlen. apply Z.mod_mul. lia. }
  destruct (ingest_batch_run batch ids flat db Hwf Hdim Hsmall Hi He Hn Hlen)
    as (st' & Hrun & Hwf' & Hall).
  eexists batch, _. split; [done|]. split; [exact Hrun|].
  cbn [hnsw_ store_ set_hnsw set_store]. split; [done|].
  destruct (build_spec (chunks (length ids) (Z.to_nat (dim_ db)) flat) (hnsw_ db))
    as (Hvec & _).
  unfold index_size, HNSWIndex.size. cbn [hnsw_ set_hnsw].
  rewrite Hvec, length_app, chunks_length. lia.
Qed.

End Engine.
End EngineLaws.

(** ** The squared-distance kernels of hnsw.hpp, distances.cpp and lsh.hpp *)

Module KernelFacts.
Import KernelSpec.

(** *** binary32 arithmetic *)

Lemma f32_sub_self (x : F32.t) : is_finite x = true → F32.sub x x = F32.zero.
Proof.
  destruct x as [s|s| |s m e]; try done; intros _.
  - by destruct s.
  - unfold F32.sub, SFsub. by rewrite Z.sub_diag.
Qed.

Lemma f32_mul_comm (x y : F32.t) : F32.mul x y = F32.mul y x.
Proof.
  destruct x as [sx|sx| |sx mx ex], y as [sy|sy| |sy my ey]; simpl;
    rewrite ?(xorb_comm sx sy); try done.
  by rewrite (Pos.mul_comm mx my), (Z.add_comm ex ey).
Qed.







Lemma round_aux_not_negative m e l :
  not_negative (binary_round_aux F32.prec F32.emax false m e l) = true.
Proof.
  unfold binary_round_aux.
  destruct (shr_fexp _ _ m e l) as [mrs' e'].
  destruct (shr_fexp _ _ _ e' loc_Exact) as [mrs'' e''].
  destruct (shr_m mrs''); simpl; try done.
  by destruct (_ <=? _)%Z.
Qed.

Lemma square_not_negative (d : F32.t) : not_negative (F32.mul d d) = true.
Proof.
  destruct d as [s|s| |s m e]; simpl; try done; try by destruct s.
  rewrite xorb_nilpotent. apply round_aux_not_negative.
Qed.

Lemma add_not_negative (x y : F32.t) :
  not_negative x = true → not_negative y = true → not_negative (F32.add x y) = true.
Proof.
  destruct x as [sx|sx| |sx mx ex], y as [sy|sy| |sy my ey];
    try (destruct sx, sy; simpl; by auto);
    try (destruct sx; simpl; by auto);
    try (destruct sy; simpl; by auto); try done.
  destruct sx, sy; try done. intros _ _.
  unfold F32.add, SFadd. cbn [cond_Zopp].
  change (Z.pos ?a + Z.pos ?b) with (Z.pos (a + b)). cbn [binary_normalize].
  unfold binary_round. destruct (shl_align _ _ _) as [mz ez].
  apply round_aux_not_negative.
Qed.

Lemma not_negative_ltb (x : F32.t) :
  not_negative x = true → F32.ltb x F32.zero = false.
Proof. destruct x as [s|s| |s m e]; try done; by destruct s. Qed.

(** *** HNSWIndex::distance_sq *)

Lemma distance_sq_loop_self (a : list F32.t) (n i : nat) :
  Forall (λ x, is_finite x = true) a → (i + n ≤ length a)%nat →
  HNSWIndex.distance_sq_loop a a n i F32.zero = Some F32.zero.
Proof.
  intros Hfin. revert i. induction n as [|n IH]; intros i Hlen; [done|].
  cbn [HNSWIndex.distance_sq_loop].
  destruct (lookup_lt_is_Some_2 a i) as [x Hx]; [lia|]. rewrite Hx.
  rewrite f32_sub_self by (by eapply (proj1 (Forall_lookup _ _) Hfin)).
  apply IH. lia.
Qed.


Lemma distance_sq_loop_not_negative (a b : list F32.t) (n i : nat) (sum d : F32.t) :
  not_negative sum = true →
  HNSWIndex.distance_sq_loop a b n i sum = Some d → not_negative d = true.
Proof.
  revert i sum. induction n as [|n IH]; intros i sum Hsum Hloop.
  - by inversion Hloop; subst.
  - cbn [HNSWIndex.distance_sq_loop] in Hloop.
    destruct (a !! i) as [x|], (b !! i) as [y|]; try done.
    eapply IH; [|exact Hloop].
    apply add_not_negative; [done|apply square_not_negative].
Qed.

(** *** l2_distance_naive *)





Lemma naive_loop_self (contract : bool) (a : list F32.t) (n i : nat) :
  Forall (λ x, is_finite x = true) a → (i + n ≤ length a)%nat →
  Distances.l2_distance_naive_loop contract a a n i F32.zero = Some F32.zero.
Proof.
  intros Hfin. revert i. induction n as [|n IH]; intros i Hlen; [done|].
  cbn [Distances.l2_distance_naive_loop].
  destruct (lookup_lt_is_Some_2 a i) as [x Hx]; [lia|]. rewrite Hx. cbv zeta.
  rewrite f32_sub_self by (by eapply (proj1 (Forall_lookup _ _) Hfin)).
  replace (Distances.accumulate contract F32.zero F32.zero) with F32.zero
    by (by destruct contract).
  apply IH. lia.
Qed.

(** *** When the result is a number *)











(** X23.  The squared distance of a vector of finite floats to itself is
    exactly [+0], for [HNSWIndex::distance_sq] and for
    [l2_distance_naive], whether or not its product and sum were fused. *)
Theorem distance_sq_to_itself (dim : Z) (a : list F32.t) :
  Forall (λ x, is_finite x = true) a → dim ≤ Z.of_nat (length a) →
  HNSWIndex.distance_sq dim a a = Some F32.zero
  ∧ ∀ contract, Distances.l2_distance_naive contract a a dim = Some F32.zero.
Proof.
  intros Hfin Hdim. split.
  - unfold HNSWIndex.distance_sq. apply distance_sq_loop_self; [done|lia].
  - intros contract. unfold Distances.l2_distance_naive.
    apply naive_loop_self; [done|lia].
Qed.


(** X25.  Whatever the inputs, infinities and NaNs included, a squared
    distance that [distance_sq] returns is never below zero: it is a zero,
    a positive number, [+inf] or a NaN. *)
Theorem distance_sq_never_negative (dim : Z) (a b : list F32.t) (d : F32.t) :
  HNSWIndex.distance_sq dim a b = Some d →
  F32.ltb d F32.zero = false ∧ not_negative d = true.
Proof.
  intros Hd. apply distance_sq_loop_not_negative in Hd; [|done].
  split; [by apply not_negative_ltb|done].
Qed.

(** *** EuclideanLSH::l2_squared *)

Lemma l2_squared_loop_spec (a a' b : list F32.t) (i : nat) (sum : F32.t) :
  a' = drop i a →
  EuclideanLSH.l2_squared_loop a' b i sum
  = HNSWIndex.distance_sq_loop a b (length a') i sum.
Proof.
  revert i sum. induction a' as [|x a' IH]; intros i sum Hdrop; [done|].
  cbn [EuclideanLSH.l2_squared_loop HNSWIndex.distance_sq_loop length].
  assert (a !! i = Some x) as Hx.
  { rewrite <- (Nat.add_0_r i), <- lookup_drop, <- Hdrop. done. }
  rewrite Hx. destruct (b !! i) as [y|]; [|done].
  apply IH. replace (S i) with (i + 1)%nat by lia.
  by rewrite <- drop_drop, <- Hdrop.
Qed.

(** X26.  [EuclideanLSH::l2_squared a b] computes what
    [HNSWIndex::distance_sq] computes over the length of [a]; it reads
    past the end of [b] exactly when [b] is shorter than [a]. *)
Theorem l2_squared_is_distance_sq (a b : list F32.t) :
  EuclideanLSH.l2_squared a b
  = match HNSWIndex.distance_sq (Z.of_nat (length a)) a b with
    | Some d => Ok d
    | None => Throw out_of_bounds
    end
  ∧ (EuclideanLSH.l2_squared a b = Throw out_of_bounds ↔ (length b < length a)%nat).
Proof.
  assert (EuclideanLSH.l2_squared a b
          = match HNSWIndex.distance_sq (Z.of_nat (length a)) a b with
            | Some d => Ok d
            | None => Throw out_of_bounds
            end) as Heq.
  { unfold EuclideanLSH.l2_squared, HNSWIndex.distance_sq.
    by rewrite (l2_squared_loop_spec a a b 0), Nat2Z.id. }
  split; [exact Heq|]. rewrite Heq. unfold HNSWIndex.distance_sq. rewrite Nat2Z.id.
  assert (∀ n i sum, (i + n ≤ length a)%nat → (i ≤ length b)%nat →
            HNSWIndex.distance_sq_loop a b n i sum = None ↔ (length b < i + n)%nat)
    as Hloop.
  { induction n as [|n IH]; intros i sum Hlen Hi.
    - simpl. split; [done|lia].
    - cbn [HNSWIndex.distance_sq_loop].
      destruct (lookup_lt_is_Some_2 a i) as [x Hx]; [lia|]. rewrite Hx.
      destruct (b !! i) as [y|] eqn:Hy.
      + apply lookup_lt_Some in Hy. rewrite IH by lia. lia.
      + apply lookup_ge_None in Hy. split; [lia|done]. }
  specialize (Hloop (length a) 0%nat F32.zero (le_n _) (Nat.le_0_l _)).
  destruct (HNSWIndex.distance_sq_loop a b (length a) 0 F32.zero) as [d|].
  - split; [done|]. intros Hlt. apply Hloop in Hlt. done.
  - split; [|done]. intros _. by apply Hloop.
Qed.

End KernelFacts.

(** ** lsh.hpp *)

Module LSHLaws.
Import RandomHyperplaneLSH LSHSpec LSHFacts KernelSpec KernelFacts.

(** *** cosine_sim *)

Lemma inner_swap (x y : list F32.t) (acc : F32.t) :
  fold_left dot_step (zip y x) acc = fold_left dot_step (zip x y) acc.
Proof.
  revert y acc. induction x as [|a x IH]; intros [|b y] acc; try done.
  cbn [zip zip_with fold_left].
  assert (dot_step acc (b, a) = dot_step acc (a, b)) as ->.
  { unfold dot_step. simpl. by rewrite (f32_mul_comm b a). }
  apply IH.
Qed.

(** X27.  On vectors of equal length [cosine_sim] is symmetric bit for
    bit. *)
Theorem cosine_sim_symmetric (a b : list F32.t) :
  length a = length b → cosine_sim b a = cosine_sim a b.
Proof.
  intros Hlen. unfold cosine_sim.
  rewrite (cosine_loop_spec a b 0), (cosine_loop_spec b a 0) by (by rewrite drop_0).
  rewrite !drop_0, (inner_swap a b).
  by rewrite (f32_mul_comm (F32.sqrt (fold_left dot_step (zip b b) F32.zero))).
Qed.

Lemma inner_zero (a : list F32.t) :
  Forall (λ x, is_zero x = true) a →
  fold_left dot_step (zip a a) F32.zero = F32.zero.
Proof.
  induction 1 as [|x a Hx _ IH]; [done|].
  cbn [zip zip_with fold_left].
  assert (dot_step F32.zero (x, x) = F32.zero) as ->; [|done].
  unfold dot_step. simpl. destruct x as [s| | |]; try done. by destruct s.
Qed.

(** X28.  [cosine_sim] of a vector of zeros (of either sign) with any
    vector of the same length, in either order, is [0.0]: the guard on the
    denominator keeps the division from running, also when the other
    vector holds infinities or NaNs. *)
Theorem cosine_sim_zero_vector (a b : list F32.t) :
  Forall (λ x, is_zero x = true) a → length a = length b →
  cosine_sim a b = Ok F32.zero ∧ cosine_sim b a = Ok F32.zero.
Proof.
  intros Hzero Hlen.
  assert (cosine_sim a b = Ok F32.zero) as Hab.
  { unfold cosine_sim.
    rewrite (cosine_loop_spec a b 0) by (by rewrite drop_0).
    rewrite !drop_0, (inner_zero a Hzero).
    change (F32.sqrt F32.zero) with F32.zero.
    destruct (F32.sqrt _) as [s|s| |s m e]; try done. }
  split; [exact Hab|].
  unfold cosine_sim.
  rewrite (cosine_loop_spec b a 0) by (by rewrite drop_0).
  rewrite !drop_0, (inner_zero a Hzero).
  change (F32.sqrt F32.zero) with F32.zero.
  destruct (F32.sqrt _) as [s|s| |s m e]; try done.
Qed.

(** *** hash, build and the candidates of query *)

Lemma bucket_insert tables (tb : nat) table sig i tb' sig' :
  tables !! tb = Some table →
  bucket (<[tb := push_back sig i table]> tables) tb' sig'
  = bucket tables tb' sig' ++ (if decide (tb' = tb ∧ sig' = sig) then [i] else []).
Proof.
  intros Htb. unfold bucket.
  destruct (decide (tb' = tb)) as [->|Hne].
  - rewrite list_lookup_insert_eq by (by eapply lookup_lt_Some).
    rewrite Htb. simpl. unfold push_back.
    destruct (decide (sig' = sig)) as [->|Hsig].
    + rewrite lookup_insert_eq, decide_True by done. done.
    + rewrite lookup_insert_ne by done.
      rewrite decide_False, app_nil_r by (by intros [_ ?]). done.
  - rewrite list_lookup_insert_ne by done.
    rewrite decide_False, app_nil_r by (by intros [? _]). done.
Qed.

Lemma build_tables_spec st vec i n tb tables tables' :
  build_tables st vec i n tb tables = Some tables' →
  length tables' = length tables
  ∧ (n = 0 ∨ tb + n ≤ length tables)%nat
  ∧ (∀ tb', (tb ≤ tb' < tb + n)%nat → is_Some (hash vec tb' st))
  ∧ ∀ tb' sig,
      bucket tables' tb' sig
      = bucket tables tb' sig
        ++ (if decide ((tb ≤ tb' < tb + n)%nat ∧ hash vec tb' st = Some sig)
            then [i] else []).
Proof.
  revert tb tables. induction n as [|n IH]; intros tb tables Hrun.
  - inversion Hrun; subst. split; [done|]. split; [by left|].
    split; [intros tb' ?; lia|].
    intros tb' sig. rewrite decide_False, app_nil_r by lia. done.
  - cbn [build_tables] in Hrun.
    destruct (hash vec tb st) as [sig0|] eqn:Hhash; [|done].
    destruct (tables !! tb) as [table|] eqn:Htb; [|done].
    apply IH in Hrun as (Hlen & Hbound & Hsome & Hbucket).
    rewrite length_insert in Hlen, Hbound. split; [done|]. split.
    { right. apply lookup_lt_Some in Htb. lia. }
    split.
    + intros tb' Htb'. destruct (decide (tb' = tb)) as [->|Hne]; [by rewrite Hhash|].
      apply Hsome. lia.
    + intros tb' sig. rewrite Hbucket, (bucket_insert _ _ _ _ _ _ _ Htb).
      rewrite <- (assoc (++)). f_equal.
      destruct (decide (tb' = tb ∧ sig = sig0)) as [[E1 E2]|Hn1];
        destruct (decide ((S tb ≤ tb' < S tb + n)%nat ∧ hash vec tb' st = Some sig))
          as [[Hr Hh]|Hn2];
        destruct (decide ((tb ≤ tb' < tb + S n)%nat ∧ hash vec tb' st = Some sig))
          as [[Hr' Hh']|Hn3];
        try done; try lia; exfalso.
      * apply Hn3. subst. split; [lia|done].
      * apply Hn3. split; [lia|done].
      * destruct (decide (tb' = tb)) as [->|Hne].
        -- apply Hn1. split; [done|]. rewrite Hhash in Hh'. by inversion Hh'.
        -- apply Hn2. split; [lia|done].
Qed.

Lemma build_loop_spec st vectors i tables tables' :
  build_loop st vectors i tables = Some tables' →
  length tables' = length tables
  ∧ (vectors = [] ∨ Z.to_nat (num_tables_ st) ≤ length tables)%nat
  ∧ (∀ j vec tb, vectors !! j = Some vec → (tb < Z.to_nat (num_tables_ st))%nat →
       is_Some (hash vec tb st))
  ∧ ∀ tb sig x,
      x ∈ bucket tables' tb sig
      ↔ x ∈ bucket tables tb sig
        ∨ ∃ j vec, x = Z.of_nat (i + j) ∧ vectors !! j = Some vec
                   ∧ (tb < Z.to_nat (num_tables_ st))%nat
                   ∧ hash vec tb st = Some sig.
Proof.
  revert i tables. induction vectors as [|vec vectors IH]; intros i tables Hrun.
  - inversion Hrun; subst. split; [done|]. split; [by left|]. split; [done|].
    intros tb sig x. split; [by left|]. intros [Hx|(j & v & _ & Hj & _)]; done.
  - cbn [build_loop] in Hrun.
    destruct (build_tables st vec (Z.of_nat i) _ 0 tables) as [tables1|] eqn:Hinner;
      [|done].
    apply build_tables_spec in Hinner as (Hlen1 & Hbound1 & Hsome1 & Hbucket1).
    apply IH in Hrun as (Hlen & _ & Hsome & Hbucket).
    split; [congruence|]. split; [right; lia|]. split.
    + intros [|j] v tb Hj Htb; simpl in Hj.
      * inversion Hj; subst. apply Hsome1. lia.
      * by eapply Hsome.
    + intros tb sig x. rewrite Hbucket, Hbucket1, elem_of_app. split.
      * intros [[Hx|Hx]|(j & v & -> & Hj & Htb & Hh)].
        -- by left.
        -- right. case_decide as Hd; [|by apply elem_of_nil in Hx].
           apply list_elem_of_singleton in Hx as ->. destruct Hd as [Htb Hh].
           exists 0%nat, vec. rewrite Nat.add_0_r. split; [done|]. split; [done|].
           split; [lia|done].
        -- right. exists (S j), v. split; [f_equal; lia|done].
      * intros [Hx|([|j] & v & -> & Hj & Htb & Hh)]; [|simpl in Hj..].
        -- by left; left.
        -- inversion Hj; subst. left; right.
           rewrite decide_True by (split; [lia|done]).
           rewrite Nat.add_0_r. by apply list_elem_of_singleton.
        -- right. exists j, v. split; [f_equal; lia|done].
Qed.

Lemma candidates_loop_spec st q n tb cs cs' :
  candidates_loop st q n tb cs = Some cs' →
  ∀ x, x ∈ cs'
       ↔ x ∈ cs ∨ ∃ tb' sig, (tb ≤ tb' < tb + n)%nat ∧ hash q tb' st = Some sig
                             ∧ x ∈ bucket (tables_ st) tb' sig.
Proof.
  revert tb cs. induction n as [|n IH]; intros tb cs Hrun x.
  - inversion Hrun; subst. split; [by left|]. intros [Hx|(tb' & sig & ? & _)]; [done|lia].
  - cbn [candidates_loop] in Hrun.
    destruct (hash q tb st) as [sig0|] eqn:Hhash; [|done].
    destruct (tables_ st !! tb) as [table|] eqn:Htb; [|done].
    rewrite (IH _ _ Hrun), elem_of_union, elem_of_list_to_set.
    assert (default [] (table !! sig0) = bucket (tables_ st) tb sig0) as ->.
    { unfold bucket. by rewrite Htb. }
    split.
    + intros [[Hx|Hx]|(tb' & sig & Htb' & Hh & Hx)].
      * by left.
      * right. exists tb, sig0. split; [lia|done].
      * right. exists tb', sig. split; [lia|done].
    + intros [Hx|(tb' & sig & Htb' & Hh & Hx)]; [by left; left|].
      destruct (decide (tb' = tb)) as [->|Hne].
      * left; right. rewrite Hhash in Hh. by inversion Hh; subst.
      * right. exists tb', sig. split; [lia|done].
Qed.

Lemma bucket_cleared (tables : list (gmap (list Z) (list Z))) tb sig :
  bucket ((λ _, ∅) <$> tables) tb sig = [].
Proof.
  unfold bucket. rewrite list_lookup_fmap.
  by destruct (tables !! tb).
Qed.

Lemma hash_build vectors st st' vec tb :
  build vectors st = Some st' → hash vec tb st' = hash vec tb st.
Proof.
  unfold build. destruct (build_loop _ _ _ _); [|done]. by intros [= <-].
Qed.

Lemma candidates_loop_returns st q n tb cs :
  (∀ tb', (tb ≤ tb' < tb + n)%nat → is_Some (hash q tb' st)) →
  (tb + n ≤ length (tables_ st))%nat →
  is_Some (candidates_loop st q n tb cs).
Proof.
  revert tb cs. induction n as [|n IH]; intros tb cs Hhash Hlen; [done|].
  cbn [candidates_loop].
  destruct (Hhash tb) as [sig ->]; [lia|].
  destruct (lookup_lt_is_Some_2 (tables_ st) tb) as [table ->]; [lia|].
  apply IH; [|lia]. intros tb' Htb'. apply Hhash. lia.
Qed.

Lemma candidates_collide vectors q st st' cs :
  build vectors st = Some st' →
  candidates q st' = Some cs →
  ∀ i, i ∈ cs ↔ collides st vectors q i.
Proof.
  intros Hbuild Hcs i. unfold candidates in Hcs.
  rewrite (candidates_loop_spec _ _ _ _ _ _ Hcs).
  assert (∀ vec tb, hash vec tb st' = hash vec tb st) as Hhash
    by (intros; by eapply hash_build).
  unfold build in Hbuild.
  destruct (build_loop st vectors 0 _) as [tables|] eqn:Hloop; [|done].
  inversion Hbuild; subst st'. cbn [tables_ num_tables_] in *.
  apply build_loop_spec in Hloop as (_ & _ & _ & Hbucket).
  split.
  - intros [Hi|(tb & sig & Htb & Hq & Hi)]; [by apply elem_of_empty in Hi|].
    apply Hbucket in Hi as [Hi|(j & vec & -> & Hj & Htb' & Hv)].
    + rewrite bucket_cleared in Hi. by apply elem_of_nil in Hi.
    + exists tb, j, vec, sig. rewrite Hhash in Hq. done.
  - intros (tb & j & vec & sig & Htb & -> & Hj & Hv & Hq). right.
    exists tb, sig. split; [lia|]. split; [by rewrite Hhash|].
    apply Hbucket. right. by exists j, vec.
Qed.

(** X29.  After [build vectors], the candidate set the first loop of
    [query q] collects is exactly the set of indices [i] whose vector gets
    the signature of [q] in at least one table; every candidate is below
    [num_vectors]. *)
Theorem candidates_after_build (vectors : list (list F32.t)) (q : list F32.t)
    (st st' : t) (cs : gset Z) :
  build vectors st = Some st' →
  candidates q st' = Some cs →
  (∀ i, i ∈ cs ↔ collides st vectors q i)
  ∧ (∀ i, i ∈ cs → 0 ≤ i < num_vectors st').
Proof.
  intros Hbuild Hcs.
  pose proof (candidates_collide vectors q st st' cs Hbuild Hcs) as Hspec.
  split; [exact Hspec|].
  intros i Hi. apply Hspec in Hi as (tb & j & vec & sig & _ & -> & Hj & _).
  apply lookup_lt_Some in Hj.
  unfold build in Hbuild. destruct (build_loop _ _ _ _); [|done].
  inversion Hbuild; subst st'. unfold num_vectors. simpl. lia.
Qed.

(** X30.  With at least one table, every indexed vector is among the
    candidates of a query for itself. *)
Theorem indexed_vector_is_its_own_candidate (vectors : list (list F32.t))
    (st st' : t) (j : nat) (vec : list F32.t) :
  build vectors st = Some st' →
  0 < num_tables_ st →
  vectors !! j = Some vec →
  ∃ cs, candidates vec st' = Some cs ∧ Z.of_nat j ∈ cs.
Proof.
  intros Hbuild Htables Hj.
  assert (∀ v tb, hash v tb st' = hash v tb st) as Hhash
    by (intros; by eapply hash_build).
  pose proof Hbuild as Hb. unfold build in Hb.
  destruct (build_loop st vectors 0 _) as [tables|] eqn:Hloop; [|done].
  apply build_loop_spec in Hloop as (Hlen & Hbound & Hsome & _).
  destruct Hbound as [->|Hbound]; [done|].
  rewrite length_fmap in Hlen, Hbound.
  destruct (candidates_loop_returns st' vec (Z.to_nat (num_tables_ st')) 0 ∅) as [cs Hcs].
  { intros tb Htb. rewrite Hhash. apply (Hsome j); [done|].
    inversion Hb; subst st'. simpl in Htb. lia. }
  { inversion Hb; subst st'. simpl. lia. }
  exists cs. split; [exact Hcs|].
  apply (candidates_collide vectors vec st st' cs Hbuild Hcs).
  destruct (Hsome j vec 0%nat Hj) as [sig Hsig]; [lia|].
  exists 0%nat, j, vec, sig. split; [lia|done].
Qed.

End LSHLaws.

(** ** Instances *)

Module LawWitnesses.
Import IcebergStore StoreSpec StoreFacts EngineSpec EngineFacts Examples Witnesses.
Import StoreLaws EngineLaws KernelSpec KernelFacts LSHSpec LSHLaws.
#[local] Existing Instance first_node_graph.

Lemma auto_sealed_wf : store_wf auto_sealed.
Proof. unfold auto_sealed. repeat apply exec_wf. apply new_wf. lia. Qed.

Lemma reachable_auto_sealed : reachable auto_sealed.
Proof. unfold auto_sealed. repeat apply reachable_exec. apply reachable_new. Qed.

Lemma active_tombstone_wf : store_wf active_tombstone.
Proof. unfold active_tombstone. apply exec_wf, auto_sealed_wf. Qed.

Lemma fresh_db_wf : store_wf (VectorDB.store_ fresh_db).
Proof. apply new_wf. lia. Qed.


Lemma reachable_scan_all_returns_witness :
  reachable auto_sealed ∧ 0 < dim_ auto_sealed
  ∧ ∃ rows, scan_all auto_sealed = Ok rows.
Proof.
  split; [exact reachable_auto_sealed|]. split; [reflexivity|].
  destruct (reachable_scan_all_returns auto_sealed reachable_auto_sealed eq_refl)
    as (rows & Hrows & _).
  exists rows. exact Hrows.
Defined.

Lemma reachable_sealed_files_witness :
  reachable auto_sealed ∧ 0 < dim_ auto_sealed
  ∧ NoDup (SealedSegment.filepath <$> sealed_segments_ auto_sealed).
Proof.
  split; [exact reachable_auto_sealed|]. split; [reflexivity|].
  exact (proj1 (reachable_sealed_files auto_sealed reachable_auto_sealed eq_refl)).
Defined.

Lemma bulk_insert_totals_witness :
  0 ≤ 2
  ∧ snd (bulk_insert [10; 11] [one; one; half; half] 2 2 auto_sealed) = Ok tt
  ∧ total_live_records (fst (bulk_insert [10; 11] [one; one; half; half] 2 2 auto_sealed))
    = size_wrap (total_live_records auto_sealed + 2).
Proof.
  assert (snd (bulk_insert [10; 11] [one; one; half; half] 2 2 auto_sealed) = Ok tt)
    as Hok by reflexivity.
  split; [lia|]. split; [exact Hok|].
  refine (proj2 (bulk_insert_totals [10; 11] [one; one; half; half] 2 2 auto_sealed _ Hok)).
  lia.
Defined.

Lemma flush_keeps_contents_witness :
  store_wf auto_sealed ∧ ∃ st', flush auto_sealed = (st', Ok tt).
Proof.
  split; [exact auto_sealed_wf|].
  destruct (flush_keeps_contents auto_sealed auto_sealed_wf) as (st' & Hrun & _).
  exists st'. exact Hrun.
Defined.

Lemma insert_scan_round_trip_witness :
  store_wf auto_sealed
  ∧ ∃ st' old, insert 5 [one; half] "doc" auto_sealed = (st', Ok tt)
               ∧ scan_all st' = Ok (old ++ [VectorRecord.mk 5 [one; half] "doc"]).
Proof.
  split; [exact auto_sealed_wf|].
  destruct (insert_scan_round_trip 5 [one; half] "doc" auto_sealed)
    as (st' & old & Hrun & _ & Hscan);
    [exact auto_sealed_wf|reflexivity|apply not_elem_of_empty|].
  exists st', old. split; [exact Hrun|exact Hscan].
Defined.

Lemma insert_masked_by_tombstone_witness :
  store_wf active_tombstone
  ∧ 4 ∈ Segment.deleted (active_segment_ active_tombstone)
  ∧ ∃ st', insert 4 [one; half] "" active_tombstone = (st', Ok tt)
           ∧ scan_all st' = scan_all active_tombstone.
Proof.
  assert (4 ∈ Segment.deleted (active_segment_ active_tombstone)) as Hin.
  { apply elem_of_union_l, elem_of_singleton. reflexivity. }
  split; [exact active_tombstone_wf|]. split; [exact Hin|].
  destruct (insert_masked_by_tombstone 4 [one; half] "" active_tombstone)
    as (st' & Hrun & _ & Hscan); [exact active_tombstone_wf|reflexivity|exact Hin|].
  exists st'. split; [exact Hrun|exact Hscan].
Defined.

Lemma delete_then_scan_witness :
  store_wf auto_sealed
  ∧ scan_all (fst (delete_vector 1 auto_sealed)) = Ok [row 2; row 3; row 4].
Proof.
  split; [exact auto_sealed_wf|].
  destruct (delete_then_scan 1 auto_sealed auto_sealed_wf) as (_ & Hscan & _).
  rewrite Hscan. vm_compute. reflexivity.
Defined.

Lemma compact_keeps_live_records_witness :
  store_wf twice_deleted
  ∧ ∃ st' old new, scan_all twice_deleted = Ok old ∧ scan_all st' = Ok new ∧ new ≡ₚ old.
Proof.
  split; [exact twice_deleted_wf|].
  destruct (compact_keeps_live_records half twice_deleted twice_deleted_wf)
    as (st' & reclaimed & old & new & _ & Hold & Hnew & Hperm & _).
  exists st', old, new. split; [exact Hold|]. split; [exact Hnew|exact Hperm].
Defined.

Lemma compact_total_records_witness :
  store_wf twice_deleted
  ∧ ∃ st', compact half twice_deleted = (st', Ok 2)
           ∧ size_wrap (total_records st') = size_wrap (total_records twice_deleted - 2).
Proof.
  split; [exact twice_deleted_wf|].
  destruct (compact_total_records half twice_deleted twice_deleted_wf)
    as (st' & reclaimed & Hrun & Hrec & Htotal).
  assert (reclaimed = 2) as Hval by (rewrite Hrec; vm_compute; reflexivity).
  exists st'. rewrite Hrun, Htotal, Hval. split; reflexivity.
Defined.

Lemma compact_twice_witness :
  store_wf twice_deleted ∧ F32.ltb F32.zero half = true
  ∧ ∃ st1 st2, fst (compact half twice_deleted) = st1 ∧ compact half st1 = (st2, Ok 0).
Proof.
  split; [exact twice_deleted_wf|]. split; [reflexivity|].
  destruct (compact_twice half twice_deleted twice_deleted_wf eq_refl)
    as (st1 & reclaimed & st2 & Hrun1 & Hrun2 & _).
  exists st1, st2. rewrite Hrun1. split; [reflexivity|exact Hrun2].
Defined.

Lemma zero_dim_never_seals_witness :
  reachable (exec (Insert 1 [] "") zero_dim)
  ∧ dim_ (exec (Insert 1 [] "") zero_dim) = 0
  ∧ sealed_segments_ (exec (Insert 1 [] "") zero_dim) = [].
Proof.
  assert (reachable (exec (Insert 1 [] "") zero_dim)) as Hreach.
  { apply reachable_exec. apply reachable_new. }
  split; [exact Hreach|]. split; [reflexivity|].
  exact (proj1 (zero_dim_never_seals _ Hreach eq_refl)).
Defined.

Lemma zero_dim_insert_not_atomic_witness :
  dim_ zero_dim = 0
  ∧ snd (insert 1 [] "doc" zero_dim)
    = Throw (invalid_argument "flat_vectors.size() must be divisible by dim")
  ∧ Segment.records (active_segment_ (fst (insert 1 [] "doc" zero_dim)))
    = [VectorRecord.mk 1 [] "doc"].
Proof.
  split; [reflexivity|].
  destruct (zero_dim_insert_not_atomic 1 "doc" zero_dim) as (Hrun & Hrec & _);
    [reflexivity|simpl; lia|].
  split; [rewrite Hrun; reflexivity|exact Hrec].
Defined.

Lemma bulk_insert_as_inserts_witness :
  0 ≤ dim_ auto_sealed
  ∧ bulk_insert [10; 11] [one; one; half; half] 2 (dim_ auto_sealed) auto_sealed
    = insert_all (batch_records [10; 11] [one; one; half; half] (dim_ auto_sealed))
        auto_sealed.
Proof.
  split; [simpl; lia|].
  apply (bulk_insert_as_inserts [10; 11] [one; one; half; half] auto_sealed);
    [simpl; lia|reflexivity].
Defined.

Lemma one_record_db_wf : store_wf (VectorDB.store_ one_record_db).
Proof.
  change (VectorDB.store_ one_record_db)
    with (exec (Insert 7 [F32.zero] "") (new 1 1000 "/tmp/vectordb" ∅)).
  apply exec_wf, new_wf. lia.
Qed.

Lemma search_resolves_by_position_witness :
  store_wf (VectorDB.store_ one_record_db)
  ∧ HNSWIndex.size (VectorDB.hnsw_ one_record_db) = 1
  ∧ snd (VectorDB.search [F32.zero] 1 one_record_db)
    = Ok [VectorDB.mk_result 7 F32.zero ""]
  ∧ HNSWIndex.ef_search_ (VectorDB.hnsw_ (fst (VectorDB.search [F32.zero] 1 one_record_db)))
    = 50.
Proof.
  split; [exact one_record_db_wf|]. split; [reflexivity|].
  destruct (search_resolves_by_position [F32.zero] 1 one_record_db one_record_db_wf)
    as (all_records & Hscan & Hrun & Hef); [reflexivity|lia|].
  split; [|exact Hef].
  assert (all_records = [VectorRecord.mk 7 [F32.zero] ""]) as Hall.
  { assert (Ok all_records = Ok [VectorRecord.mk 7 [F32.zero] ""]) as Heq
      by (rewrite <- Hscan; vm_compute; reflexivity).
    injection Heq as Heq. exact Heq. }
  rewrite Hrun, Hall. vm_compute. reflexivity.
Defined.

Lemma insert_keeps_index_in_step_witness :
  store_wf (VectorDB.store_ fresh_db)
  ∧ ∃ db', VectorDB.insert 1 [one; half] "" fresh_db = (db', Ok tt)
           ∧ VectorDB.index_size db' = VectorDB.index_size fresh_db + 1.
Proof.
  split; [exact fresh_db_wf|].
  pose proof (insert_keeps_index_in_step 1 [one; half] "" fresh_db fresh_db_wf) as Hins.
  rewrite decide_True in Hins by reflexivity.
  destruct Hins as (db' & Hrun & _ & _ & _ & Hsize & _).
  exists db'. split; [exact Hrun|exact Hsize].
Defined.

Lemma ingest_batch_keeps_index_in_step_witness :
  store_wf (VectorDB.store_ tuned_db)
  ∧ ∃ db', VectorDB.ingest_batch labelled_batch tuned_db = (db', Ok 2)
           ∧ VectorDB.index_size db' = VectorDB.index_size tuned_db + 2.
Proof.
  split; [exact twice_deleted_wf|].
  destruct (ingest_batch_keeps_index_in_step labelled_batch [10; 11]
              [one; one; half; half] tuned_db)
    as (db' & Hrun & _ & Hsize & _);
    [exact twice_deleted_wf|reflexivity|reflexivity|reflexivity|reflexivity
    |reflexivity|reflexivity|].
  exists db'. split; [exact Hrun|exact Hsize].
Defined.

Lemma indexed_db_wf : store_wf (VectorDB.store_ indexed_db).
Proof.
  assert (VectorDB.store_ indexed_db
          = exec (Insert 4 [half; half] "d") (exec (Insert 3 [half; one] "c")
              (exec (Insert 2 [one; half] "b") (exec (Insert 1 [one; one] "a")
                (new 2 3 "/tmp/vectordb" ∅))))) as -> by (vm_compute; reflexivity).
  repeat apply exec_wf. apply new_wf. lia.
Qed.

Lemma delete_and_flush_keep_aligned_witness :
  store_wf (VectorDB.store_ indexed_db) ∧ aligned indexed_db
  ∧ VectorDB.index_size indexed_db = 4
  ∧ VectorDB.segment_count indexed_db = 1
  ∧ aligned (fst (VectorDB.delete_vector 1 indexed_db))
  ∧ scan_all (VectorDB.store_ (fst (VectorDB.delete_vector 1 indexed_db)))
    = Ok [VectorRecord.mk 2 [one; half] "b"; VectorRecord.mk 3 [half; one] "c";
          VectorRecord.mk 4 [half; half] "d"]
  ∧ aligned (fst (VectorDB.flush indexed_db))
  ∧ VectorDB.segment_count (fst (VectorDB.flush indexed_db)) = 2.
Proof.
  assert (aligned indexed_db) as Hal by (vm_compute; reflexivity).
  destruct (delete_and_flush_keep_aligned 1 indexed_db indexed_db_wf Hal)
    as (Hdel & Hflush & _).
  split; [exact indexed_db_wf|]. split; [exact Hal|].
  split; [vm_compute; reflexivity|]. split; [vm_compute; reflexivity|].
  split; [exact Hdel|]. split; [vm_compute; reflexivity|].
  split; [exact Hflush|]. vm_compute. reflexivity.
Defined.

Lemma built_batch_is_ingested_witness :
  store_wf (VectorDB.store_ tuned_db)
  ∧ ∃ batch db', built_batch [10; 11] [one; one; half; half] 2 ["a"; "b"] = Ok batch
                 ∧ VectorDB.ingest_batch batch tuned_db = (db', Ok 2).
Proof.
  split; [exact twice_deleted_wf|].
  destruct (built_batch_is_ingested [10; 11] [one; one; half; half] ["a"; "b"] tuned_db)
    as (batch & db' & Hbuilt & Hrun & _);
    [exact twice_deleted_wf|reflexivity|reflexivity|reflexivity|reflexivity|].
  exists batch, db'. split; [exact Hbuilt|exact Hrun].
Defined.

Lemma distance_sq_to_itself_witness :
  Forall (λ x, is_finite x = true) [one; half]
  ∧ HNSWIndex.distance_sq 2 [one; half] [one; half] = Some F32.zero.
Proof.
  assert (Forall (λ x, is_finite x = true) [one; half]) as Hfin
    by (repeat constructor).
  split; [exact Hfin|].
  refine (proj1 (distance_sq_to_itself 2 [one; half] Hfin _)). simpl. lia.
Defined.


Lemma distance_sq_never_negative_witness :
  ∃ d, HNSWIndex.distance_sq 2 [one; half] [half; one] = Some d
       ∧ F32.ltb d F32.zero = false.
Proof.
  eexists. split; [vm_compute; reflexivity|].
  refine (proj1 (distance_sq_never_negative 2 [one; half] [half; one] _ _)).
  vm_compute. reflexivity.
Defined.

Lemma cosine_sim_symmetric_witness :
  length [one; half] = length [half; half]
  ∧ RandomHyperplaneLSH.cosine_sim [half; half] [one; half]
    = RandomHyperplaneLSH.cosine_sim [one; half] [half; half].
Proof.
  split; [reflexivity|]. apply cosine_sim_symmetric. reflexivity.
Defined.

Lemma cosine_sim_zero_vector_witness :
  Forall (λ x, is_zero x = true) [F32.zero; F32.zero]
  ∧ RandomHyperplaneLSH.cosine_sim [F32.zero; F32.zero] [one; half] = Ok F32.zero.
Proof.
  assert (Forall (λ x, is_zero x = true) [F32.zero; F32.zero]) as Hz
    by (repeat constructor).
  split; [exact Hz|].
  exact (proj1 (cosine_sim_zero_vector [F32.zero; F32.zero] [one; half] Hz eq_refl)).
Defined.

Lemma candidates_after_build_witness :
  ∃ st' cs,
    RandomHyperplaneLSH.build [[one; half]; [half; one]] one_plane = Some st'
    ∧ RandomHyperplaneLSH.candidates [one; one] st' = Some cs
    ∧ ∀ i, i ∈ cs → 0 ≤ i < RandomHyperplaneLSH.num_vectors st'.
Proof.
  eexists _, _. split; [vm_compute; reflexivity|]. split; [vm_compute; reflexivity|].
  refine (proj2 (candidates_after_build [[one; half]; [half; one]] [one; one]
                   one_plane _ _ _ _)); vm_compute; reflexivity.
Defined.

Lemma indexed_vector_is_its_own_candidate_witness :
  ∃ st' cs,
    RandomHyperplaneLSH.build [[one; half]; [half; one]] one_plane = Some st'
    ∧ RandomHyperplaneLSH.candidates [half; one] st' = Some cs ∧ 1 ∈ cs.
Proof.
  eexists _.
  assert (RandomHyperplaneLSH.build [[one; half]; [half; one]] one_plane = Some _) as Hb
    by (vm_compute; reflexivity).
  destruct (indexed_vector_is_its_own_candidate [[one; half]; [half; one]] one_plane _
              1 [half; one] Hb) as (cs & Hcs & Hin); [reflexivity|reflexivity|].
  exists cs. split; [exact Hb|]. split; [exact Hcs|exact Hin].
Defined.

End LawWitnesses.
